(** * Pokémon Connections: board generation and guess validation

    A shallow embedding of [script.js] (the Gen 1 variant) and of the
    Gen 1-7 variant of the same script, and the properties of the board
    engine checked against them.

    Conventions.
    - A JavaScript array is a [list]; [a[i]] is [a !! i] and [a.slice(0,n)]
      is [take n a].
    - [indexOf] and [findIndex] return a [Z], with [-1] for "absent", as in
      the source.
    - [undefined] (what [pop] returns on an empty array) is [None] in
      [option string]; pools only ever hold strings, groups are lists of
      [option string] because the padding loops push whatever [pop] returns.
    - [Math.random] and the remote catalog are oracles indexed by the number
      of calls made so far; the counters live in the [World] that the
      asynchronous functions thread through.
    - The two variants share most of their functions word for word; these
      are embedded once.  They differ in the pool, in [fetchPokemonData],
      in the filler, and in [renderBoard()]: the Gen 1-7 variant declares
      the [updateProgress] that [renderBoard] calls, [script.js] does not,
      so there the call raises a ReferenceError.  What runs after a call of
      [renderBoard()] therefore exists in two versions: the top-level
      [lockSelection], [step], [run] and [publish] are those of the Gen 1-7
      variant, and [Script.lockSelection], [Script.step], [Script.run] and
      [Script.startGame] are those of [script.js]. *)

From stdpp Require Import base list strings pretty.
From Stdlib Require Import ZArith Lia Ascii.

Local Open Scope string_scope.
Local Open Scope list_scope.
Local Open Scope nat_scope.

(** ** JavaScript array primitives *)

Module JS.
Section Arrays.
Context {A : Type} `{EqDecision A}.

(** [a.findIndex(p)]: first index whose element satisfies [p], else -1. *)
Fixpoint findIndex (p : A → bool) (a : list A) : Z :=
  match a with
  | [] => (-1)%Z
  | x :: a' =>
      if p x then 0%Z
      else let k := findIndex p a' in if (k <? 0)%Z then (-1)%Z else (k + 1)%Z
  end.

(** [a.indexOf(x)] and [a.includes(x)]. *)
Definition indexOf (a : list A) (x : A) : Z :=
  findIndex (λ y, bool_decide (y = x)) a.

Definition includes (a : list A) (x : A) : bool := bool_decide (x ∈ a).

(** [a.find(p)]. *)
Fixpoint find (p : A → bool) (a : list A) : option A :=
  match a with
  | [] => None
  | x :: a' => if p x then Some x else find p a'
  end.

(** [a.splice(k,1)] for an index [k] that was tested [k >= 0]. *)
Definition splice1 (a : list A) (k : Z) : list A := delete (Z.to_nat k) a.

(** [new Set(a)]: the distinct elements in order of first insertion;
    [.size] is its length and [.values().next().value] its head. *)
Definition Set_of (a : list A) : list A :=
  foldl (λ acc x, if includes acc x then acc else acc ++ [x]) [] a.

(** [a.every(p)]. *)
Definition every (p : A → bool) (a : list A) : bool := forallb p a.
End Arrays.

(** Truthiness of a string: only the empty string is falsy. *)
Definition truthy (s : string) : bool := negb (bool_decide (s = "")).

(** ASCII [toLowerCase]; identifiers are ASCII. *)
Definition lower_ascii (c : ascii) : ascii :=
  let n := nat_of_ascii c in
  if (65 <=? n) && (n <=? 90) then ascii_of_nat (n + 32) else c.

Fixpoint toLowerCase (s : string) : string :=
  match s with
  | EmptyString => EmptyString
  | String c s' => String (lower_ascii c) (toLowerCase s')
  end.

(** [s.replace('-',' ')]: only the first occurrence is replaced. *)
Fixpoint replace_first_dash (s : string) : string :=
  match s with
  | EmptyString => EmptyString
  | String c s' =>
      if bool_decide (c = "-"%char) then String " "%char s'
      else String c (replace_first_dash s')
  end.
End JS.

(** ** Data *)

Definition GROUP_SIZE : nat := 4.
Definition MAX_GROUPS : nat := 4.
Definition MAX_BOARD : nat := MAX_GROUPS * GROUP_SIZE.

(** What [fetchPokemonData] returns.  [types] holds the names
    [types[i].type.name] in slot order; an absent, [null] or [undefined]
    field is [None].  The [id] of the Gen 1-7 variant only feeds the image
    fallback chain and is left out. *)
Record Meta := mkMeta {
  m_name : string;
  types : list string;
  species : option string;
  is_legendary : bool;
  generation : option string;
  evolution_chain : option string
}.

(** An entry of [cardData]; [imageUrl] is presentation only and left out. *)
Record Card := mkCard {
  name : string;
  metadata : Meta;
  groupId : Z;
  locked : bool
}.

(** The three globals of the script, and the text of the status line. *)
Record State := mkState {
  cardData : list Card;
  selected : list nat;
  solutions : list (list string);
  status : string
}.

Definition setStatus (txt : string) (st : State) : State :=
  mkState (cardData st) (selected st) (solutions st) txt.

(** [renderSelection()] rewrites the selection strip of the page and
    touches none of the three globals. *)
Definition renderSelection (st : State) : State := st.

(** [updateProgress()] as the Gen 1-7 variant declares it: a function with
    an empty body ("placeholder for future progress UI").  [script.js]
    declares no function of that name; what the call does there is
    [Script.updateProgress]. *)
Definition updateProgress (st : State) : State := st.

(** [renderBoard()] of the Gen 1-7 variant: it rebuilds the board's
    elements from [cardData] and ends with [updateProgress()].  The one of
    [script.js] is [Script.renderBoard]. *)
Definition renderBoard (st : State) : State := updateProgress st.

Definition MSG_SELECTION_FULL : string :=
  "You can select up to 4 Pokémon per group.".
Definition MSG_INVALID_SIZE : string :=
  "Select exactly 4 Pokémon to lock as a group.".
Definition MSG_CORRECT : string := "Correct! Group locked.".
Definition MSG_INCORRECT : string := "Not a correct group.".
Definition MSG_WON : string := "Congratulations — you found all groups!".
Definition MSG_FETCHING : string :=
  "Fetching Pokémon metadata (this may take a few seconds)...".
Definition MSG_READY : string := "Game ready — find the 4 groups!".

(** ** GameState: selection, guesses, win test *)

(** [onCardClick(idx, el)].  An [idx] outside the board makes
    [cardData[idx].locked] raise a TypeError before anything is written, so
    the state is left as it was. *)
Definition onCardClick (idx : nat) (st : State) : State :=
  match cardData st !! idx with
  | None => st
  | Some card =>
      if locked card then st
      else
        let selIndex := JS.indexOf (selected st) idx in
        if (0 <=? selIndex)%Z then
          renderSelection
            (mkState (cardData st) (JS.splice1 (selected st) selIndex)
                     (solutions st) (status st))
        else if GROUP_SIZE <=? length (selected st) then
          setStatus MSG_SELECTION_FULL st
        else
          renderSelection
            (mkState (cardData st) (selected st ++ [idx]) (solutions st)
                     (status st))
  end.

(** [clearSelection()]. *)
Definition clearSelection (st : State) : State :=
  setStatus ""
    (renderSelection (mkState (cardData st) [] (solutions st) (status st))).

(** [c.locked = true]. *)
Definition lockCard (c : Card) : Card :=
  mkCard (name c) (metadata c) (groupId c) true.

(** [selected.forEach(i => cardData[i].locked = true)]. *)
Definition lockAll (sel : list nat) (cards : list Card) : list Card :=
  foldl (λ cs i, alter lockCard i cs) cards sel.

(** [checkWin()]. *)
Definition checkWin (st : State) : State :=
  let lockedCount := length (List.filter locked (cardData st)) in
  if lockedCount =? MAX_BOARD then setStatus MSG_WON st else st.

(** [solutions[gid] = []].  For [gid = -1] the assignment creates a property
    named "-1" and no element of the array changes. *)
Definition clearGroup (gid : Z) (sols : list (list string)) : list (list string) :=
  if (0 <=? gid)%Z then <[Z.to_nat gid := []]> sols else sols.

(** Index of the first solution group holding [n]. *)
Definition groupIndexOf (sols : list (list string)) (n : string) : Z :=
  JS.findIndex (λ g, JS.includes g n) sols.

(** What [lockSelection] reports through [addProgressItem] and the status
    line; the progress list itself is part of the page. *)
Inductive Verdict :=
| InvalidSelectionSize
| Correct (gid : Z)
| Incorrect (names : list string)
| TypeError.

(** [lockSelection()] of the Gen 1-7 variant.  With a selected position
    outside the board the computation of [names] raises a TypeError before
    anything is written.  [script.js] has the same statements, but its
    [renderBoard()] does not return: see [Script.lockSelection]. *)
Definition lockSelection (st : State) : Verdict * State :=
  if negb (length (selected st) =? GROUP_SIZE) then
    (InvalidSelectionSize, setStatus MSG_INVALID_SIZE st)
  else
    match mapM (λ i, cardData st !! i) (selected st) with
    | None => (TypeError, st)
    | Some cards =>
        let names := map name cards in
        let groupIds := JS.Set_of (map (groupIndexOf (solutions st)) names) in
        match groupIds with
        | [gid] =>
            (* lock the cards, report, drop the group, redraw, clear the
               selection, test for the win *)
            let st1 := setStatus MSG_CORRECT
                         (mkState (lockAll (selected st) (cardData st))
                                  (selected st) (solutions st) (status st)) in
            let st2 := renderBoard
                         (mkState (cardData st1) (selected st1)
                                  (clearGroup gid (solutions st1)) (status st1)) in
            let st3 := renderSelection
                         (mkState (cardData st2) [] (solutions st2) (status st2)) in
            (Correct gid, checkWin st3)
        | _ => (Incorrect names, setStatus MSG_INCORRECT st)
        end
    end.

(** ** GameState: reveal *)

(** [m.types && m.types[0] && m.types[0].type.name]. *)
Definition primaryTypeName (m : Meta) : option string := head (types m).

(** [s.name] where [s] is a string primitive: strings carry no property
    of that name, so the access yields [undefined]. *)
Definition string_prop_name (s : string) : option string := None.

(** [m.generation && m.generation.name].  [generation] already holds the
    generation's name (see [fetchPokemonData]), a string or [null]. *)
Definition generationName (m : Meta) : option string :=
  match generation m with
  | None => None
  | Some g => if JS.truthy g then string_prop_name g else Some g
  end.

(** [v && metas.every(m => e(m) === v)]: the value when both hold. *)
Definition sharedBy (v : option string) (e : Meta → option string)
    (metas : list Meta) : option string :=
  match v with
  | Some s =>
      if JS.truthy s && JS.every (λ m, bool_decide (e m = Some s)) metas
      then Some s else None
  | None => None
  end.

(** [inferHintForGroup(names)], reading the global [cardData]. *)
Definition inferHintForGroup (cards : list Card) (names : list string) : string :=
  let metas :=
    omap (λ n, metadata <$> JS.find (λ cd, bool_decide (name cd = n)) cards)
         names in
  match metas with
  | [] => "Unknown"
  | m0 :: _ =>
      match sharedBy (primaryTypeName m0) primaryTypeName metas with
      | Some firstType => "All are " +:+ firstType +:+ " type"
      | None =>
          match sharedBy (generationName m0) generationName metas with
          | Some gen => "All from " +:+ JS.replace_first_dash gen
          | None =>
              if JS.every is_legendary metas then "All Legendary"
              else
                match sharedBy (evolution_chain m0) evolution_chain metas with
                | Some _ => "Same evolution family"
                | None => "A shared connection"
                end
          end
      end
  end.

(** [groupMap[gid] = groupMap[gid] || []; groupMap[gid].push(n)].  The
    object is kept in the order in which [Object.keys] enumerates it:
    array-index keys ascending, then the other keys as inserted. *)
Fixpoint groupMap_push (gid : Z) (n : string) (gm : list (Z * list string))
    : list (Z * list string) :=
  match gm with
  | [] => [(gid, [n])]
  | (k, ns) :: gm' =>
      if (gid =? k)%Z then (k, ns ++ [n]) :: gm'
      else if (0 <=? gid)%Z && ((k <? 0)%Z || (gid <? k)%Z)
      then (gid, [n]) :: (k, ns) :: gm'
      else (k, ns) :: groupMap_push gid n gm'
  end.

Definition groupMap_of (cards : list Card) : list (Z * list string) :=
  foldl (λ gm c, groupMap_push (groupId c) (name c) gm) [] cards.

Fixpoint join (sep : string) (l : list string) : string :=
  match l with
  | [] => ""
  | [x] => x
  | x :: l' => x +:+ sep +:+ join sep l'
  end.

(** [revealAnswers()]: only the status line of the state changes. *)
Definition revealAnswers (st : State) : State :=
  let hints := map (λ kv, inferHintForGroup (cardData st) kv.2)
                   (groupMap_of (cardData st)) in
  setStatus
    ("Hints: " +:+
     join " | " (imap (λ i h, "Group " +:+ pretty (i + 1) +:+ ": " +:+ h) hints))
    st.

(** ** The player's commands within one session *)

Inductive Op :=
| Click (idx : nat)
| Lock
| Clear
| Reveal.

(** One command and a sequence of commands in the Gen 1-7 variant; those
    of [script.js], which differ in the guess, are [Script.step] and
    [Script.run]. *)
Definition step (st : State) (op : Op) : State :=
  match op with
  | Click idx => onCardClick idx st
  | Lock => (lockSelection st).2
  | Clear => clearSelection st
  | Reveal => revealAnswers st
  end.

Definition run (ops : list Op) (st : State) : State := foldl step st ops.

(** ** The environment: random draws and the remote catalog *)

(** The part of a [/pokemon/<name>] response the script reads, taken as
    well formed: [p_types] holds the [type.name] of each entry of
    [data.types]. *)
Record PokemonData := mkPokemonData {
  p_types : list string;
  p_species_url : string
}.

(** The part of a species response the script reads; [s_generation] is
    [species.generation.name] and [s_evolution_chain] is
    [species.evolution_chain.url], each [None] when the object is absent. *)
Record SpeciesData := mkSpeciesData {
  s_name : string;
  s_is_legendary : bool;
  s_generation : option string;
  s_evolution_chain : option string
}.

(** A [/generation/<g>] response: a species list, a response that is not
    [ok], or a rejected fetch (or unreadable body). *)
Inductive GenResponse :=
| GenOk (species_names : list string)
| GenNotOk
| GenFailed.

(** [random k] stands for the [k]-th call of [Math.random]:
    [Math.floor(Math.random() * n)] is [random k mod n].  The endpoints
    answer the [k]-th request; [None] is a lookup that failed (not found,
    network error, unreadable body). *)
Record Env := mkEnv {
  random : nat → nat;
  pokemonEndpoint : nat → string → option PokemonData;
  speciesEndpoint : nat → string → option SpeciesData;
  generationEndpoint : nat → nat → GenResponse
}.

(** Calls made so far, and the global [poolCache] of the Gen 1-7 variant. *)
Record World := mkWorld {
  rnd : nat;
  net : nat;
  poolCache : option (list string)
}.

Definition M (A : Type) : Type := World → A * World.
Definition ret {A} (a : A) : M A := λ w, (a, w).
Definition bind {A B} (c : M A) (k : A → M B) : M B :=
  λ w, let (a, w') := c w in k a w'.

Notation "'let!' x ':=' c 'in' k" := (bind c (λ x, k))
  (at level 10, x name, c at level 100, k at level 200).
Notation "'let!' ( x , y ) ':=' c 'in' k" :=
  (bind c (λ p, let '(x, y) := p in k))
  (at level 10, x name, y name, c at level 100, k at level 200).

(** How a run of asynchronous code from a given world ends. *)
Inductive outcome (A : Type) :=
| Returns (a : A) (w : World)
| Throws (w : World)
| Diverges.
Arguments Returns {A} a w.
Arguments Throws {A} w.
Arguments Diverges {A}.

Definition MO (A : Type) : Type := World → outcome A.
Definition retO {A} (a : A) : MO A := λ w, Returns a w.
Definition throwO {A} : MO A := λ w, Throws w.
Definition lift {A} (c : M A) : MO A := λ w, let (a, w') := c w in Returns a w'.
Definition bindO {A B} (c : MO A) (k : A → MO B) : MO B :=
  λ w, match c w with
       | Returns a w' => k a w'
       | Throws w' => Throws w'
       | Diverges => Diverges
       end.

Notation "'try!' x ':=' c 'in' k" := (bindO c (λ x, k))
  (at level 10, x name, c at level 100, k at level 200).
Notation "'try!' ( x , y ) ':=' c 'in' k" :=
  (bindO c (λ p, let '(x, y) := p in k))
  (at level 10, x name, y name, c at level 100, k at level 200).

(** ** Utilities and group builders shared by both variants *)

(** [[a[i], a[j]] = [a[j], a[i]]] for positions inside the array. *)
Definition swap {A} (a : list A) (i j : nat) : list A :=
  match a !! i, a !! j with
  | Some x, Some y => <[j := x]> (<[i := y]> a)
  | _, _ => a
  end.

(** Buckets keyed by a string, in order of first insertion:
    [o[k] = o[k] || []; o[k].push(n)], returning [o[k]] as well. *)
Fixpoint bucket_push (k n : string) (o : list (string * list string))
    : list string * list (string * list string) :=
  match o with
  | [] => ([n], [(k, [n])])
  | (k', ns) :: o' =>
      if bool_decide (k' = k) then (ns ++ [n], (k', ns ++ [n]) :: o')
      else let (b, o'') := bucket_push k n o' in (b, (k', ns) :: o'')
  end.

(** [removeFromPool(pool, items)]; [indexOf(undefined)] finds nothing in a
    pool of strings. *)
Definition removeFromPool (pool : list string) (items : list (option string))
    : list string :=
  foldl (λ pool it,
           let idx := match it with
                      | Some s => JS.indexOf pool s
                      | None => (-1)%Z
                      end in
           if (0 <=? idx)%Z then JS.splice1 pool idx else pool)
        pool items.

(** [while (g.length < target) { const p = pool.pop();
      if (!g.includes(p)) g.push(p); }]
    run on the pool held as a stack (last element first).  On an empty
    pool [pop] yields [undefined] and the pool stays empty: once [undefined]
    is in [g] an iteration changes nothing, so the loop never exits
    ([None]). *)
Fixpoint padStack (target : nat) (g : list (option string)) (stk : list string)
    : option (list (option string) * list string) :=
  if target <=? length g then Some (g, stk)
  else
    match stk with
    | x :: stk' =>
        padStack target (if JS.includes g (Some x) then g else g ++ [Some x]) stk'
    | [] =>
        if JS.includes g None then None
        else if target <=? length (g ++ [None]) then Some (g ++ [None], [])
        else None
    end.

Definition padFromTail (target : nat) (g : list (option string))
    (pool : list string) : option (list (option string) * list string) :=
  match padStack target g (reverse pool) with
  | Some (g', stk) => Some (g', reverse stk)
  | None => None
  end.

(** [groups.map(g => g.map(n => n.toLowerCase()))]: a TypeError ([None])
    when a member is [undefined]. *)
Definition lowerGroups (groups : list (list (option string)))
    : option (list (list string)) :=
  mapM (λ g, mapM (λ n, JS.toLowerCase <$> n) g) groups.

Section Builders.
Variable env : Env.
Variable fetchPokemonData : string → M Meta.

(** [Math.floor(Math.random() * n)]. *)
Definition randomBelow (n : nat) : M nat :=
  λ w, (random env (rnd w) mod n, mkWorld (S (rnd w)) (net w) (poolCache w)).

(** [shuffle(a)]: [for (let i = a.length-1; i > 0; i--)]. *)
Fixpoint shuffle_from {A} (i : nat) (a : list A) : M (list A) :=
  match i with
  | 0 => ret a
  | S i' =>
      let! j := randomBelow (i + 1) in
      shuffle_from i' (swap a i j)
  end.

Definition shuffle {A} (a : list A) : M (list A) :=
  shuffle_from (length a - 1) a.

(** [sampleArray(arr, n)]. *)
Definition sampleArray {A} (arr : list A) (n : nat) : M (list A) :=
  let! a := shuffle arr in
  ret (take n a).

(** The loop of [buildTypeGroup]. *)
Fixpoint typeScan (size : nat) (sample : list string)
    (typeMembers : list (string * list string)) : M (option (list string)) :=
  match sample with
  | [] => ret None
  | name :: rest =>
      let! meta := fetchPokemonData name in
      match head (types meta) with
      | Some primaryType =>
          if JS.truthy primaryType then
            let (members, typeMembers') :=
              bucket_push primaryType name typeMembers in
            if size <=? length members then ret (Some (take size members))
            else typeScan size rest typeMembers'
          else typeScan size rest typeMembers
      | None => typeScan size rest typeMembers
      end
  end.

(** [buildTypeGroup(pool, size)]. *)
Definition buildTypeGroup (pool : list string) (size : nat)
    : M (option (list string)) :=
  let! sample := shuffle pool in
  typeScan size sample [].

(** [for (const k of Object.keys(chainMap))
      if (chainMap[k].length > best.length) best = chainMap[k];]
    Chain keys are URLs, which [Object.keys] lists as inserted. *)
Definition largestBucket (chainMap : list (string * list string)) : list string :=
  foldl (λ best kv, if length best <? length kv.2 then kv.2 else best)
        [] chainMap.

(** The loop of [buildEvolutionGroup] and what follows it. *)
Fixpoint chainScan (minSize : nat) (pool : list string)
    (chainMap : list (string * list string)) : M (option (list string)) :=
  match pool with
  | [] =>
      let best := largestBucket chainMap in
      ret (if 0 <? length best then Some best else None)
  | name :: rest =>
      let! p := fetchPokemonData name in
      match evolution_chain p with
      | Some chainUrl =>
          if JS.truthy chainUrl then
            let (members, chainMap') := bucket_push chainUrl name chainMap in
            if minSize <=? length members then ret (Some (take minSize members))
            else chainScan minSize rest chainMap'
          else chainScan minSize rest chainMap
      | None => chainScan minSize rest chainMap
      end
  end.

(** [buildEvolutionGroup(pool, minSize)]. *)
Definition buildEvolutionGroup (pool : list string) (minSize : nat)
    : M (option (list string)) :=
  chainScan minSize pool [].

(** The [for] loop of [findSameTypeFiller]. *)
Fixpoint fillerScan (targetType : string) (count : nat) (pool : list string)
    (matches : list string) : M (list string) :=
  match pool with
  | [] => ret matches
  | name :: rest =>
      let! m := fetchPokemonData name in
      let matches' :=
        if bool_decide (primaryTypeName m = Some targetType)
        then matches ++ [name] else matches in
      if count <=? length matches' then ret matches'
      else fillerScan targetType count rest matches'
  end.

(** [while (groups.length < 4) { const g = await buildTypeGroup(pool,4)
      || sampleArray(pool,4); groups.push(g); removeFromPool(pool, g); }]
    where [n] is the number of groups still missing. *)
Fixpoint fillGroups (n : nat) (groups : list (list (option string)))
    (pool : list string) : M (list (list (option string)) * list string) :=
  match n with
  | 0 => ret (groups, pool)
  | S n' =>
      let! t := buildTypeGroup pool GROUP_SIZE in
      let! g := match t with
                | Some g => ret g
                | None => sampleArray pool GROUP_SIZE
                end in
      fillGroups n' (groups ++ [Some <$> g]) (removeFromPool pool (Some <$> g))
  end.

(** [await Promise.all(names.map(name => fetchPokemonData(name)))]; the
    lookups are consulted in the order of the names. *)
Fixpoint fetchAll (names : list string) : M (list Meta) :=
  match names with
  | [] => ret []
  | n :: rest =>
      let! m := fetchPokemonData n in
      let! ms := fetchAll rest in
      ret (m :: ms)
  end.

(** [startGame] from the assignment of [solutions] to the assignment of
    [cardData], the same statements in both variants. *)
Definition layBoard (sols : list (list string)) : M State :=
  let flat := concat sols in
  let! shuffled := shuffle flat in
  let! metas := fetchAll shuffled in
  ret (mkState
         (zip_with (λ n meta, mkCard n meta (groupIndexOf sols n) false)
                   shuffled metas)
         [] sols MSG_FETCHING).

(** The end of [startGame] as it runs in the Gen 1-7 variant: the board is
    laid, [renderBoard()] returns and the status line announces the game.
    In [script.js] the call of [renderBoard()] does not return (see
    [Script.startGame]); the board and the groups are those laid here. *)
Definition publish (sols : list (list string)) : M State :=
  let! st := layBoard sols in
  ret (setStatus MSG_READY (renderBoard st)).

(** Steps 1 to 4 of [startGame] and the lower-casing that follows, which
    the two variants share word for word apart from the filler they call
    and the list of legendary names. *)
Variable findSameTypeFiller :
  list string → string → nat → MO (list (option string) * list string).
Variable legendaryNames : list string.

(** 1) the type-based group. *)
Definition typeStep (pool : list string)
    : M (list (list (option string)) * list string) :=
  let! typeGroup := buildTypeGroup pool GROUP_SIZE in
  ret (match typeGroup with
       | Some g => ([Some <$> g], removeFromPool pool (Some <$> g))
       | None => ([], pool)
       end).

(** 2) the evolution-family group, filled when short.  [evoGroup[0]] of an
    empty array would be [undefined], looked up as the text "undefined". *)
Definition evolutionStep (groups : list (list (option string)))
    (pool : list string) : MO (list (list (option string)) * list string) :=
  try! evoGroup := lift (buildEvolutionGroup pool GROUP_SIZE) in
  match evoGroup with
  | Some evo =>
      if length evo <? GROUP_SIZE then
        try! (filler, pool') :=
          findSameTypeFiller pool (default "undefined" (head evo))
                             (GROUP_SIZE - length evo) in
        let g := (Some <$> evo) ++ filler in
        retO (groups ++ [g], removeFromPool pool' g)
      else
        let g := Some <$> take GROUP_SIZE evo in
        retO (groups ++ [g], removeFromPool pool g)
  | None => retO (groups, pool)
  end.

(** 3) the legendary group, padded from the pool's tail. *)
Definition legendStep (groups : list (list (option string)))
    (pool : list string) : MO (list (list (option string)) * list string) :=
  let legendGroup :=
    take GROUP_SIZE (List.filter (λ n, JS.includes pool n) legendaryNames) in
  if 2 <=? length legendGroup then
    match padFromTail GROUP_SIZE (Some <$> legendGroup) pool with
    | Some (g, pool') => retO (groups ++ [g], removeFromPool pool' g)
    | None => λ _, Diverges
    end
  else retO (groups, pool).

Definition assemble (pool : list string) : MO (list (list string)) :=
  try! (groups, pool) := lift (typeStep pool) in
  try! (groups, pool) := evolutionStep groups pool in
  try! (groups, pool) := legendStep groups pool in
  (* 4) remaining groups by type or at random *)
  try! (groups, pool) :=
    lift (fillGroups (MAX_GROUPS - length groups) groups pool) in
  match lowerGroups groups with
  | Some sols => retO sols
  | None => throwO
  end.
End Builders.

(** ** The Gen 1 variant ([script.js]) *)

Module Script.
Definition GEN1 : list string := [
  "bulbasaur";"ivysaur";"venusaur";"charmander";"charmeleon";"charizard";"squirtle";"wartortle";"blastoise";
  "caterpie";"metapod";"butterfree";"weedle";"kakuna";"beedrill";"pidgey";"pidgeotto";"pidgeot";"rattata";"raticate";
  "pikachu";"raichu";"sandshrew";"sandslash";"nidoran-f";"nidorina";"nidoqueen";"nidoran-m";"nidorino";"nidoking";
  "clefairy";"clefable";"vulpix";"ninetales";"jigglypuff";"wigglytuff";"zubat";"golbat";"oddish";"gloom";"vileplume";
  "paras";"parasect";"venonat";"venomoth";"diglett";"dugtrio";"meowth";"persian";"psyduck";"golduck";"mankey";"primeape";
  "growlithe";"arcanine";"poliwag";"poliwhirl";"poliwrath";"abra";"kadabra";"alakazam";"machop";"machoke";"machamp";
  "bellsprout";"weepinbell";"victreebel";"tentacool";"tentacruel";"geodude";"graveler";"golem";"ponyta";"rapidash";
  "slowpoke";"slowbro";"magnemite";"magneton";"farfetchd";"doduo";"dodrio";"seel";"dewgong";"grimer";"muk";"shellder";
  "cloyster";"gastly";"haunter";"gengar";"onix";"drowzee";"hypno";"krabby";"kingler";"voltorb";"electrode";"exeggcute";
  "exeggutor";"cubone";"marowak";"hitmonlee";"hitmonchan";"lickitung";"koffing";"weezing";"rhyhorn";"rhydon";"chansey";
  "tangela";"kangaskhan";"horsea";"seadra";"goldeen";"seaking";"staryu";"starmie";"mr-mime";"scyther";"jynx";"electabuzz";
  "magmar";"pinsir";"tauros";"magikarp";"gyarados";"lapras";"ditto";"eevee";"vaporeon";"jolteon";"flareon";"porygon";
  "omanyte";"omastar";"kabuto";"kabutops";"aerodactyl";"snorlax";"articuno";"zapdos";"moltres";"dratini";"dragonair";
  "dragonite";"mewtwo";"mew"
].

Definition legendaryNames : list string :=
  ["articuno"; "zapdos"; "moltres"; "mewtwo"; "mew"].

Definition MSG_ERROR : string := "Error generating game. See console.".

(** [updateProgress()] in [script.js]: the script declares no function,
    variable or parameter of that name, so evaluating the call raises a
    ReferenceError.  [None] is that exception; none of the three globals
    is written. *)
Definition updateProgress (st : State) : option State := None.

(** [renderBoard()]: the board's elements are rebuilt from [cardData],
    each with its click listener, and then [updateProgress()] is called,
    so every call of [renderBoard] ends in the ReferenceError. *)
Definition renderBoard (st : State) : option State := updateProgress st.

(** [lockSelection()].  In the branch of a guess judged correct the cards
    are locked, the progress item is added, the status line is written and
    [solutions[gid]] is emptied; then [renderBoard()] raises, the promise
    of the [async] function is rejected, and [selected = []],
    [renderSelection()] and [checkWin()] are not run. *)
Definition lockSelection (st : State) : Verdict * State :=
  if negb (length (selected st) =? GROUP_SIZE) then
    (InvalidSelectionSize, setStatus MSG_INVALID_SIZE st)
  else
    match mapM (λ i, cardData st !! i) (selected st) with
    | None => (TypeError, st)
    | Some cards =>
        let names := map name cards in
        let groupIds := JS.Set_of (map (groupIndexOf (solutions st)) names) in
        match groupIds with
        | [gid] =>
            let st1 := setStatus MSG_CORRECT
                         (mkState (lockAll (selected st) (cardData st))
                                  (selected st) (solutions st) (status st)) in
            let st2 := mkState (cardData st1) (selected st1)
                               (clearGroup gid (solutions st1)) (status st1) in
            match renderBoard st2 with
            | Some st2' =>
                let st3 := renderSelection
                             (mkState (cardData st2') [] (solutions st2')
                                      (status st2')) in
                (Correct gid, checkWin st3)
            | None => (Correct gid, st2)
            end
        | _ => (Incorrect names, setStatus MSG_INCORRECT st)
        end
    end.

(** The player's commands in [script.js]: clicks, clears and reveals are
    the functions both variants share. *)
Definition step (st : State) (op : Op) : State :=
  match op with
  | Click idx => onCardClick idx st
  | Lock => (lockSelection st).2
  | Clear => clearSelection st
  | Reveal => revealAnswers st
  end.

Definition run (ops : list Op) (st : State) : State := foldl step st ops.

Section WithEnv.
Variable env : Env.

(** [fetchPokemonData(name)]: every failure inside the [try] block,
    of the first request or of the species request, ends in the
    [catch] and its record [{ name, types: [], is_legendary: false }]. *)
Definition fetchPokemonData (name : string) : M Meta :=
  λ w,
    match pokemonEndpoint env (net w) name with
    | None =>
        (mkMeta name [] None false None None,
         mkWorld (rnd w) (net w + 1) (poolCache w))
    | Some data =>
        let w' := mkWorld (rnd w) (net w + 2) (poolCache w) in
        match speciesEndpoint env (net w + 1) (p_species_url data) with
        | None => (mkMeta name [] None false None None, w')
        | Some sp =>
            (mkMeta name (p_types data) (Some (s_name sp))
                    (s_is_legendary sp) (s_generation sp)
                    (s_evolution_chain sp), w')
        end
    end.

(** [findSameTypeFiller(pool, referenceName, count)], which pops from
    the caller's pool: the pool it leaves is returned with the filler. *)
Definition findSameTypeFiller (pool : list string) (referenceName : string)
    (count : nat) : MO (list (option string) * list string) :=
  try! meta := lift (fetchPokemonData referenceName) in
  match primaryTypeName meta with
  | Some targetType =>
      if JS.truthy targetType then
        try! matches :=
          lift (fillerScan fetchPokemonData targetType count pool []) in
        match padFromTail count (Some <$> matches) pool with
        | Some r => retO r
        | None => λ _, Diverges
        end
      else
        try! s := lift (sampleArray env pool count) in
        retO (Some <$> s, pool)
  | None =>
      try! s := lift (sampleArray env pool count) in
      retO (Some <$> s, pool)
  end.

(** The [try] block of [startGame] up to the assignment of [cardData]. *)
Definition generate : MO State :=
  try! sols :=
    assemble env fetchPokemonData findSameTypeFiller legendaryNames GEN1 in
  lift (layBoard env fetchPokemonData sols).

(** [startGame()]: [resetState], the [try] block, and the [catch].  An
    exception raised while the groups are assembled finds the globals as
    [resetState] left them.  The one raised by [renderBoard()] comes when
    [solutions] and [cardData] are assigned and the board's elements are
    built; the [catch] takes it and writes the error status, and the
    statement that would announce the game is not run. *)
Definition startGame : MO State :=
  λ w, match generate w with
       | Returns st w' =>
           match renderBoard st with
           | Some st' => Returns (setStatus MSG_READY st') w'
           | None => Returns (setStatus MSG_ERROR st) w'
           end
       | Throws w' => Returns (mkState [] [] [] MSG_ERROR) w'
       | Diverges => Diverges
       end.
End WithEnv.
End Script.

(** ** The Gen 1-7 variant *)

Module Part001.
Definition MAX_GEN : nat := 7.

Definition candidateLegends : list string :=
  ["articuno"; "zapdos"; "moltres"; "mewtwo"; "mew"; "lugia"; "ho-oh";
   "suicune"; "entei"; "raikou"; "regirock"; "regice"; "registeel";
   "latias"; "latios"; "hoopa"; "zacian"; "zamazenta"].

Definition MSG_ERROR : string :=
  "Error generating game. See console for details.".

(** [while (matches.length < count && pool.length) { ... }] on the pool
    held as a stack. *)
Fixpoint padStackGuarded (count : nat) (matches : list string)
    (stk : list string) : list string * list string :=
  if count <=? length matches then (matches, stk)
  else
    match stk with
    | x :: stk' =>
        padStackGuarded count
          (if JS.includes matches x then matches else matches ++ [x]) stk'
    | [] => (matches, [])
    end.

Section WithEnv.
Variable env : Env.

(** The [for] loop of [getPoolForGens]; [n] generations remain, the
    next one is [g].  A response that is not [ok] is skipped, a
    rejected fetch leaves the loop through the [catch] around it.
    Species without a name are not pushed. *)
Fixpoint genLoop (n g : nat) (pool : list string) : M (list string) :=
  match n with
  | 0 => ret pool
  | S n' =>
      λ w,
        let w' := mkWorld (rnd w) (net w + 1) (poolCache w) in
        match generationEndpoint env (net w) g with
        | GenOk names =>
            genLoop n' (g + 1)
              (pool ++ (JS.toLowerCase <$> List.filter JS.truthy names)) w'
        | GenNotOk => genLoop n' (g + 1) pool w'
        | GenFailed => (pool, w')
        end
  end.

(** [getPoolForGens(fromGen, toGen)].  An empty cached array is truthy
    and is reused like any other. *)
Definition getPoolForGens (fromGen toGen : nat) : M (list string) :=
  λ w,
    match poolCache w with
    | Some cached => (cached, w)
    | None =>
        let (pool, w') := genLoop (toGen + 1 - fromGen) fromGen [] w in
        let unique := JS.Set_of pool in
        (unique, mkWorld (rnd w') (net w') (Some unique))
    end.

(** [fetchPokemonData(name)]: a failed species request keeps the types
    and yields [species = null]. *)
Definition fetchPokemonData (name : string) : M Meta :=
  λ w,
    match pokemonEndpoint env (net w) name with
    | None =>
        (mkMeta name [] None false None None,
         mkWorld (rnd w) (net w + 1) (poolCache w))
    | Some data =>
        let w' := mkWorld (rnd w) (net w + 2) (poolCache w) in
        match speciesEndpoint env (net w + 1) (p_species_url data) with
        | None => (mkMeta name (p_types data) None false None None, w')
        | Some sp =>
            (mkMeta name (p_types data) (Some (s_name sp))
                    (s_is_legendary sp) (s_generation sp)
                    (s_evolution_chain sp), w')
        end
    end.

(** [findSameTypeFiller(pool, referenceName, count)]. *)
Definition findSameTypeFiller (pool : list string) (referenceName : string)
    (count : nat) : MO (list (option string) * list string) :=
  try! meta := lift (fetchPokemonData referenceName) in
  match primaryTypeName meta with
  | Some targetType =>
      if JS.truthy targetType then
        try! matches :=
          lift (fillerScan fetchPokemonData targetType count pool []) in
        let (matches', stk) := padStackGuarded count matches (reverse pool) in
        retO (Some <$> matches', reverse stk)
      else
        try! s := lift (sampleArray env pool count) in
        retO (Some <$> s, pool)
  | None =>
      try! s := lift (sampleArray env pool count) in
      retO (Some <$> s, pool)
  end.

(** The [try] block of [startGame]; here [renderBoard()] returns. *)
Definition generate : MO State :=
  try! pool := lift (getPoolForGens 1 MAX_GEN) in
  if length pool <? MAX_BOARD then throwO
  else
    try! candidatePool := lift (shuffle env pool) in
    try! sols :=
      assemble env fetchPokemonData findSameTypeFiller candidateLegends
               candidatePool in
    lift (publish env fetchPokemonData sols).

Definition startGame : MO State :=
  λ w, match generate w with
       | Returns st w' => Returns st w'
       | Throws w' => Returns (mkState [] [] [] MSG_ERROR) w'
       | Diverges => Diverges
       end.
End WithEnv.
End Part001.

(** ** Vocabulary of the properties *)

(** One board is a later stage of another: same entries at the same
    positions, and whatever was locked is still locked. *)
Definition lock_mono (cs cs' : list Card) : Prop :=
  Forall2 (λ c c', name c' = name c ∧ metadata c' = metadata c ∧
                   groupId c' = groupId c ∧
                   (locked c = true → locked c' = true)) cs cs'.

(** A session state in play on a sound board: the identifiers on the
    board are distinct; an unlocked entry is still found in the solution
    group its [groupId] names; every solution group is either whole (four
    distinct identifiers) or already claimed (emptied); the selection
    holds distinct positions of unlocked entries. *)
Definition well_formed (st : State) : Prop :=
  NoDup (name <$> cardData st) ∧
  (∀ c, c ∈ cardData st → locked c = false →
        groupIndexOf (solutions st) (name c) = groupId c) ∧
  Forall (λ g, g = [] ∨ (length g = GROUP_SIZE ∧ NoDup g)) (solutions st) ∧
  NoDup (selected st) ∧
  Forall (λ i, ∃ c, cardData st !! i = Some c ∧ locked c = false) (selected st).

(** Where the assembly stands between two steps: the pool holds distinct
    identifiers, every group built so far has four members, none of them
    [undefined], and pool and groups together still account for a full
    board. *)
Definition stage (groups : list (list (option string))) (pool : list string)
    : Prop :=
  NoDup pool ∧
  MAX_BOARD ≤ GROUP_SIZE * length groups + length pool ∧
  Forall (λ g, length g = GROUP_SIZE ∧ Forall is_Some g) groups.

(** What the assembly relies on from a filler: asked for [count] members
    from a pool of distinct identifiers that holds at least that many, it
    returns exactly [count] identifiers, and whatever it took off the pool
    is among them. *)
Definition filler_contract
    (filler : list string → string → nat →
              MO (list (option string) * list string)) : Prop :=
  ∀ pool ref count w,
    NoDup pool → 1 ≤ count → count ≤ length pool →
    ∃ f pool' w',
      filler pool ref count w = Returns (f, pool') w' ∧
      length f = count ∧ Forall is_Some f ∧ NoDup pool' ∧
      (∀ x, x ∈ pool → x ∈ pool' ∨ Some x ∈ f).

(** ** Concrete sessions used to exercise the properties *)

Definition w0 : World := mkWorld 0 0 None.

(** A catalog that answers nothing at all. *)
Definition silent_env : Env :=
  mkEnv (λ k, 5 * k + 2) (λ _ _, None) (λ _ _, None) (λ _ _, GenFailed).

Definition demo_solutions : list (list string) :=
  [["bulbasaur"; "oddish"; "bellsprout"; "tangela"];
   ["charmander"; "vulpix"; "growlithe"; "ponyta"];
   ["squirtle"; "psyduck"; "poliwag"; "seel"];
   ["pikachu"; "voltorb"; "magnemite"; "electabuzz"]].

(** The board published for [demo_solutions]; its first group sits at
    positions 0, 1, 8 and 15. *)
Definition demo_published : State :=
  (publish silent_env (Script.fetchPokemonData silent_env) demo_solutions w0).1.

Definition demo_group_guess : State :=
  run [Click 0; Click 1; Click 8; Click 15] demo_published.

Definition demo_mixed_guess : State :=
  run [Click 0; Click 1; Click 2; Click 3] demo_published.

(** A catalog whose first generation lists sixteen species and whose
    per-item lookups all fail. *)
Definition gen16_env : Env :=
  mkEnv (λ k, 3 * k + 1) (λ _ _, None) (λ _ _, None)
        (λ _ g, if g =? 1 then GenOk (concat demo_solutions) else GenNotOk).

(** A catalog in which only the bulbasaur family can be looked up: three
    grass-type members of one evolution chain. *)
Definition grassFamily : list string := ["bulbasaur"; "ivysaur"; "venusaur"].

Definition sparse_env : Env :=
  mkEnv (λ k, 7 * k + 3)
        (λ _ n, if bool_decide (n ∈ grassFamily)
                then Some (mkPokemonData ["grass"; "poison"]
                                         ("pokemon-species/" +:+ n))
                else None)
        (λ _ url, Some (mkSpeciesData url false (Some "generation-i")
                                      (Some "evolution-chain/1")))
        (λ _ _, GenFailed).

(** The same catalog with a first generation of sixteen species, the
    bulbasaur family among them, for the Gen 1-7 variant. *)
Definition sparse16_env : Env :=
  mkEnv (random sparse_env) (pokemonEndpoint sparse_env)
        (speciesEndpoint sparse_env)
        (λ _ g, if g =? 1 then GenOk (take 16 Script.GEN1) else GenNotOk).

(** Four first-generation entries of four different types and families. *)
Definition gen1_starters : list Card :=
  [mkCard "charmander"
          (mkMeta "charmander" ["fire"] (Some "charmander") false
                  (Some "generation-i") (Some "evolution-chain/2")) 0 false;
   mkCard "squirtle"
          (mkMeta "squirtle" ["water"] (Some "squirtle") false
                  (Some "generation-i") (Some "evolution-chain/3")) 0 false;
   mkCard "bulbasaur"
          (mkMeta "bulbasaur" ["grass"; "poison"] (Some "bulbasaur") false
                  (Some "generation-i") (Some "evolution-chain/1")) 0 false;
   mkCard "pikachu"
          (mkMeta "pikachu" ["electric"] (Some "pikachu") false
                  (Some "generation-i") (Some "evolution-chain/10")) 0 false].

(** ** Further vocabulary *)

(** The selection as the click handler keeps it, on any board: distinct
    positions, at most four, each an unlocked entry of the board. *)
Definition selection_ok (st : State) : Prop :=
  NoDup (selected st) ∧
  length (selected st) ≤ GROUP_SIZE ∧
  Forall (λ i, ∃ c, cardData st !! i = Some c ∧ locked c = false) (selected st).

(** A catalog that knows every item's types but whose species requests
    all fail; its first generation lists sixteen species. *)
Definition outage_env : Env :=
  mkEnv (λ k, 7 * k + 3)
        (λ _ n, Some (mkPokemonData ["normal"] ("pokemon-species/" +:+ n)))
        (λ _ _, None)
        (λ _ g, if g =? 1 then GenOk (take 16 Script.GEN1) else GenNotOk).

(** The buckets a scan has filled so far: each is a sub-sequence of the
    items read, in their order, holds only items filed under its key, and
    is still short of [bound]. *)
Definition buckets_ok (P : string → string → Prop) (bound : nat)
    (seen : list string) (o : list (string * list string)) : Prop :=
  Forall (λ kv, kv.2 `sublist_of` seen ∧ Forall (P kv.1) kv.2 ∧
                length kv.2 < bound) o.

(** Where the assembly stands, seen from the candidate list [P]: the pool
    holds distinct members of [P]; the members of the groups built so far
    are members of [P] that have left the pool; no identifier is in two
    different groups. *)
Definition sourced (P : list string) (groups : list (list (option string)))
    (pool : list string) : Prop :=
  NoDup pool ∧ (∀ x, x ∈ pool → x ∈ P) ∧
  Forall (λ g, ∀ x, Some x ∈ g → x ∈ P ∧ x ∉ pool) groups ∧
  (∀ i j g h x, i ≠ j → groups !! i = Some g → groups !! j = Some h →
                Some x ∈ g → Some x ∉ h).

(** What the provenance of a board needs from a filler: its members come
    from the pool it was given, and the pool it leaves is a part of that
    pool. *)
Definition filler_sourced
    (filler : list string → string → nat →
              MO (list (option string) * list string)) : Prop :=
  ∀ pool ref count w f pool' w',
    NoDup pool → filler pool ref count w = Returns (f, pool') w' →
    (∀ x, Some x ∈ f → x ∈ pool) ∧ NoDup pool' ∧ (∀ x, x ∈ pool' → x ∈ pool).

(** The names of the entries whose [groupId] is [k], in board order, and
    the grouping of a board by the group ids [s], [s+1], ... that occur on
    it: the reference against which the reveal's [groupMap] is read. *)
Definition bucketOf (k : nat) (cards : list Card) : list string :=
  name <$> List.filter (λ c, (groupId c =? Z.of_nat k)%Z) cards.

Definition grouped (s len : nat) (cards : list Card) : list (Z * list string) :=
  omap (λ k, match bucketOf k cards with
             | [] => None
             | b => Some (Z.of_nat k, b)
             end) (seq s len).

(** [o[k] || []]: the bucket filed under [k], empty when there is none. *)
Fixpoint bucket_get (k : string) (o : list (string * list string))
    : list string :=
  match o with
  | [] => []
  | (k', ns) :: o' => if bool_decide (k' = k) then ns else bucket_get k o'
  end.

(** A sound state between two guesses in which the groups [0 .. m-1] and
    nothing else have been claimed: the selection is empty, only entries
    of those groups are locked, and four entries are locked per group. *)
Definition claimed_upto (m : nat) (st : State) : Prop :=
  well_formed st ∧ selected st = [] ∧
  (∀ c, c ∈ cardData st → locked c = true → (groupId c < Z.of_nat m)%Z) ∧
  length (List.filter locked (cardData st)) = GROUP_SIZE * m.

(** ** The hidden groups during a session *)

(** The hidden groups of a board as [startGame] assigns them: four entries
    each, and no identifier in two different groups.  (One group may name
    an identifier twice.) *)
Definition disjoint_groups (groups : list (list string)) : Prop :=
  Forall (λ g, length g = GROUP_SIZE) groups ∧
  ∀ i j g h x, i ≠ j → groups !! i = Some g → groups !! j = Some h →
               x ∈ g → x ∉ h.

(** What has become of the hidden group [g0] in [solutions]: it is still
    whole, or it was claimed and emptied, and then every entry of the
    board that bears one of its names is locked. *)
Definition group_state (cards : list Card) (g g0 : list string) : Prop :=
  g = g0 ∨ (g = [] ∧ ∀ c, c ∈ cards → name c ∈ g0 → locked c = true).

(** A session state on the board laid for the hidden groups [groups]: the
    board holds the entries of the groups, every group is whole or
    claimed, and no position is selected twice.  Neither [groupId] nor the
    index computation of the guess enters. *)
Definition in_play (groups : list (list string)) (st : State) : Prop :=
  disjoint_groups groups ∧
  name <$> cardData st ≡ₚ concat groups ∧
  Forall2 (group_state (cardData st)) (solutions st) groups ∧
  NoDup (selected st).

(** The state a start ends with. *)
Definition started (o : outcome State) : State :=
  match o with
  | Returns st _ => st
  | _ => mkState [] [] [] ""
  end.

(** What [startGame] of [script.js] leaves with the silent catalog and
    with the catalog that knows the bulbasaur family only.  On the first
    board the groups sit at the positions 0 6 7 14, 1 2 3 4, 5 8 13 15 and
    9 10 11 12; on the second the group that names bulbasaur twice sits at
    0, 2, 10 and 13. *)
Definition silent_started : State := started (Script.startGame silent_env w0).
Definition sparse_started : State := started (Script.startGame sparse_env w0).

(** Claiming the four groups of [silent_started] one after the other; in
    [script.js] the selection has to be cleared by hand after a claim. *)
Definition claim_all : list Op :=
  [Click 0; Click 6; Click 7; Click 14; Lock; Clear;
   Click 1; Click 2; Click 3; Click 4; Lock; Clear;
   Click 5; Click 8; Click 13; Click 15; Lock; Clear;
   Click 9; Click 10; Click 11; Click 12; Lock].

(** * Properties *)

(** ** Array primitives *)

Section ArrayFacts.
Context {A : Type} `{EqDecision A}.
Implicit Types (a : list A) (p : A → bool).

Lemma findIndex_range p a :
  (-1 ≤ JS.findIndex p a < Z.of_nat (length a))%Z.
Proof.
  induction a as [|x a IH]; simpl; [lia|].
  destruct (p x); [lia|].
  destruct (Z.ltb_spec (JS.findIndex p a) 0); lia.
Qed.

Lemma findIndex_absent p a :
  (JS.findIndex p a < 0)%Z ↔ ∀ x, x ∈ a → p x = false.
Proof.
  induction a as [|x a IH]; simpl.
  - split; [intros _ y Hy; inversion Hy | lia].
  - destruct (p x) eqn:Hpx.
    + split; [lia|]. intros H. specialize (H x (list_elem_of_here _ _)). congruence.
    + pose proof (findIndex_range p a) as Hr.
      destruct (Z.ltb_spec (JS.findIndex p a) 0) as [Hlt|Hge].
      * split; [|lia]. intros _ y Hy.
        apply elem_of_cons in Hy as [->|Hy]; [done|]. by apply IH.
      * split; [lia|]. intros H.
        assert (JS.findIndex p a < 0)%Z; [|lia].
        apply IH. intros y Hy. apply H. by right.
Qed.

Lemma findIndex_found p a k :
  JS.findIndex p a = Z.of_nat k →
  ∃ x, a !! k = Some x ∧ p x = true ∧
       ∀ j y, j < k → a !! j = Some y → p y = false.
Proof.
  revert k. induction a as [|x a IH]; intros k; simpl; [lia|].
  destruct (p x) eqn:Hpx.
  - intros Hk. assert (k = 0) as -> by lia.
    exists x. split_and!; [done|done|]. intros; lia.
  - destruct (Z.ltb_spec (JS.findIndex p a) 0) as [Hlt|Hge]; [lia|].
    intros Hk. destruct k as [|k]; [lia|].
    destruct (IH k) as (y & Hy & Hpy & Hmin); [lia|].
    exists y. split_and!; [done|done|].
    intros [|j] z Hj Hz; simpl in Hz; [by simplify_eq|].
    eapply Hmin; [|done]. lia.
Qed.


Lemma indexOf_absent a x : (JS.indexOf a x < 0)%Z ↔ x ∉ a.
Proof.
  unfold JS.indexOf. rewrite findIndex_absent. split.
  - intros H Hx. specialize (H x Hx). by rewrite bool_decide_eq_false in H.
  - intros H y Hy. apply bool_decide_eq_false. by intros ->.
Qed.

Lemma indexOf_found a x k :
  JS.indexOf a x = Z.of_nat k → a !! k = Some x.
Proof.
  intros H. apply findIndex_found in H as (y & Hy & Hp & _).
  apply bool_decide_eq_true in Hp. by subst.
Qed.

Lemma includes_true a x : JS.includes a x = true ↔ x ∈ a.
Proof. apply bool_decide_eq_true. Qed.

Lemma includes_false a x : JS.includes a x = false ↔ x ∉ a.
Proof. apply bool_decide_eq_false. Qed.

(** [new Set(a)] holds exactly the elements of [a], each once. *)
Lemma Set_of_acc_elem (acc a : list A) x :
  x ∈ foldl (λ acc x, if JS.includes acc x then acc else acc ++ [x]) acc a
  ↔ x ∈ acc ∨ x ∈ a.
Proof.
  revert acc. induction a as [|y a IH]; intros acc; simpl.
  - rewrite elem_of_nil. tauto.
  - rewrite IH, elem_of_cons. destruct (JS.includes acc y) eqn:Hy.
    + apply includes_true in Hy. split; [tauto|].
      intros [?|[->|?]]; tauto.
    + rewrite elem_of_app, list_elem_of_singleton. tauto.
Qed.

Lemma Set_of_acc_NoDup (acc a : list A) :
  NoDup acc →
  NoDup (foldl (λ acc x, if JS.includes acc x then acc else acc ++ [x]) acc a).
Proof.
  revert acc. induction a as [|y a IH]; intros acc Hacc; simpl; [done|].
  apply IH. destruct (JS.includes acc y) eqn:Hy; [done|].
  apply includes_false in Hy. apply NoDup_app. split_and!; [done| |].
  - intros z Hz Hz'. apply list_elem_of_singleton in Hz'. by subst.
  - apply NoDup_singleton.
Qed.

Lemma Set_of_elem a x : x ∈ JS.Set_of a ↔ x ∈ a.
Proof.
  unfold JS.Set_of. rewrite Set_of_acc_elem, elem_of_nil. tauto.
Qed.

Lemma Set_of_NoDup a : NoDup (JS.Set_of a).
Proof. apply Set_of_acc_NoDup, NoDup_nil_2. Qed.

(** The set has size one exactly when the array is not empty and all its
    elements are the same. *)
Lemma Set_of_singleton a x :
  JS.Set_of a = [x] ↔ a ≠ [] ∧ Forall (λ y, y = x) a.
Proof.
  split.
  - intros Hs. split.
    + intros ->. discriminate Hs.
    + apply Forall_forall. intros y Hy.
      apply Set_of_elem in Hy. rewrite Hs in Hy.
      by apply list_elem_of_singleton in Hy.
  - intros [Hne Hall]. rewrite Forall_forall in Hall.
    pose proof (Set_of_NoDup a) as Hnd.
    assert (∀ y, y ∈ JS.Set_of a → y = x) as Hin.
    { intros y Hy. apply Hall. by apply Set_of_elem. }
    assert (x ∈ JS.Set_of a) as Hx.
    { apply Set_of_elem. destruct a as [|y a]; [done|].
      rewrite (Hall y); [left|left]. }
    destruct (JS.Set_of a) as [|y [|z s]].
    + inversion Hx.
    + by rewrite (Hin y (list_elem_of_here _ _)).
    + rewrite (Hin y), (Hin z) in Hnd;
        [|right; left|left]. 
      apply NoDup_cons in Hnd as [Hnd _]. exfalso. apply Hnd. left.
Qed.
End ArrayFacts.

(** ** Selection and locking *)

Lemma lockAll_lookup (sel : list nat) (cards : list Card) (i : nat) :
  lockAll sel cards !! i =
  (λ c, if bool_decide (i ∈ sel) then lockCard c else c) <$> cards !! i.
Proof.
  unfold lockAll. revert cards.
  induction sel as [|j sel IH]; intros cards; simpl.
  - destruct (cards !! i); reflexivity.
  - rewrite IH. destruct (decide (i = j)) as [->|Hne].
    + rewrite list_lookup_alter_eq.
      rewrite (bool_decide_eq_true_2 (j ∈ j :: sel)); [|apply elem_of_cons; by left].
      destruct (cards !! j) as [c|]; simpl; [|done].
      by destruct (bool_decide (j ∈ sel)).
    + rewrite list_lookup_alter_ne; [|done].
      destruct (cards !! i) as [c|]; simpl; [|done].
      destruct (bool_decide_reflect (i ∈ sel)) as [Hin|Hnin].
      * rewrite bool_decide_eq_true_2; [done|apply elem_of_cons; by right].
      * rewrite bool_decide_eq_false_2; [done|].
        rewrite elem_of_cons. tauto.
Qed.

Lemma lockAll_length (sel : list nat) (cards : list Card) :
  length (lockAll sel cards) = length cards.
Proof.
  unfold lockAll. revert cards.
  induction sel as [|j sel IH]; intros cards; simpl; [done|].
  by rewrite IH, length_alter.
Qed.

Lemma lock_mono_refl cs : lock_mono cs cs.
Proof. apply Forall_Forall2_diag, Forall_forall. intros; tauto. Qed.

Lemma lock_mono_trans cs1 cs2 cs3 :
  lock_mono cs1 cs2 → lock_mono cs2 cs3 → lock_mono cs1 cs3.
Proof.
  unfold lock_mono. intros H12 H23.
  eapply Forall2_trans; [|exact H12|exact H23].
  simpl. intros c1 c2 c3 (?&?&?&?) (?&?&?&?).
  split_and!; try congruence. auto.
Qed.

Lemma lock_mono_lockAll sel cs : lock_mono cs (lockAll sel cs).
Proof.
  apply Forall2_same_length_lookup. split.
  - by rewrite lockAll_length.
  - intros i c c' Hc Hc'. rewrite lockAll_lookup, Hc in Hc'. simpl in Hc'.
    simplify_eq. destruct (bool_decide (i ∈ sel)); simpl; tauto.
Qed.

Lemma checkWin_cardData st : cardData (checkWin st) = cardData st.
Proof. unfold checkWin. by destruct (_ =? _). Qed.

Lemma checkWin_selected st : selected (checkWin st) = selected st.
Proof. unfold checkWin. by destruct (_ =? _). Qed.

Lemma checkWin_solutions st : solutions (checkWin st) = solutions st.
Proof. unfold checkWin. by destruct (_ =? _). Qed.

Lemma onCardClick_cardData idx st : cardData (onCardClick idx st) = cardData st.
Proof.
  unfold onCardClick. destruct (cardData st !! idx) as [c|]; [|done].
  destruct (locked c); [done|].
  destruct (0 <=? _)%Z; [done|]. by destruct (GROUP_SIZE <=? _).
Qed.

Lemma onCardClick_solutions idx st : solutions (onCardClick idx st) = solutions st.
Proof.
  unfold onCardClick. destruct (cardData st !! idx) as [c|]; [|done].
  destruct (locked c); [done|].
  destruct (0 <=? _)%Z; [done|]. by destruct (GROUP_SIZE <=? _).
Qed.

(** The three shapes of a [lockSelection] run. *)
Lemma lockSelection_cases st :
  (length (selected st) ≠ GROUP_SIZE ∧
   lockSelection st = (InvalidSelectionSize, setStatus MSG_INVALID_SIZE st)) ∨
  (length (selected st) = GROUP_SIZE ∧
   mapM (λ i, cardData st !! i) (selected st) = None ∧
   lockSelection st = (TypeError, st)) ∨
  (∃ cards,
     length (selected st) = GROUP_SIZE ∧
     mapM (λ i, cardData st !! i) (selected st) = Some cards ∧
     ((∃ gid,
         JS.Set_of (groupIndexOf (solutions st) <$> (name <$> cards)) = [gid] ∧
         lockSelection st =
           (Correct gid,
            checkWin (mkState (lockAll (selected st) (cardData st)) []
                              (clearGroup gid (solutions st)) MSG_CORRECT))) ∨
      (length (JS.Set_of (groupIndexOf (solutions st) <$> (name <$> cards))) ≠ 1 ∧
       lockSelection st = (Incorrect (name <$> cards), setStatus MSG_INCORRECT st)))).
Proof.
  unfold lockSelection.
  destruct (Nat.eqb_spec (length (selected st)) GROUP_SIZE) as [Hlen|Hlen]; simpl.
  - right. destruct (mapM _ _) as [cards|] eqn:Hm.
    + right. exists cards. split_and!; [done|done|].
      destruct (JS.Set_of _) as [|gid [|gid' s]] eqn:Hs; simpl.
      * right. by split.
      * left. by exists gid.
      * right. by split.
    + left. by split_and!.
  - left. by split.
Qed.

Lemma lockSelection_mono st : lock_mono (cardData st) (cardData (lockSelection st).2).
Proof.
  destruct (lockSelection_cases st)
    as [[_ ->]|[(_&_&->)|(cards&_&_&[(gid&_&->)|[_ ->]])]]; simpl;
    try apply lock_mono_refl.
  rewrite checkWin_cardData. apply lock_mono_lockAll.
Qed.

Lemma step_mono st op : lock_mono (cardData st) (cardData (step st op)).
Proof.
  destruct op; simpl.
  - rewrite onCardClick_cardData. apply lock_mono_refl.
  - apply lockSelection_mono.
  - apply lock_mono_refl.
  - apply lock_mono_refl.
Qed.

Lemma run_mono ops st : lock_mono (cardData st) (cardData (run ops st)).
Proof.
  unfold run. revert st. induction ops as [|op ops IH]; intros st; simpl.
  - apply lock_mono_refl.
  - eapply lock_mono_trans; [apply step_mono|apply IH].
Qed.

(** The three shapes of a [lockSelection] run in [script.js]. *)
Lemma script_lockSelection_cases st :
  (length (selected st) ≠ GROUP_SIZE ∧
   Script.lockSelection st = (InvalidSelectionSize, setStatus MSG_INVALID_SIZE st)) ∨
  (length (selected st) = GROUP_SIZE ∧
   mapM (λ i, cardData st !! i) (selected st) = None ∧
   Script.lockSelection st = (TypeError, st)) ∨
  (∃ cards,
     length (selected st) = GROUP_SIZE ∧
     mapM (λ i, cardData st !! i) (selected st) = Some cards ∧
     ((∃ gid,
         JS.Set_of (groupIndexOf (solutions st) <$> (name <$> cards)) = [gid] ∧
         Script.lockSelection st =
           (Correct gid,
            mkState (lockAll (selected st) (cardData st)) (selected st)
                    (clearGroup gid (solutions st)) MSG_CORRECT)) ∨
      (length (JS.Set_of (groupIndexOf (solutions st) <$> (name <$> cards))) ≠ 1 ∧
       Script.lockSelection st =
         (Incorrect (name <$> cards), setStatus MSG_INCORRECT st)))).
Proof.
  unfold Script.lockSelection, Script.renderBoard, Script.updateProgress.
  destruct (Nat.eqb_spec (length (selected st)) GROUP_SIZE) as [Hlen|Hlen]; simpl.
  - right. destruct (mapM _ _) as [cards|] eqn:Hm.
    + right. exists cards. split_and!; [done|done|].
      destruct (JS.Set_of _) as [|gid [|gid' s]] eqn:Hs; simpl.
      * right. by split.
      * left. by exists gid.
      * right. by split.
    + left. by split_and!.
  - left. by split.
Qed.

(** Up to the call of [renderBoard()] the two variants do the same: they
    give the same verdict and leave the same board and the same groups. *)
Lemma script_guess_agrees st :
  (Script.lockSelection st).1 = (lockSelection st).1 ∧
  cardData (Script.lockSelection st).2 = cardData (lockSelection st).2 ∧
  solutions (Script.lockSelection st).2 = solutions (lockSelection st).2.
Proof.
  destruct (lockSelection_cases st)
    as [[Hl ->]|[(Hl&Hm&->)|(cards&Hl&Hm&[(gid&Hs&->)|[Hs ->]])]];
    destruct (script_lockSelection_cases st)
      as [[Hl' ->]|[(Hl'&Hm'&->)|(cards'&Hl'&Hm'&[(gid'&Hs'&->)|[Hs' ->]])]];
    try done; try congruence;
    (assert (cards' = cards) as -> by congruence).
  - assert (gid' = gid) as -> by congruence.
    simpl. by rewrite checkWin_cardData, checkWin_solutions.
  - exfalso. apply Hs'. by rewrite Hs.
  - exfalso. apply Hs. by rewrite Hs'.
  - done.
Qed.

Lemma script_lockSelection_mono st :
  lock_mono (cardData st) (cardData (Script.lockSelection st).2).
Proof.
  destruct (script_guess_agrees st) as (_ & -> & _). apply lockSelection_mono.
Qed.

Lemma script_step_mono st op : lock_mono (cardData st) (cardData (Script.step st op)).
Proof.
  destruct op; simpl.
  - rewrite onCardClick_cardData. apply lock_mono_refl.
  - apply script_lockSelection_mono.
  - apply lock_mono_refl.
  - apply lock_mono_refl.
Qed.

Lemma script_run_mono ops st : lock_mono (cardData st) (cardData (Script.run ops st)).
Proof.
  unfold Script.run. revert st. induction ops as [|op ops IH]; intros st; simpl.
  - apply lock_mono_refl.
  - eapply lock_mono_trans; [apply script_step_mono|apply IH].
Qed.

(** C10. Within a session, whatever sequence of card clicks, guess
    submissions, clears and reveals is run, an entry that is locked stays
    locked (and stays the same entry at the same position): lock flags only
    ever go from false to true.  This holds of the commands of the Gen 1-7
    variant and of those of [script.js], whose guess writes the lock flags
    before [renderBoard()] raises. *)
Theorem lock_flags_never_revert (ops : list Op) (st : State) (i : nat) (c : Card) :
  cardData st !! i = Some c →
  locked c = true →
  (∃ c', cardData (run ops st) !! i = Some c' ∧
         locked c' = true ∧ name c' = name c ∧ groupId c' = groupId c) ∧
  (∃ c', cardData (Script.run ops st) !! i = Some c' ∧
         locked c' = true ∧ name c' = name c ∧ groupId c' = groupId c).
Proof.
  intros Hc Hl. split.
  - destruct (Forall2_lookup_l _ _ _ _ _ (run_mono ops st) Hc)
      as (c' & Hc' & Hn & _ & Hg & Hk).
    exists c'. split_and!; auto.
  - destruct (Forall2_lookup_l _ _ _ _ _ (script_run_mono ops st) Hc)
      as (c' & Hc' & Hn & _ & Hg & Hk).
    exists c'. split_and!; auto.
Qed.

(** C7. On a board entry that is locked a click changes nothing, whatever
    the selection; on an unlocked entry that is not selected, while four
    positions are selected, the click is refused: the status line reports
    the full selection and the four selected positions (and everything
    else) stay as they were. *)
Theorem click_refused_when_full_or_locked (st : State) (idx : nat) (card : Card) :
  cardData st !! idx = Some card →
  (locked card = true → onCardClick idx st = st) ∧
  (locked card = false →
   length (selected st) = GROUP_SIZE →
   idx ∉ selected st →
   onCardClick idx st = setStatus MSG_SELECTION_FULL st ∧
   selected (onCardClick idx st) = selected st).
Proof.
  intros Hc. unfold onCardClick. rewrite Hc. split.
  - by intros ->.
  - intros -> Hlen Hnin.
    apply indexOf_absent in Hnin.
    destruct (Z.leb_spec 0 (JS.indexOf (selected st) idx)); [lia|].
    rewrite Hlen. by simpl.
Qed.

Lemma filter_length_all {A} (f : A → bool) (l : list A) :
  length (List.filter f l) ≤ length l ∧
  (length (List.filter f l) = length l ↔ Forall (λ x, f x = true) l).
Proof.
  induction l as [|x l [IHle IHeq]]; simpl.
  - split; [lia|]. split; [constructor|done].
  - destruct (f x) eqn:Hfx; simpl.
    + split; [lia|]. rewrite Forall_cons. split.
      * intros H. split; [done|]. apply IHeq. lia.
      * intros [_ H]. f_equal. by apply IHeq.
    + split; [lia|]. rewrite Forall_cons. split; [lia|].
      intros [H _]. congruence.
Qed.

Lemma checkWin_won_iff (st : State) :
  length (cardData st) = MAX_BOARD →
  status st ≠ MSG_WON →
  (status (checkWin st) = MSG_WON ↔ Forall (λ c, locked c = true) (cardData st)).
Proof.
  intros Hlen Hst. unfold checkWin.
  destruct (filter_length_all locked (cardData st)) as [_ Hall].
  rewrite Hlen in Hall.
  destruct (Nat.eqb_spec (length (List.filter locked (cardData st))) MAX_BOARD)
    as [Heq|Hne]; simpl.
  - split; [|done]. intros _. by apply Hall.
  - split; [done|]. intros H. by apply Hall in H.
Qed.

Lemma onCardClick_status idx st :
  status (onCardClick idx st) = status st ∨
  status (onCardClick idx st) = MSG_SELECTION_FULL.
Proof.
  unfold onCardClick. destruct (cardData st !! idx) as [c|]; [|by left].
  destruct (locked c); [by left|].
  destruct (0 <=? _)%Z; [by left|].
  destruct (GROUP_SIZE <=? length (selected st)); [by right|by left].
Qed.

(** Once the status is the won one, it can only be because all entries
    are locked: no command reaches it otherwise. *)
Lemma won_status_step st op :
  length (cardData st) = MAX_BOARD →
  (status st = MSG_WON → Forall (λ c, locked c = true) (cardData st)) →
  length (cardData (step st op)) = MAX_BOARD ∧
  (status (step st op) = MSG_WON →
   Forall (λ c, locked c = true) (cardData (step st op))).
Proof.
  intros Hlen Hinv. split.
  { pose proof (step_mono st op) as Hm. apply Forall2_length in Hm. lia. }
  destruct op; simpl.
  - rewrite onCardClick_cardData.
    destruct (onCardClick_status idx st) as [->| ->]; [done|discriminate].
  - destruct (lockSelection_cases st)
      as [[_ ->]|[(_&_&->)|(cards&_&_&[(gid&_&->)|[_ ->]])]]; simpl;
      [discriminate|done| |discriminate].
    rewrite checkWin_cardData. apply checkWin_won_iff; simpl.
    + by rewrite lockAll_length.
    + discriminate.
  - discriminate.
  - discriminate.
Qed.

Lemma won_status_run ops st :
  length (cardData st) = MAX_BOARD →
  (status st = MSG_WON → Forall (λ c, locked c = true) (cardData st)) →
  status (run ops st) = MSG_WON →
  Forall (λ c, locked c = true) (cardData (run ops st)).
Proof.
  unfold run. revert st. induction ops as [|op ops IH]; intros st Hlen Hinv;
    simpl; [done|].
  destruct (won_status_step st op Hlen Hinv) as [Hlen' Hinv']. by apply IH.
Qed.

(** The win test, and the win in the Gen 1-7 variant.  On a board of
    sixteen entries, [checkWin] moves the session to the won status
    exactly when all sixteen entries are locked; with fifteen locked it
    changes nothing; in the Gen 1-7 variant a guess judged correct ends in
    the won status exactly when it leaves all sixteen entries locked; and
    however the session goes on there, it is in the won status only with
    all sixteen entries locked. *)
Lemma won_iff_all_sixteen_locked (st : State) :
  length (cardData st) = MAX_BOARD →
  status st ≠ MSG_WON →
  (status (checkWin st) = MSG_WON ↔ Forall (λ c, locked c = true) (cardData st)) ∧
  (length (List.filter locked (cardData st)) = 15 → checkWin st = st) ∧
  (∀ gid st', lockSelection st = (Correct gid, st') →
     (status st' = MSG_WON ↔ Forall (λ c, locked c = true) (cardData st'))) ∧
  (∀ ops, status (run ops st) = MSG_WON →
          Forall (λ c, locked c = true) (cardData (run ops st))).
Proof.
  intros Hlen Hst. split_and!.
  - by apply checkWin_won_iff.
  - intros H15. unfold checkWin. by rewrite H15.
  - intros gid st' Hlock.
    destruct (lockSelection_cases st)
      as [[_ Heq]|[(_&_&Heq)|(cards&_&_&[(gid'&_&Heq)|[_ Heq]])]];
      rewrite Heq in Hlock; simplify_eq.
    rewrite checkWin_cardData. apply checkWin_won_iff; simpl.
    + by rewrite lockAll_length.
    + discriminate.
  - intros ops. by apply won_status_run.
Qed.

Lemma onCardClick_locked (st : State) (idx : nat) (c : Card) :
  cardData st !! idx = Some c → locked c = true → onCardClick idx st = st.
Proof. intros Hc Hl. unfold onCardClick. by rewrite Hc, Hl. Qed.

Lemma clicks_on_locked (s : State) (sel : list nat) :
  Forall (λ i, ∃ c, cardData s !! i = Some c ∧ locked c = true) sel →
  foldl (λ s i, onCardClick i s) s sel = s.
Proof.
  induction sel as [|i sel IH]; simpl; [done|].
  intros [(c & Hc & Hl) Hrest]%Forall_cons.
  rewrite (onCardClick_locked s i c Hc Hl). by apply IH.
Qed.

Lemma correct_locks_selected (st st' : State) (gid : Z) :
  lockSelection st = (Correct gid, st') →
  Forall (λ i, ∃ c, cardData st' !! i = Some c ∧ locked c = true) (selected st) ∧
  selected st' = [].
Proof.
  intros Hlock.
  destruct (lockSelection_cases st)
    as [[_ Heq]|[(_&_&Heq)|(cards&_&Hm&[(gid'&_&Heq)|[_ Heq]])]];
    rewrite Heq in Hlock; simplify_eq.
  split; [|by rewrite checkWin_selected].
  apply Forall_forall. intros i Hi.
  apply mapM_Some in Hm.
  destruct (list_elem_of_lookup_1 _ _ Hi) as [k Hk].
  destruct (Forall2_lookup_l _ _ _ _ _ Hm Hk) as (c & _ & Hc).
  exists (lockCard c). split; [|done].
  rewrite checkWin_cardData. simpl.
  rewrite lockAll_lookup, Hc. simpl.
  by rewrite bool_decide_eq_true_2.
Qed.

(** A second submission in the Gen 1-7 variant.  After a guess has been
    judged correct, its four entries are locked and the selection is
    empty; clicking the same four positions again changes nothing, because
    each click is dropped on the lock; and a submission made then is
    turned away for its size, without the groups being consulted: it is
    not judged incorrect. *)
Lemma resubmission_stopped_by_locks (st st' : State) (gid : Z) :
  lockSelection st = (Correct gid, st') →
  Forall (λ i, ∃ c, cardData st' !! i = Some c ∧ locked c = true) (selected st) ∧
  selected st' = [] ∧
  foldl (λ s i, onCardClick i s) st' (selected st) = st' ∧
  lockSelection (foldl (λ s i, onCardClick i s) st' (selected st)) =
    (InvalidSelectionSize, setStatus MSG_INVALID_SIZE st').
Proof.
  intros Hlock.
  destruct (correct_locks_selected st st' gid Hlock) as [Hlocked Hsel].
  pose proof (clicks_on_locked st' (selected st) Hlocked) as Hfold.
  split_and!; [done|done|done|].
  rewrite Hfold. unfold lockSelection. by rewrite Hsel.
Qed.

(** ** Sound boards stay sound *)

Lemma lock_mono_names cs cs' : lock_mono cs cs' → name <$> cs' = name <$> cs.
Proof.
  induction 1 as [|c c' cs cs' (Hn&_) _ IH]; [done|].
  by rewrite !fmap_cons, Hn, IH.
Qed.

Lemma lockAll_names sel cs : name <$> lockAll sel cs = name <$> cs.
Proof. apply lock_mono_names, lock_mono_lockAll. Qed.

Lemma findIndex_insert_false {A} (p : A → bool) (a : list A) (k : nat) (x : A) :
  p x = false →
  (∀ y, a !! k = Some y → p y = false) →
  JS.findIndex p (<[k := x]> a) = JS.findIndex p a.
Proof.
  intros Hx. revert k. induction a as [|z a IH]; intros k Hk; [done|].
  destruct k as [|k]; simpl.
  - by rewrite Hx, (Hk z).
  - rewrite (IH k); [done|]. intros y Hy. by apply Hk.
Qed.

Lemma groupIndexOf_clearGroup sols gid n :
  ((0 ≤ gid)%Z → ∀ g, sols !! Z.to_nat gid = Some g → n ∉ g) →
  groupIndexOf (clearGroup gid sols) n = groupIndexOf sols n.
Proof.
  intros Hg. unfold clearGroup, groupIndexOf.
  destruct (Z.leb_spec 0 gid) as [Hge|]; [|done].
  apply findIndex_insert_false.
  - apply includes_false, not_elem_of_nil.
  - intros g Hgk. by apply includes_false, Hg.
Qed.

Lemma groupIndexOf_found sols n k :
  groupIndexOf sols n = Z.of_nat k → ∃ g, sols !! k = Some g ∧ n ∈ g.
Proof.
  intros H. apply findIndex_found in H as (g & Hg & Hin & _).
  exists g. split; [done|]. by apply includes_true.
Qed.

Lemma well_formed_click idx st : well_formed st → well_formed (onCardClick idx st).
Proof.
  intros (Hn & Hg & Hs & Hnd & Hsel).
  unfold well_formed.
  rewrite onCardClick_cardData, onCardClick_solutions.
  split_and!; [done|done|done| |].
  - unfold onCardClick. destruct (cardData st !! idx) as [c|]; [|done].
    destruct (locked c); [done|].
    destruct (Z.leb_spec 0 (JS.indexOf (selected st) idx)) as [Hge|Hlt].
    + eapply sublist_NoDup; [exact Hnd|apply sublist_delete].
    + destruct (GROUP_SIZE <=? length (selected st)); simpl; [exact Hnd|].
      apply NoDup_app. split_and!; [done| |apply NoDup_singleton].
      intros x Hx ->%list_elem_of_singleton.
      by apply indexOf_absent in Hlt.
  - unfold onCardClick. destruct (cardData st !! idx) as [c|] eqn:Hc; [|done].
    destruct (locked c) eqn:Hl; [done|].
    destruct (0 <=? _)%Z.
    + by apply Forall_delete.
    + destruct (GROUP_SIZE <=? length (selected st)); simpl; [exact Hsel|].
      apply Forall_app. split; [done|].
      apply Forall_singleton. by exists c.
Qed.

(** The selected entries of a sound state, as [lockSelection] reads them. *)
Lemma well_formed_selected_cards st :
  well_formed st →
  ∃ cards, mapM (λ i, cardData st !! i) (selected st) = Some cards ∧
           NoDup (name <$> cards) ∧
           Forall (λ c, c ∈ cardData st ∧ locked c = false) cards ∧
           groupIndexOf (solutions st) <$> (name <$> cards) = groupId <$> cards.
Proof.
  intros (Hn & Hg & _ & Hnd & Hsel).
  induction (selected st) as [|i sel IH].
  - exists []. split_and!; [done|constructor|constructor|done].
  - apply NoDup_cons in Hnd as [Hi Hnd].
    apply Forall_cons in Hsel as [(c & Hc & Hl) Hsel].
    destruct (IH Hnd Hsel) as (cards & Hm & Hnc & Hall & Hidx).
    exists (c :: cards). split_and!.
    + rewrite mapM_Some. constructor; [done|]. by apply mapM_Some.
    + rewrite fmap_cons. apply NoDup_cons. split; [|done].
      intros Hin. apply list_elem_of_fmap in Hin as (c' & Heq & Hc').
      apply mapM_Some in Hm.
      destruct (list_elem_of_lookup_1 _ _ Hc') as [k Hk].
      destruct (Forall2_lookup_r _ _ _ _ _ Hm Hk) as (j & Hj & Hcj).
      assert (i = j) as ->.
      { eapply (NoDup_lookup (name <$> cardData st)); [done| |].
        - by rewrite list_lookup_fmap, Hc.
        - by rewrite list_lookup_fmap, Hcj, Heq. }
      apply Hi. by eapply list_elem_of_lookup_2.
    + constructor; [|done]. split; [|done]. by eapply list_elem_of_lookup_2.
    + rewrite !fmap_cons, Hidx. f_equal. apply Hg; [|done].
      by eapply list_elem_of_lookup_2.
Qed.

Lemma well_formed_ext st st' :
  cardData st' = cardData st → selected st' = selected st →
  solutions st' = solutions st → well_formed st → well_formed st'.
Proof. unfold well_formed. by intros -> -> ->. Qed.

(** A correct guess claims a whole group: the four selected identifiers
    are all there is in the group they were found in. *)
Lemma claimed_group_exhausted st cards gid g :
  well_formed st →
  length (selected st) = GROUP_SIZE →
  mapM (λ i, cardData st !! i) (selected st) = Some cards →
  JS.Set_of (groupIndexOf (solutions st) <$> (name <$> cards)) = [gid] →
  (0 ≤ gid)%Z →
  solutions st !! Z.to_nat gid = Some g →
  ∀ n, n ∈ g → n ∈ name <$> cards.
Proof.
  intros Hwf Hlen Hm Hset Hge Hg.
  destruct (well_formed_selected_cards st Hwf) as (cards' & Hm' & Hnd & _ & _).
  assert (cards' = cards) as -> by congruence.
  assert (length cards = GROUP_SIZE) as Hlc.
  { apply mapM_Some, Forall2_length in Hm. lia. }
  apply Set_of_singleton in Hset as [_ Hall]. rewrite Forall_forall in Hall.
  assert (∀ n, n ∈ name <$> cards → n ∈ g) as Hsub.
  { intros n Hn.
    assert (groupIndexOf (solutions st) n = gid) as Hidx.
    { apply Hall. by apply list_elem_of_fmap_2. }
    rewrite <- (Z2Nat.id gid Hge) in Hidx.
    apply groupIndexOf_found in Hidx as (g' & Hg' & Hin). by simplify_eq. }
  destruct Hwf as (_ & _ & Hsols & _ & _).
  rewrite Forall_forall in Hsols.
  destruct (Hsols g) as [->|[Hlg Hndg]].
  { by eapply list_elem_of_lookup_2. }
  { destruct cards as [|c cards]; [done|].
    specialize (Hsub (name c)). rewrite fmap_cons in Hsub.
    exfalso. eapply not_elem_of_nil, Hsub. apply elem_of_cons. by left. }
  assert (name <$> cards ≡ₚ g) as Hperm.
  { apply submseteq_length_Permutation.
    - by apply NoDup_submseteq.
    - rewrite length_fmap. lia. }
  intros n Hn. by rewrite Hperm.
Qed.

Lemma well_formed_lock st : well_formed st → well_formed (lockSelection st).2.
Proof.
  intros Hwf.
  destruct (lockSelection_cases st)
    as [[_ ->]|[(_&_&->)|(cards&Hlen&Hm&[(gid&Hset&->)|[_ ->]])]]; simpl;
    try done.
  eapply well_formed_ext;
    [apply checkWin_cardData|apply checkWin_selected|apply checkWin_solutions|].
  pose proof (λ g, claimed_group_exhausted st cards gid g Hwf Hlen Hm Hset)
    as Hclaim.
  pose proof Hwf as (Hn & Hg & Hs & Hnd & Hsel).
  unfold well_formed; simpl. split_and!.
  - by rewrite lockAll_names.
  - intros c' Hc' Hl.
    destruct (list_elem_of_lookup_1 _ _ Hc') as [j Hj].
    rewrite lockAll_lookup in Hj.
    destruct (cardData st !! j) as [c|] eqn:Hc; [|done]. simpl in Hj.
    destruct (bool_decide_reflect (j ∈ selected st)) as [Hin|Hnin];
      simplify_eq.
    rewrite groupIndexOf_clearGroup.
    { apply Hg; [|done]. by eapply list_elem_of_lookup_2. }
    intros Hge g Hgk Hcg.
    apply (Hclaim g Hge Hgk) in Hcg.
    apply list_elem_of_fmap in Hcg as (c2 & Heq & Hc2).
    apply mapM_Some in Hm.
    destruct (list_elem_of_lookup_1 _ _ Hc2) as [k Hk].
    destruct (Forall2_lookup_r _ _ _ _ _ Hm Hk) as (i & Hi & Hci).
    assert (j = i) as ->.
    { eapply (NoDup_lookup (name <$> cardData st)); [done| |].
      - by rewrite list_lookup_fmap, Hc.
      - by rewrite list_lookup_fmap, Hci, Heq. }
    apply Hnin. by eapply list_elem_of_lookup_2.
  - unfold clearGroup. destruct (0 <=? gid)%Z; [|done].
    apply Forall_insert; [done|by left].
  - constructor.
  - constructor.
Qed.

Lemma well_formed_step st op : well_formed st → well_formed (step st op).
Proof.
  intros Hwf. destruct op; simpl.
  - by apply well_formed_click.
  - by apply well_formed_lock.
  - destruct Hwf as (?&?&?&?&?). unfold well_formed; simpl.
    split_and!; [done|done|done|constructor|constructor].
  - by eapply well_formed_ext.
Qed.

(** Soundness is kept by every run of player commands. *)
Lemma well_formed_run ops st : well_formed st → well_formed (run ops st).
Proof.
  unfold run. revert st. induction ops as [|op ops IH]; intros st Hwf; [done|].
  simpl. by apply IH, well_formed_step.
Qed.

(** ** Shuffling *)

Lemma insert_Permutation {A} (l : list A) (i : nat) (y : A) :
  i < length l → <[i := y]> l ≡ₚ y :: delete i l.
Proof.
  intros Hi. rewrite insert_take_drop by done. rewrite delete_take_drop.
  symmetry. apply Permutation_middle.
Qed.


Lemma swap_Permutation {A} (a : list A) (i j : nat) : swap a i j ≡ₚ a.
Proof.
  unfold swap.
  destruct (a !! i) as [x|] eqn:Hx; [|done].
  destruct (a !! j) as [y|] eqn:Hy; [|done].
  destruct (decide (i = j)) as [->|Hne].
  - assert (x = y) as -> by congruence.
    rewrite (list_insert_id a j y Hy). by rewrite (list_insert_id a j y Hy).
  - pose proof (lookup_lt_Some _ _ _ Hx) as Hi.
    pose proof (lookup_lt_Some _ _ _ Hy) as Hj.
    assert (<[i := y]> a !! j = Some y) as Hy'.
    { by rewrite list_lookup_insert_ne. }
    etrans; [apply insert_Permutation; by rewrite length_insert|].
    etrans; [|symmetry; apply (delete_Permutation a i x Hx)].
    apply Permutation_skip.
    apply (Permutation_cons_inv (a := y)).
    etrans; [symmetry; apply (delete_Permutation _ j y Hy')|].
    by apply insert_Permutation.
Qed.

Section ShuffleFacts.
Variable env : Env.

Lemma shuffle_from_Permutation {A} (i : nat) (a : list A) (w : World) :
  (shuffle_from env i a w).1 ≡ₚ a.
Proof.
  revert a w. induction i as [|i IH]; intros a w; simpl; [done|].
  unfold bind, randomBelow. rewrite IH. apply swap_Permutation.
Qed.

Lemma shuffle_Permutation {A} (a : list A) (w : World) :
  (shuffle env a w).1 ≡ₚ a.
Proof. apply shuffle_from_Permutation. Qed.


Lemma sampleArray_spec {A} (arr : list A) (n : nat) (w : World) :
  ∃ a, a ≡ₚ arr ∧ (sampleArray env arr n w).1 = take n a.
Proof.
  unfold sampleArray, bind, ret.
  destruct (shuffle env arr w) as [a w'] eqn:Hs.
  exists a. split; [|done].
  pose proof (shuffle_Permutation arr w) as H. by rewrite Hs in H.
Qed.
End ShuffleFacts.

(** ** Publishing the board *)

Section PublishFacts.
Variable env : Env.
Variable fetchPokemonData : string → M Meta.

Lemma fetchAll_length (names : list string) (w : World) :
  length (fetchAll fetchPokemonData names w).1 = length names.
Proof.
  revert w. induction names as [|n names IH]; intros w; simpl; [done|].
  unfold bind, ret. destruct (fetchPokemonData n w) as [m w1].
  specialize (IH w1).
  destruct (fetchAll fetchPokemonData names w1) as [ms w2]. simpl in *.
  by rewrite IH.
Qed.

Lemma zip_cards_names (sols : list (list string)) (names : list string)
    (metas : list Meta) :
  length metas = length names →
  name <$> zip_with (λ n meta, mkCard n meta (groupIndexOf sols n) false)
                    names metas = names.
Proof.
  revert metas. induction names as [|n names IH]; intros [|m metas] Hl;
    simpl in *; try done.
  rewrite IH; [done|lia].
Qed.

Lemma layBoard_spec (sols : list (list string)) (w : World) :
  ∃ shuffled metas,
    shuffled ≡ₚ concat sols ∧ length metas = length shuffled ∧
    (layBoard env fetchPokemonData sols w).1 =
      mkState (zip_with (λ n meta, mkCard n meta (groupIndexOf sols n) false)
                        shuffled metas)
              [] sols MSG_FETCHING.
Proof.
  unfold layBoard, bind, ret.
  pose proof (shuffle_Permutation env (concat sols) w) as Hp.
  destruct (shuffle env (concat sols) w) as [shuffled w1]. simpl in Hp.
  pose proof (fetchAll_length shuffled w1) as Hl.
  destruct (fetchAll fetchPokemonData shuffled w1) as [metas w2]. simpl in Hl.
  by exists shuffled, metas.
Qed.

(** The published state is the laid board under the ready status. *)
Lemma publish_layBoard (sols : list (list string)) (w : World) :
  publish env fetchPokemonData sols w =
    (setStatus MSG_READY (layBoard env fetchPokemonData sols w).1,
     (layBoard env fetchPokemonData sols w).2).
Proof.
  unfold publish, bind, ret, renderBoard, updateProgress.
  by destruct (layBoard env fetchPokemonData sols w).
Qed.

Lemma publish_spec (sols : list (list string)) (w : World) :
  ∃ shuffled metas,
    shuffled ≡ₚ concat sols ∧ length metas = length shuffled ∧
    (publish env fetchPokemonData sols w).1 =
      mkState (zip_with (λ n meta, mkCard n meta (groupIndexOf sols n) false)
                        shuffled metas)
              [] sols MSG_READY.
Proof.
  rewrite publish_layBoard.
  destruct (layBoard_spec sols w) as (shuffled & metas & Hp & Hl & Heq).
  exists shuffled, metas. split_and!; [done|done|].
  simpl. by rewrite Heq.
Qed.

Lemma NoDup_concat_group {A} (ls : list (list A)) (g : list A) :
  NoDup (concat ls) → g ∈ ls → NoDup g.
Proof.
  induction ls as [|g' ls IH]; simpl; intros Hnd Hg.
  - by apply elem_of_nil in Hg.
  - apply NoDup_app in Hnd as (Hg' & _ & Hrest).
    apply elem_of_cons in Hg as [->|Hg]; [done|]. by apply IH.
Qed.

(** A board published from four whole, disjoint groups is sound. *)
Lemma well_formed_publish (sols : list (list string)) (w : World) :
  NoDup (concat sols) →
  Forall (λ g, length g = GROUP_SIZE) sols →
  well_formed (publish env fetchPokemonData sols w).1.
Proof.
  intros Hnd Hlen.
  destruct (publish_spec sols w) as (shuffled & metas & Hp & Hl & ->).
  unfold well_formed; simpl. split_and!.
  - rewrite zip_cards_names by done. by rewrite Hp.
  - intros c Hc _.
    apply list_elem_of_lookup in Hc as [i Hi].
    rewrite lookup_zip_with in Hi.
    destruct (shuffled !! i) as [n|]; [|done]. simpl in Hi.
    destruct (metas !! i) as [m|]; [|done]. simpl in Hi. by simplify_eq.
  - apply Forall_forall. intros g Hg. right. split.
    + rewrite Forall_forall in Hlen. by apply Hlen.
    + by eapply NoDup_concat_group.
  - constructor.
  - constructor.
Qed.

(** C6. The published board holds the identifiers of the solution groups
    in shuffled order, and shuffling is a bijection on them: the board's
    identifiers are a permutation of the assembled list, so for sixteen
    distinct identifiers the board has sixteen entries, no identifier is
    repeated, and each identifier sits at exactly one position.  The board
    is the one laid before [renderBoard()] is called, in either variant. *)
Theorem shuffle_places_each_identifier_once (sols : list (list string)) (w : World) :
  NoDup (concat sols) →
  length (concat sols) = MAX_BOARD →
  (shuffle env (concat sols) w).1 ≡ₚ concat sols ∧
  name <$> cardData (publish env fetchPokemonData sols w).1 ≡ₚ concat sols ∧
  length (cardData (publish env fetchPokemonData sols w).1) = MAX_BOARD ∧
  NoDup (name <$> cardData (publish env fetchPokemonData sols w).1) ∧
  (∀ x, x ∈ concat sols →
       ∃ i, (name <$> cardData (publish env fetchPokemonData sols w).1) !! i = Some x ∧
            ∀ j, (name <$> cardData (publish env fetchPokemonData sols w).1) !! j = Some x →
                 j = i) ∧
  cardData (layBoard env fetchPokemonData sols w).1 =
    cardData (publish env fetchPokemonData sols w).1.
Proof.
  intros Hnd Hlen.
  split_and!; [| | | | |by rewrite publish_layBoard];
    destruct (publish_spec sols w) as (shuffled & metas & Hp & Hl & Heq);
    rewrite ?Heq; simpl; rewrite ?zip_cards_names by done.
  - apply shuffle_Permutation.
  - done.
  - rewrite length_zip_with_l_eq by done. by rewrite Hp.
  - by rewrite Hp.
  - assert (NoDup shuffled) as Hnd' by (by rewrite Hp).
    intros x Hx. rewrite <- Hp in Hx.
    apply list_elem_of_lookup in Hx as [i Hi].
    exists i. split; [done|]. intros j Hj.
    by apply (NoDup_lookup shuffled j i x).
Qed.
End PublishFacts.

(** ** The working pool *)

Lemma remove_step_sublist (pool : list string) (it : option string) :
  (let idx := match it with
              | Some s => JS.indexOf pool s
              | None => (-1)%Z
              end in
   if (0 <=? idx)%Z then JS.splice1 pool idx else pool) `sublist_of` pool.
Proof.
  simpl. destruct (0 <=? _)%Z; [apply sublist_delete|done].
Qed.

Lemma removeFromPool_sublist (pool : list string) (items : list (option string)) :
  removeFromPool pool items `sublist_of` pool.
Proof.
  unfold removeFromPool. revert pool.
  induction items as [|it items IH]; intros pool; simpl; [done|].
  etrans; [apply IH|]. apply remove_step_sublist.
Qed.

Lemma removeFromPool_NoDup pool items :
  NoDup pool → NoDup (removeFromPool pool items).
Proof. intros H. eapply sublist_NoDup; [exact H|apply removeFromPool_sublist]. Qed.

Lemma elem_of_delete_other {A} (l : list A) (k : nat) (s x : A) :
  l !! k = Some s → s ≠ x → x ∈ l → x ∈ delete k l.
Proof.
  intros Hk Hne Hx. rewrite (delete_Permutation l k s Hk) in Hx.
  apply elem_of_cons in Hx as [->|Hx]; done.
Qed.

(** Whatever is not named in [items] stays in the pool. *)
Lemma removeFromPool_keeps pool items x :
  x ∈ pool → Some x ∉ items → x ∈ removeFromPool pool items.
Proof.
  unfold removeFromPool. revert pool.
  induction items as [|it items IH]; intros pool Hx Hnin; simpl; [done|].
  apply not_elem_of_cons in Hnin as [Hne Hnin].
  apply IH; [|done].
  destruct it as [s|]; simpl; [|done].
  destruct (Z.leb_spec 0 (JS.indexOf pool s)) as [Hge|]; [|done].
  unfold JS.splice1.
  apply (elem_of_delete_other pool _ s); [|congruence|done].
  apply indexOf_found. by rewrite Z2Nat.id.
Qed.

Lemma NoDup_covered_length {A} (P R G : list A) :
  NoDup P → (∀ x, x ∈ P → x ∈ R ∨ x ∈ G) → length P ≤ length R + length G.
Proof.
  intros Hnd Hcov. rewrite <- length_app.
  apply submseteq_length, NoDup_submseteq; [done|].
  intros x Hx. apply elem_of_app. by apply Hcov.
Qed.

(** Taking a group out of a pool of distinct identifiers shortens the pool
    by no more than the group's length, even when the builder had already
    popped some of the group's members off the pool. *)
Lemma removeFromPool_length pool pool' (g : list (option string)) :
  NoDup pool →
  (∀ x, x ∈ pool → x ∈ pool' ∨ Some x ∈ g) →
  length pool ≤ length (removeFromPool pool' g) + length g.
Proof.
  intros Hnd Hcov.
  rewrite <- (length_fmap Some pool), <- (length_fmap Some (removeFromPool _ _)).
  apply NoDup_covered_length.
  - apply (NoDup_fmap_2 Some), Hnd.
  - intros y Hy. apply list_elem_of_fmap in Hy as (x & -> & Hx).
    destruct (decide (Some x ∈ g)) as [Hin|Hnin]; [by right|left].
    apply list_elem_of_fmap_2.
    apply removeFromPool_keeps; [|done].
    by destruct (Hcov x Hx).
Qed.

(** ** The padding loops *)

Lemma elem_of_List_filter {A} (f : A → bool) (l : list A) (x : A) :
  x ∈ List.filter f l ↔ x ∈ l ∧ f x = true.
Proof. rewrite !list_elem_of_In. apply filter_In. Qed.

Lemma includes_count (g : list (option string)) (l : list string) :
  NoDup l →
  length l ≤
    length (List.filter (λ x, negb (JS.includes g (Some x))) l) + length g.
Proof.
  intros Hnd.
  rewrite <- (length_fmap Some l), <- (length_fmap Some (List.filter _ _)).
  apply NoDup_covered_length.
  - apply (NoDup_fmap_2 Some), Hnd.
  - intros y Hy. apply list_elem_of_fmap in Hy as (x & -> & Hx).
    destruct (decide (Some x ∈ g)) as [Hin|Hnin]; [by right|left].
    apply list_elem_of_fmap_2, elem_of_List_filter. split; [done|].
    apply negb_true_iff. by apply includes_false.
Qed.

(** With enough identifiers in the pool the loop exits with a group of the
    target size, made of identifiers only; what it popped is in the group. *)
Lemma padStack_ok (target : nat) (stk : list string) (g : list (option string)) :
  NoDup stk →
  Forall is_Some g →
  length g ≤ target →
  target ≤ length g +
           length (List.filter (λ x, negb (JS.includes g (Some x))) stk) →
  ∃ g' stk' popped,
    padStack target g stk = Some (g', stk') ∧
    stk = popped ++ stk' ∧
    (∀ x, x ∈ popped → Some x ∈ g') ∧
    Forall is_Some g' ∧ length g' = target ∧ (∀ y, y ∈ g → y ∈ g').
Proof.
  revert g. induction stk as [|x stk IH]; intros g Hnd Hg Hle Hsup.
  - simpl in *. assert (length g = target) as Hlen by lia.
    exists g, [], []. rewrite Hlen, Nat.leb_refl.
    split_and!; [done|done| |done|done|done].
    intros y Hy. by apply elem_of_nil in Hy.
  - apply NoDup_cons in Hnd as [Hx Hnd]. simpl.
    destruct (Nat.leb_spec target (length g)) as [Hge|Hlt].
    { exists g, (x :: stk), []. split_and!; [done|done| |done|lia|done].
      intros y Hy. by apply elem_of_nil in Hy. }
    simpl in Hsup.
    destruct (JS.includes g (Some x)) eqn:Hinc; simpl in Hsup.
    + destruct (IH g Hnd Hg Hle Hsup)
        as (g' & stk' & popped & Heq & Hstk & Hpop & Hsome & Hlen & Hsub).
      exists g', stk', (x :: popped).
      split_and!; [done|by rewrite Hstk| |done|done|done].
      intros y [->|Hy]%elem_of_cons; [|by apply Hpop].
      apply Hsub. by apply includes_true.
    + assert (List.filter (λ y, negb (JS.includes (g ++ [Some x]) (Some y))) stk =
              List.filter (λ y, negb (JS.includes g (Some y))) stk) as Hfil.
      { apply filter_ext_in. intros y Hy. apply list_elem_of_In in Hy.
        f_equal. unfold JS.includes. apply bool_decide_ext.
        rewrite elem_of_app, list_elem_of_singleton. split; [|tauto].
        intros [?|[= ->]]; [done|]. by destruct Hx. }
      destruct (IH (g ++ [Some x])) as
        (g' & stk' & popped & Heq & Hstk & Hpop & Hsome & Hlen & Hsub).
      * done.
      * apply Forall_app. split; [done|]. apply Forall_singleton. by eexists.
      * rewrite length_app. simpl. lia.
      * rewrite Hfil, length_app. simpl. lia.
      * exists g', stk', (x :: popped).
        split_and!; [done|by rewrite Hstk| |done|done|].
        -- intros y [->|Hy]%elem_of_cons; [|by apply Hpop].
           apply Hsub, elem_of_app. right. by apply list_elem_of_singleton.
        -- intros y Hy. apply Hsub, elem_of_app. by left.
Qed.

Lemma padFromTail_ok (target : nat) (pool : list string) (g : list (option string)) :
  NoDup pool →
  Forall is_Some g →
  length g ≤ target →
  target ≤ length pool →
  ∃ g' pool',
    padFromTail target g pool = Some (g', pool') ∧
    NoDup pool' ∧
    (∀ x, x ∈ pool → x ∈ pool' ∨ Some x ∈ g') ∧
    Forall is_Some g' ∧ length g' = target.
Proof.
  intros Hnd Hg Hle Hsup.
  assert (NoDup (reverse pool)) as Hnd' by (by rewrite reverse_Permutation).
  destruct (padStack_ok target (reverse pool) g Hnd' Hg Hle)
    as (g' & stk' & popped & Heq & Hstk & Hpop & Hsome & Hlen & _).
  { pose proof (includes_count g (reverse pool) Hnd') as Hc.
    rewrite length_reverse in Hc. lia. }
  exists g', (reverse stk'). unfold padFromTail. rewrite Heq.
  split_and!; [done| | |done|done].
  - rewrite reverse_Permutation. rewrite Hstk in Hnd'.
    by apply NoDup_app in Hnd' as (_&_&?).
  - intros x Hx. rewrite <- elem_of_reverse, Hstk, elem_of_app in Hx.
    destruct Hx as [Hx|Hx]; [right; by apply Hpop|left; by apply elem_of_reverse].
Qed.


(** ** The builders *)

Section BuilderFacts.
Variable env : Env.
Variable fetchPokemonData : string → M Meta.

Lemma typeScan_length size sample tm w g :
  (typeScan fetchPokemonData size sample tm w).1 = Some g → length g = size.
Proof.
  revert tm w. induction sample as [|n sample IH]; intros tm w; simpl; [done|].
  unfold bind. destruct (fetchPokemonData n w) as [meta w1].
  destruct (head (types meta)) as [t|]; [|apply IH].
  destruct (JS.truthy t); [|apply IH].
  destruct (bucket_push t n tm) as [members tm'].
  destruct (Nat.leb_spec size (length members)); [|apply IH].
  simpl. intros [= <-]. by apply length_take_le.
Qed.

Lemma buildTypeGroup_length pool size w g :
  (buildTypeGroup env fetchPokemonData pool size w).1 = Some g → length g = size.
Proof.
  unfold buildTypeGroup, bind. destruct (shuffle env pool w) as [sample w1].
  apply typeScan_length.
Qed.

Lemma fillerScan_length targetType count pool matches w :
  length matches < count →
  length (fillerScan fetchPokemonData targetType count pool matches w).1 ≤ count.
Proof.
  revert matches w. induction pool as [|n pool IH]; intros matches w Hlt; simpl.
  - lia.
  - unfold bind. destruct (fetchPokemonData n w) as [m w1].
    set (matches' := if bool_decide _ then _ else _).
    assert (length matches' ≤ count) as Hle.
    { unfold matches'. destruct (bool_decide _); [|lia].
      rewrite length_app. simpl. lia. }
    destruct (Nat.leb_spec count (length matches')); simpl; [lia|].
    by apply IH.
Qed.

(** Taking a group of four identifiers out of the pool keeps the stage. *)
Lemma stage_push groups pool pool' (g : list (option string)) :
  stage groups pool →
  length g = GROUP_SIZE → Forall is_Some g → NoDup pool' →
  (∀ x, x ∈ pool → x ∈ pool' ∨ Some x ∈ g) →
  stage (groups ++ [g]) (removeFromPool pool' g).
Proof.
  intros (Hnd & Hlen & Hgs) Hg Hsome Hnd' Hcov. unfold stage. split_and!.
  - by apply removeFromPool_NoDup.
  - pose proof (removeFromPool_length pool pool' g Hnd Hcov).
    rewrite length_app. simpl. unfold GROUP_SIZE in *. lia.
  - apply Forall_app. split; [done|]. by apply Forall_singleton.
Qed.

Lemma Forall_is_Some_fmap (l : list string) : Forall is_Some (Some <$> l).
Proof. apply Forall_fmap, Forall_forall. intros x _. by eexists. Qed.

Lemma typeStep_stage pool w :
  NoDup pool → MAX_BOARD ≤ length pool →
  stage (typeStep env fetchPokemonData pool w).1.1
        (typeStep env fetchPokemonData pool w).1.2 ∧
  length (typeStep env fetchPokemonData pool w).1.1 ≤ 1.
Proof.
  intros Hnd Hlen. unfold typeStep, bind, ret.
  pose proof (buildTypeGroup_length pool GROUP_SIZE w) as Hg.
  destruct (buildTypeGroup env fetchPokemonData pool GROUP_SIZE w) as [[g|] w1];
    simpl in *.
  - split; [|lia].
    apply (stage_push [] pool pool (Some <$> g)).
    + split_and!; [done|simpl; lia|constructor].
    + rewrite length_fmap. by apply Hg.
    + apply Forall_is_Some_fmap.
    + done.
    + intros x Hx. by left.
  - split; [|lia]. split_and!; [done|simpl; lia|constructor].
Qed.

Lemma stage_pool_length groups pool k :
  stage groups pool → length groups ≤ k → k ≤ 3 → GROUP_SIZE ≤ length pool.
Proof. intros (_ & Hlen & _) Hk Hk3. unfold MAX_BOARD, MAX_GROUPS, GROUP_SIZE in *. lia. Qed.

Lemma fillGroups_stage n groups pool w :
  stage groups pool → length groups + n = MAX_GROUPS →
  stage (fillGroups env fetchPokemonData n groups pool w).1.1
        (fillGroups env fetchPokemonData n groups pool w).1.2 ∧
  length (fillGroups env fetchPokemonData n groups pool w).1.1 = MAX_GROUPS.
Proof.
  revert groups pool w. induction n as [|n IH]; intros groups pool w Hst Hn; simpl.
  - split; [done|lia].
  - unfold bind.
    pose proof (buildTypeGroup_length pool GROUP_SIZE w) as Hg.
    destruct (buildTypeGroup env fetchPokemonData pool GROUP_SIZE w) as [t w1].
    assert (GROUP_SIZE ≤ length pool) as Hpool.
    { apply (stage_pool_length groups pool 3); [done| |done].
      unfold MAX_GROUPS in Hn. lia. }
    assert (∃ g w2, (match t with
                     | Some g => ret g
                     | None => sampleArray env pool GROUP_SIZE
                     end) w1 = (g, w2) ∧ length g = GROUP_SIZE) as (g & w2 & -> & Hlg).
    { destruct t as [g|].
      - exists g, w1. split; [done|]. by apply Hg.
      - destruct (sampleArray_spec env pool GROUP_SIZE w1) as (a & Ha & Hs).
        destruct (sampleArray env pool GROUP_SIZE w1) as [g w2]. simpl in Hs.
        exists g, w2. split; [done|]. rewrite Hs, length_take_le; [done|].
        by rewrite Ha. }
    apply IH.
    + apply (stage_push groups pool pool); [done| | |by destruct Hst|].
      * by rewrite length_fmap.
      * apply Forall_is_Some_fmap.
      * intros x Hx. by left.
    + rewrite length_app. simpl. lia.
Qed.

Lemma lowerGroups_stage groups pool :
  stage groups pool →
  ∃ sols, lowerGroups groups = Some sols ∧ length sols = length groups ∧
          Forall (λ g, length g = GROUP_SIZE) sols.
Proof.
  intros (_ & _ & Hgs). unfold lowerGroups.
  induction groups as [|g groups IH].
  - exists []. by split_and!.
  - apply Forall_cons in Hgs as [[Hlg Hsome] Hgs].
    destruct (IH Hgs) as (sols & Hm & Hl & Hall).
    assert (∃ names, mapM (λ n, JS.toLowerCase <$> n) g = Some names ∧
                     length names = length g) as (names & Hnames & Hln).
    { clear Hlg. induction g as [|n g IHg].
      - by exists [].
      - apply Forall_cons in Hsome as [[s ->] Hsome].
        destruct (IHg Hsome) as (names & Hn & Hl').
        exists (JS.toLowerCase s :: names). split; [|simpl; lia].
        apply mapM_Some. constructor; [done|]. by apply mapM_Some. }
    exists (names :: sols). split_and!.
    + apply mapM_Some. constructor; [done|]. by apply mapM_Some.
    + simpl. lia.
    + constructor; [lia|done].
Qed.
End BuilderFacts.

(** ** The fillers keep their contract *)

Lemma includes_fmap_Some (m : list string) (x : string) :
  JS.includes (Some <$> m) (Some x) = JS.includes m x.
Proof.
  unfold JS.includes. apply bool_decide_ext.
  rewrite list_elem_of_fmap. split.
  - intros (y & [= ->] & Hy). done.
  - intros Hx. by exists x.
Qed.

(** When the unguarded loop exits with identifiers only, the guarded loop
    of the Gen 1-7 filler does the same pops and pushes. *)
Lemma padStackGuarded_padStack count stk m g' stk' :
  padStack count (Some <$> m) stk = Some (g', stk') →
  Forall is_Some g' →
  ∃ m', Part001.padStackGuarded count m stk = (m', stk') ∧ g' = Some <$> m'.
Proof.
  revert m. induction stk as [|x stk IH]; intros m; simpl;
    rewrite length_fmap.
  - destruct (count <=? length m).
    + intros [= <- <-] _. by exists m.
    + destruct (JS.includes (Some <$> m) None); [done|].
      destruct (count <=? _); [|done].
      intros [= <- <-] Hsome. apply Forall_app in Hsome as [_ Hn].
      rewrite Forall_singleton in Hn. by apply is_Some_None in Hn.
  - destruct (count <=? length m).
    + intros [= <- <-] _. by exists m.
    + rewrite includes_fmap_Some. destruct (JS.includes m x).
      * apply IH.
      * intros Hp Hsome. apply (IH (m ++ [x])); [|done].
        by rewrite fmap_app.
Qed.

Section FillerFacts.
Variable env : Env.

Lemma sampled_filler (pool : list string) (count : nat) (w : World) :
  NoDup pool → count ≤ length pool →
  ∃ f pool' w',
    (try! s := lift (sampleArray env pool count) in
     retO (Some <$> s, pool)) w = Returns (f, pool') w' ∧
    length f = count ∧ Forall is_Some f ∧ NoDup pool' ∧
    (∀ x, x ∈ pool → x ∈ pool' ∨ Some x ∈ f).
Proof.
  intros Hnd Hc. unfold bindO, lift, retO.
  destruct (sampleArray_spec env pool count w) as (a & Ha & Hs).
  destruct (sampleArray env pool count w) as [s w1]. simpl in Hs. subst s.
  eexists _, _, _. split; [done|]. split_and!.
  - rewrite length_fmap, length_take_le; [done|]. by rewrite Ha.
  - apply Forall_is_Some_fmap.
  - done.
  - intros x Hx. by left.
Qed.

Lemma script_filler_contract : filler_contract (Script.findSameTypeFiller env).
Proof.
  intros pool ref count w Hnd Hc1 Hc.
  unfold Script.findSameTypeFiller. unfold bindO at 1, lift at 1.
  destruct (Script.fetchPokemonData env ref w) as [meta w1].
  destruct (primaryTypeName meta) as [t|]; [|by apply sampled_filler].
  destruct (JS.truthy t); [|by apply sampled_filler].
  unfold bindO, lift, retO.
  pose proof (fillerScan_length (Script.fetchPokemonData env) t count pool [] w1)
    as Hm.
  destruct (fillerScan (Script.fetchPokemonData env) t count pool [] w1)
    as [matches w2]. simpl in Hm.
  destruct (padFromTail_ok count pool (Some <$> matches))
    as (g' & pool' & -> & Hnd' & Hcov & Hsome & Hlen).
  - done.
  - apply Forall_is_Some_fmap.
  - rewrite length_fmap. apply Hm. simpl. lia.
  - done.
  - by exists g', pool', w2.
Qed.

Lemma part001_filler_contract : filler_contract (Part001.findSameTypeFiller env).
Proof.
  intros pool ref count w Hnd Hc1 Hc.
  unfold Part001.findSameTypeFiller. unfold bindO at 1, lift at 1.
  destruct (Part001.fetchPokemonData env ref w) as [meta w1].
  destruct (primaryTypeName meta) as [t|]; [|by apply sampled_filler].
  destruct (JS.truthy t); [|by apply sampled_filler].
  unfold bindO, lift, retO.
  pose proof (fillerScan_length (Part001.fetchPokemonData env) t count pool [] w1)
    as Hm.
  destruct (fillerScan (Part001.fetchPokemonData env) t count pool [] w1)
    as [matches w2]. simpl in Hm.
  assert (NoDup (reverse pool)) as Hndr by (by rewrite reverse_Permutation).
  destruct (padStack_ok count (reverse pool) (Some <$> matches))
    as (g' & stk' & popped & Heq & Hstk & Hpop & Hsome & Hlen & _).
  - done.
  - apply Forall_is_Some_fmap.
  - rewrite length_fmap. apply Hm. simpl. lia.
  - pose proof (includes_count (Some <$> matches) (reverse pool) Hndr) as Hcount.
    rewrite length_reverse in Hcount. lia.
  - destruct (padStackGuarded_padStack _ _ _ _ _ Heq Hsome) as (m' & -> & ->).
    exists (Some <$> m'), (reverse stk'), w2. split_and!; [done|done|done| |].
    + rewrite reverse_Permutation. rewrite Hstk in Hndr.
      by apply NoDup_app in Hndr as (_&_&?).
    + intros x Hx. rewrite <- elem_of_reverse, Hstk, elem_of_app in Hx.
      destruct Hx as [Hx|Hx]; [right; by apply Hpop|left; by apply elem_of_reverse].
Qed.
End FillerFacts.

(** ** The assembly ends with four groups of four *)

Section AssemblyFacts.
Variable env : Env.
Variable fetchPokemonData : string → M Meta.
Variable findSameTypeFiller :
  list string → string → nat → MO (list (option string) * list string).
Variable legendaryNames : list string.
Hypothesis filler_ok : filler_contract findSameTypeFiller.

Lemma evolutionStep_stage groups pool w :
  stage groups pool → length groups ≤ 1 →
  ∃ groups' pool' w',
    evolutionStep fetchPokemonData findSameTypeFiller groups pool w =
      Returns (groups', pool') w' ∧
    stage groups' pool' ∧ length groups' ≤ 2.
Proof.
  intros Hst Hk. unfold evolutionStep. unfold bindO at 1, lift at 1.
  destruct (buildEvolutionGroup fetchPokemonData pool GROUP_SIZE w)
    as [[evo|] w1].
  - destruct (Nat.ltb_spec (length evo) GROUP_SIZE) as [Hlt|Hge].
    + destruct (filler_ok pool (default "undefined" (head evo))
                          (GROUP_SIZE - length evo) w1)
        as (f & pool' & w2 & Hf & Hlf & Hsome & Hnd' & Hcov).
      * by destruct Hst.
      * lia.
      * pose proof (stage_pool_length groups pool 1 Hst Hk). lia.
      * unfold bindO, retO. rewrite Hf.
        eexists _, _, _. split; [done|]. split.
        -- apply (stage_push groups pool pool'); [done| | |done|].
           ++ rewrite length_app, length_fmap. lia.
           ++ apply Forall_app. split; [apply Forall_is_Some_fmap|done].
           ++ intros x Hx. destruct (Hcov x Hx) as [?|?]; [by left|right].
              apply elem_of_app. by right.
        -- rewrite length_app. simpl. lia.
    + unfold retO. eexists _, _, _. split; [done|]. split.
      * apply (stage_push groups pool pool); [done| | |by destruct Hst|].
        -- rewrite length_fmap, length_take_le; [done|lia].
        -- apply Forall_is_Some_fmap.
        -- intros x Hx. by left.
      * rewrite length_app. simpl. lia.
  - unfold retO. eexists _, _, _. split; [done|]. split; [done|lia].
Qed.

Lemma legendStep_stage groups pool w :
  stage groups pool → length groups ≤ 2 →
  ∃ groups' pool',
    legendStep legendaryNames groups pool w = Returns (groups', pool') w ∧
    stage groups' pool' ∧ length groups' ≤ 3.
Proof.
  intros Hst Hk. unfold legendStep.
  set (legendGroup := take GROUP_SIZE _).
  destruct (2 <=? length legendGroup).
  - destruct (padFromTail_ok GROUP_SIZE pool (Some <$> legendGroup))
      as (g' & pool' & -> & Hnd' & Hcov & Hsome & Hlen).
    + by destruct Hst.
    + apply Forall_is_Some_fmap.
    + unfold legendGroup. rewrite length_fmap, length_take. lia.
    + apply (stage_pool_length groups pool 2); [done|done|lia].
    + unfold retO. eexists _, _. split; [done|]. split.
      * by apply (stage_push groups pool pool').
      * rewrite length_app. simpl. lia.
  - unfold retO. eexists _, _. split; [done|]. split; [done|lia].
Qed.

(** From a pool of at least sixteen distinct identifiers the assembly
    returns, whatever the catalog answers and whatever is drawn: four
    groups of four entries each. *)
Lemma assemble_returns pool w :
  NoDup pool → MAX_BOARD ≤ length pool →
  ∃ sols w',
    assemble env fetchPokemonData findSameTypeFiller legendaryNames pool w =
      Returns sols w' ∧
    length sols = MAX_GROUPS ∧ Forall (λ g, length g = GROUP_SIZE) sols.
Proof.
  intros Hnd Hlen. unfold assemble.
  unfold bindO at 1, lift at 1.
  destruct (typeStep_stage env fetchPokemonData pool w Hnd Hlen) as [Hst1 Hk1].
  destruct (typeStep env fetchPokemonData pool w) as [[groups1 pool1] w1].
  simpl in Hst1, Hk1.
  unfold bindO at 1.
  destruct (evolutionStep_stage groups1 pool1 w1 Hst1 Hk1)
    as (groups2 & pool2 & w2 & -> & Hst2 & Hk2).
  unfold bindO at 1.
  destruct (legendStep_stage groups2 pool2 w2 Hst2 Hk2)
    as (groups3 & pool3 & -> & Hst3 & Hk3).
  unfold bindO at 1, lift at 1.
  destruct (fillGroups_stage env fetchPokemonData
              (MAX_GROUPS - length groups3) groups3 pool3 w2 Hst3)
    as [Hst4 Hk4].
  { unfold MAX_GROUPS. lia. }
  destruct (fillGroups env fetchPokemonData _ groups3 pool3 w2)
    as [[groups4 pool4] w4]. simpl in Hst4, Hk4.
  destruct (lowerGroups_stage groups4 pool4 Hst4) as (sols & -> & Hls & Hall).
  exists sols, w4. split_and!; [done|lia|done].
Qed.
End AssemblyFacts.

(** ** Items without attributes are passed over by the rules *)


Section SkipFacts.
Variable env : Env.
Variable fetchPokemonData : string → M Meta.




End SkipFacts.

(** ** Generation as a whole *)

Lemma length_concat_groups {A} (ls : list (list A)) (k : nat) :
  Forall (λ g, length g = k) ls → length (concat ls) = k * length ls.
Proof.
  induction 1 as [|g ls Hg _ IH]; simpl; [lia|].
  rewrite length_app, IH, Hg. lia.
Qed.

Lemma getPoolForGens_NoDup env fromGen toGen w :
  (∀ c, poolCache w = Some c → NoDup c) →
  NoDup (Part001.getPoolForGens env fromGen toGen w).1.
Proof.
  intros Hc. unfold Part001.getPoolForGens.
  destruct (poolCache w) as [c|]; simpl; [by apply Hc|].
  destruct (Part001.genLoop env _ _ _ _) as [pool w']. simpl.
  apply Set_of_NoDup.
Qed.

Lemma GEN1_NoDup : NoDup Script.GEN1.
Proof. apply (bool_decide_unpack _). by vm_compute. Qed.

Section GenerationFacts.
Variable env : Env.

Lemma published_board fetch sols w :
  length sols = MAX_GROUPS → Forall (λ g, length g = GROUP_SIZE) sols →
  ∃ st w', lift (publish env fetch sols) w = Returns st w' ∧
           status st = MSG_READY ∧ length (cardData st) = MAX_BOARD ∧
           solutions st = sols.
Proof.
  intros Hl Hall. unfold lift.
  destruct (publish_spec env fetch sols w) as (shuffled & metas & Hp & Hm & Hst).
  destruct (publish env fetch sols w) as [st w']. simpl in Hst. subst st.
  eexists _, _. split; [done|]. simpl. split_and!; [done| |done].
  rewrite length_zip_with_l_eq by done.
  rewrite Hp, (length_concat_groups sols GROUP_SIZE Hall), Hl. done.
Qed.

(** The Gen 1 variant always assembles four groups of four and lays
    their board; its start then ends in the [catch], on the exception that
    [renderBoard()] raises. *)
Lemma script_start_returns w :
  ∃ sols w1,
    assemble env (Script.fetchPokemonData env) (Script.findSameTypeFiller env)
             Script.legendaryNames Script.GEN1 w = Returns sols w1 ∧
    length sols = MAX_GROUPS ∧ Forall (λ g, length g = GROUP_SIZE) sols ∧
    Script.startGame env w =
      Returns (setStatus Script.MSG_ERROR
                 (layBoard env (Script.fetchPokemonData env) sols w1).1)
              (layBoard env (Script.fetchPokemonData env) sols w1).2.
Proof.
  destruct (assemble_returns env (Script.fetchPokemonData env)
              (Script.findSameTypeFiller env) Script.legendaryNames
              (script_filler_contract env) Script.GEN1 w GEN1_NoDup)
    as (sols & w1 & Ha & Hl & Hall).
  { vm_compute. lia. }
  exists sols, w1. split_and!; [exact Ha|exact Hl|exact Hall|].
  unfold Script.startGame, Script.generate, bindO, lift. rewrite Ha.
  by destruct (layBoard env (Script.fetchPokemonData env) sols w1).
Qed.

Lemma laid_board fetch sols w :
  length sols = MAX_GROUPS → Forall (λ g, length g = GROUP_SIZE) sols →
  length (cardData (layBoard env fetch sols w).1) = MAX_BOARD ∧
  solutions (layBoard env fetch sols w).1 = sols ∧
  selected (layBoard env fetch sols w).1 = [].
Proof.
  intros Hl Hall.
  destruct (layBoard_spec env fetch sols w) as (shuffled & metas & Hp & Hm & ->).
  simpl. split_and!; [|done|done].
  rewrite length_zip_with_l_eq by done.
  rewrite Hp, (length_concat_groups sols GROUP_SIZE Hall), Hl. done.
Qed.

(** The Gen 1-7 variant gives up exactly when its pool is short. *)
Lemma part001_generate_cases w pool w1 :
  Part001.getPoolForGens env 1 Part001.MAX_GEN w = (pool, w1) →
  NoDup pool →
  (length pool < MAX_BOARD ∧ Part001.generate env w = Throws w1) ∨
  (MAX_BOARD ≤ length pool ∧
   ∃ st w', Part001.generate env w = Returns st w' ∧
            status st = MSG_READY ∧ length (cardData st) = MAX_BOARD).
Proof.
  intros Hpool Hnd.
  unfold Part001.generate, bindO, lift. rewrite Hpool.
  destruct (Nat.ltb_spec (length pool) MAX_BOARD) as [Hlt|Hge].
  - left. by split.
  - right. split; [done|].
    pose proof (shuffle_Permutation env pool w1) as Hp.
    destruct (shuffle env pool w1) as [candidatePool w2]. simpl in Hp.
    destruct (assemble_returns env (Part001.fetchPokemonData env)
                (Part001.findSameTypeFiller env) Part001.candidateLegends
                (part001_filler_contract env) candidatePool w2)
      as (sols & w3 & -> & Hl & Hall).
    + by rewrite Hp.
    + by rewrite Hp.
    + destruct (published_board (Part001.fetchPokemonData env) sols w3 Hl Hall)
        as (st & w4 & Heq & Hs & Hc & _).
      unfold lift in Heq. rewrite Heq. by exists st, w4.
Qed.
End GenerationFacts.

(** ** Lookup failures *)






(** ** Founding instances on the demo board *)

Lemma demo_solutions_NoDup : NoDup (concat demo_solutions).
Proof. apply (bool_decide_unpack _). vm_compute. exact I. Defined.

Lemma demo_solutions_sizes : Forall (λ g, length g = GROUP_SIZE) demo_solutions.
Proof. repeat constructor. Defined.

Lemma demo_published_well_formed : well_formed demo_published.
Proof.
  apply well_formed_publish;
    [exact demo_solutions_NoDup|exact demo_solutions_sizes].
Defined.

(** With four positions selected on the demo board a fifth click is
    refused, and a click on a claimed entry does nothing. *)
Lemma click_refused_when_full_or_locked_witness :
  onCardClick 4 demo_mixed_guess = setStatus MSG_SELECTION_FULL demo_mixed_guess ∧
  onCardClick 0 (lockSelection demo_group_guess).2 = (lockSelection demo_group_guess).2.
Proof.
  split.
  - eapply (click_refused_when_full_or_locked demo_mixed_guess 4).
    + vm_compute. reflexivity.
    + reflexivity.
    + vm_compute. reflexivity.
    + intros H. apply (bool_decide_pack _) in H. vm_compute in H. exact H.
  - eapply (click_refused_when_full_or_locked (lockSelection demo_group_guess).2 0).
    + vm_compute. reflexivity.
    + reflexivity.
Defined.

(** The entry at position 0 of the demo board, once claimed, is still
    locked after more clicks, guesses, a clear and a reveal, run as either
    variant runs them. *)
Lemma lock_flags_never_revert_witness :
  (∃ c', cardData (run [Click 0; Click 2; Lock; Clear; Reveal; Click 2; Click 3;
                        Click 4; Click 5; Lock]
                       (lockSelection demo_group_guess).2) !! 0 = Some c' ∧
         locked c' = true ∧ name c' = "tangela" ∧ groupId c' = 0%Z) ∧
  (∃ c', cardData (Script.run [Click 0; Click 2; Lock; Clear; Reveal; Click 2;
                               Click 3; Click 4; Click 5; Lock]
                              (lockSelection demo_group_guess).2) !! 0 = Some c' ∧
         locked c' = true ∧ name c' = "tangela" ∧ groupId c' = 0%Z).
Proof.
  apply (lock_flags_never_revert _ (lockSelection demo_group_guess).2 0
           (mkCard "tangela" (mkMeta "tangela" [] None false None None) 0 true)).
  - vm_compute. reflexivity.
  - reflexivity.
Defined.

(** The demo board holds the sixteen identifiers of its groups, each at
    one position. *)
Lemma shuffle_places_each_identifier_once_witness :
  name <$> cardData demo_published ≡ₚ concat demo_solutions ∧
  length (cardData demo_published) = MAX_BOARD.
Proof.
  destruct (shuffle_places_each_identifier_once silent_env
              (Script.fetchPokemonData silent_env) demo_solutions w0)
    as (_ & Hperm & Hlen & _).
  - exact demo_solutions_NoDup.
  - reflexivity.
  - split; [exact Hperm|exact Hlen].
Defined.

(** ** Where the code departs from the description *)

(** C1. With a catalog in which only the bulbasaur family can be looked
    up, [startGame] of [script.js] publishes a board whose first group
    names bulbasaur twice: the four groups hold sixteen entries but only
    fifteen distinct identifiers, and bulbasaur sits at two positions.
    The Gen 1-7 variant does the same on a pool of sixteen species. *)
Theorem duplicate_member_on_published_board :
  (∃ st w',
     Script.startGame sparse_env w0 = Returns st w' ∧
     solutions st =
       [["bulbasaur"; "ivysaur"; "venusaur"; "bulbasaur"];
        ["articuno"; "zapdos"; "moltres"; "mewtwo"];
        ["pidgey"; "charmander"; "wartortle"; "blastoise"];
        ["slowpoke"; "kakuna"; "butterfree"; "charmeleon"]] ∧
     length (concat (solutions st)) = 16 ∧
     length (remove_dups (concat (solutions st))) = 15 ∧
     ¬ NoDup (name <$> cardData st)) ∧
  (∃ st w',
     Part001.startGame sparse16_env w0 = Returns st w' ∧
     head (solutions st) = Some ["venusaur"; "bulbasaur"; "ivysaur"; "venusaur"] ∧
     length (concat (solutions st)) = 16 ∧
     length (remove_dups (concat (solutions st))) = 15 ∧
     ¬ NoDup (name <$> cardData st)).
Proof.
  split.
  - eexists _, _. split; [vm_compute; reflexivity|].
    split_and!; [reflexivity|reflexivity|vm_compute; reflexivity|].
    intros H. apply (bool_decide_pack _) in H. vm_compute in H. exact H.
  - eexists _, _. split; [vm_compute; reflexivity|].
    split_and!; [reflexivity|reflexivity|vm_compute; reflexivity|].
    intros H. apply (bool_decide_pack _) in H. vm_compute in H. exact H.
Qed.

(** C4. In the same catalog the evolution step of [script.js] finds the
    partial family bulbasaur, ivysaur, venusaur, asks the filler for one
    more member, and the filler answers with bulbasaur, the reference item
    itself, which is still in the pool: the concatenation has four entries
    but only three members. *)
Theorem filler_repeats_reference_item :
  (buildEvolutionGroup (Script.fetchPokemonData sparse_env) Script.GEN1
                       GROUP_SIZE w0).1 =
    Some ["bulbasaur"; "ivysaur"; "venusaur"] ∧
  (∃ pool' w',
     Script.findSameTypeFiller sparse_env Script.GEN1 "bulbasaur" 1 w0 =
       Returns ([Some "bulbasaur"], pool') w') ∧
  (∃ pool' w',
     evolutionStep (Script.fetchPokemonData sparse_env)
                   (Script.findSameTypeFiller sparse_env) [] Script.GEN1 w0 =
       Returns ([[Some "bulbasaur"; Some "ivysaur"; Some "venusaur";
                  Some "bulbasaur"]], pool') w') ∧
  length (remove_dups [Some "bulbasaur"; Some "ivysaur"; Some "venusaur";
                       Some "bulbasaur"]) = 3.
Proof.
  split_and!.
  - vm_compute. reflexivity.
  - eexists _, _. vm_compute. reflexivity.
  - eexists _, _. vm_compute. reflexivity.
  - vm_compute. reflexivity.
Qed.

Lemma era_test_never_holds (m : Meta) (metas : list Meta) :
  sharedBy (generationName m) generationName metas = None.
Proof.
  unfold sharedBy, generationName.
  destruct (generation m) as [g|]; [|done].
  destruct (JS.truthy g) eqn:Hg; [done|]. by rewrite Hg.
Qed.

(** C9. Four entries of four different types, all of the first generation,
    none legendary, of four different families: every entry has the same
    era, yet the hint is the generic one.  The era test reads [.name] of a
    value that is already the generation's name, so it holds for no group
    at all. *)
Theorem same_era_group_gets_generic_hint :
  Forall (λ c, generation (metadata c) = Some "generation-i") gen1_starters ∧
  inferHintForGroup gen1_starters
                    ["charmander"; "squirtle"; "bulbasaur"; "pikachu"] =
    "A shared connection" ∧
  (∀ m metas, sharedBy (generationName m) generationName metas = None).
Proof.
  split_and!.
  - repeat constructor.
  - vm_compute. reflexivity.
  - apply era_test_never_holds.
Qed.

(** * Further properties of the code *)

(** ** Removing from the pool, sampling *)

Lemma NoDup_delete_lookup {A} (l : list A) (k : nat) (s : A) :
  NoDup l → l !! k = Some s → s ∉ delete k l.
Proof.
  intros Hnd Hk. rewrite (delete_Permutation l k s Hk) in Hnd.
  by apply NoDup_cons in Hnd as [? _].
Qed.

Lemma removeFromPool_gone (pool : list string) (items : list (option string))
    (x : string) :
  NoDup pool → x ∈ removeFromPool pool items → Some x ∉ items.
Proof.
  revert pool. unfold removeFromPool.
  induction items as [|it items IH]; intros pool Hnd Hx; simpl in Hx.
  { apply not_elem_of_nil. }
  apply not_elem_of_cons. split.
  - intros <-. simpl in Hx.
    destruct (Z.leb_spec 0 (JS.indexOf pool x)) as [Hge|Hlt].
    + assert (pool !! Z.to_nat (JS.indexOf pool x) = Some x) as Hk.
      { apply indexOf_found. by rewrite Z2Nat.id. }
      eapply (NoDup_delete_lookup pool _ x Hnd Hk).
      eapply elem_of_sublist; [exact Hx|].
      apply (removeFromPool_sublist _ items).
    + apply indexOf_absent in Hlt. apply Hlt.
      eapply elem_of_sublist; [exact Hx|].
      apply (removeFromPool_sublist _ items).
  - eapply IH; [|exact Hx].
    eapply sublist_NoDup; [exact Hnd|apply remove_step_sublist].
Qed.

(** X1. [removeFromPool] on a pool of distinct identifiers leaves exactly
    the identifiers that the list of items does not name, in their order;
    [undefined] items and names that are not in the pool are passed over. *)
Theorem removeFromPool_exact (pool : list string) (items : list (option string)) :
  NoDup pool →
  NoDup (removeFromPool pool items) ∧
  removeFromPool pool items `sublist_of` pool ∧
  ∀ x, x ∈ removeFromPool pool items ↔ x ∈ pool ∧ Some x ∉ items.
Proof.
  intros Hnd. split_and!.
  - by apply removeFromPool_NoDup.
  - apply removeFromPool_sublist.
  - intros x. split.
    + intros Hx. split.
      * eapply elem_of_sublist; [exact Hx|apply removeFromPool_sublist].
      * by eapply removeFromPool_gone.
    + intros [Hx Hnin]. by apply removeFromPool_keeps.
Qed.

Lemma removeFromPool_exact_witness :
  removeFromPool ["abra"; "mew"; "ditto"; "onix"]
                 [Some "mew"; None; Some "jynx"; Some "onix"] = ["abra"; "ditto"] ∧
  ∀ x, x ∈ removeFromPool ["abra"; "mew"; "ditto"; "onix"]
                          [Some "mew"; None; Some "jynx"; Some "onix"] ↔
       x ∈ ["abra"; "mew"; "ditto"; "onix"] ∧
       Some x ∉ [Some "mew"; None; Some "jynx"; Some "onix"].
Proof.
  split; [vm_compute; reflexivity|].
  apply (removeFromPool_exact ["abra"; "mew"; "ditto"; "onix"]).
  apply (bool_decide_unpack _). vm_compute. exact I.
Defined.

Section SamplingFacts.
Variable env : Env.

Lemma shuffle_from_counters {A} (i : nat) (a : list A) (w : World) :
  (shuffle_from env i a w).2 = mkWorld (rnd w + i) (net w) (poolCache w).
Proof.
  revert a w. induction i as [|i IH]; intros a w; simpl.
  - destruct w; simpl. f_equal. lia.
  - unfold bind, randomBelow. rewrite IH. simpl. f_equal. lia.
Qed.

(** X2. [sampleArray(arr, n)] returns [min n (length arr)] elements, all
    of them elements of [arr] and distinct when those of [arr] are; it
    draws [length arr - 1] random numbers (none for an empty or one-element
    array) and makes no request. *)
Theorem sampleArray_sample {A} (arr : list A) (n : nat) (w : World) :
  length (sampleArray env arr n w).1 = n `min` length arr ∧
  (∀ x, x ∈ (sampleArray env arr n w).1 → x ∈ arr) ∧
  (NoDup arr → NoDup (sampleArray env arr n w).1) ∧
  (sampleArray env arr n w).2 =
    mkWorld (rnd w + (length arr - 1)) (net w) (poolCache w).
Proof.
  destruct (sampleArray_spec env arr n w) as (a & Ha & Hs).
  rewrite Hs. split_and!.
  - by rewrite length_take, Ha.
  - intros x Hx. apply subseteq_take in Hx. by rewrite <- Ha.
  - intros Hnd. eapply sublist_NoDup; [|apply sublist_take]. by rewrite Ha.
  - unfold sampleArray, bind, ret.
    pose proof (shuffle_from_counters (length arr - 1) arr w) as Hw.
    unfold shuffle. destruct (shuffle_from env (length arr - 1) arr w). by simpl in *.
Qed.
End SamplingFacts.

Lemma sampleArray_sample_witness :
  NoDup (sampleArray silent_env ["abra"; "mew"; "ditto"] 5 w0).1.
Proof.
  destruct (sampleArray_sample silent_env ["abra"; "mew"; "ditto"] 5 w0)
    as (_ & _ & H & _).
  apply H. apply (bool_decide_unpack _). vm_compute. exact I.
Defined.

(** ** The selection *)

Lemma indexOf_snoc_fresh (sel : list nat) (idx : nat) :
  idx ∉ sel → JS.indexOf (sel ++ [idx]) idx = Z.of_nat (length sel).
Proof.
  intros Hnin. unfold JS.indexOf.
  induction sel as [|j sel IH]; simpl.
  - by rewrite bool_decide_eq_true_2.
  - apply not_elem_of_cons in Hnin as [Hne Hnin].
    rewrite bool_decide_eq_false_2 by done.
    rewrite (IH Hnin).
    destruct (Z.ltb_spec (Z.of_nat (length sel)) 0); lia.
Qed.

Lemma selection_ok_step st op : selection_ok st → selection_ok (step st op).
Proof.
  intros (Hnd & Hlen & Hsel). destruct op; simpl.
  - unfold selection_ok. rewrite onCardClick_cardData.
    unfold onCardClick. destruct (cardData st !! idx) as [c|] eqn:Hc; [|done].
    destruct (locked c) eqn:Hl; [done|].
    destruct (Z.leb_spec 0 (JS.indexOf (selected st) idx)) as [Hge|Hlt].
    + simpl. unfold JS.splice1. split_and!.
      * eapply sublist_NoDup; [exact Hnd|apply sublist_delete].
      * pose proof (sublist_length _ _ (sublist_delete (selected st)
                      (Z.to_nat (JS.indexOf (selected st) idx)))). lia.
      * by apply Forall_delete.
    + destruct (Nat.leb_spec GROUP_SIZE (length (selected st))) as [Hfull|Hroom].
      * by split_and!.
      * simpl. split_and!.
        -- apply NoDup_app. split_and!; [done| |apply NoDup_singleton].
           intros x Hx ->%list_elem_of_singleton.
           by apply indexOf_absent in Hlt.
        -- rewrite length_app. simpl. lia.
        -- apply Forall_app. split; [done|].
           apply Forall_singleton. by exists c.
  - destruct (lockSelection_cases st)
      as [[_ ->]|[(_&_&->)|(cards&_&_&[(gid&_&->)|[_ ->]])]]; simpl;
      [by split_and!|by split_and!| |by split_and!].
    unfold selection_ok. rewrite checkWin_selected. simpl.
    split_and!; [constructor|lia|constructor].
  - unfold selection_ok; simpl. split_and!; [constructor|lia|constructor].
  - by split_and!.
Qed.

(** X3. In the Gen 1-7 variant, on any board, sound or not, every
    sequence of clicks, guesses, clears and reveals keeps the selection in
    order: no position twice, at most four positions, and only unlocked
    entries of the board. *)
Theorem selection_stays_in_order (ops : list Op) (st : State) :
  selection_ok st → selection_ok (run ops st).
Proof.
  unfold run. revert st. induction ops as [|op ops IH]; intros st Hok; [done|].
  simpl. by apply IH, selection_ok_step.
Qed.

Lemma selection_stays_in_order_witness :
  selection_ok (run [Click 0; Click 1; Click 1; Click 8; Click 15; Click 1;
                     Click 7; Lock; Click 0; Click 7; Reveal]
                    demo_published).
Proof.
  apply selection_stays_in_order.
  vm_compute. split_and!; [constructor|lia|constructor].
Defined.

(** X4. Clicking an unlocked entry twice undoes itself.  When the entry
    was not selected and there was room, the state is exactly the one
    before; when it was selected, it is selected again, now last in the
    selection. *)
Theorem click_twice_restores (st : State) (idx : nat) (c : Card) :
  cardData st !! idx = Some c →
  locked c = false →
  selection_ok st →
  (idx ∉ selected st → length (selected st) < GROUP_SIZE →
   onCardClick idx (onCardClick idx st) = st) ∧
  (idx ∈ selected st →
   selected (onCardClick idx (onCardClick idx st)) =
     JS.splice1 (selected st) (JS.indexOf (selected st) idx) ++ [idx] ∧
   selected (onCardClick idx (onCardClick idx st)) ≡ₚ selected st).
Proof.
  intros Hc Hl (Hnd & Hlen & Hsel). split.
  - intros Hnin Hroom.
    assert (onCardClick idx st =
            mkState (cardData st) (selected st ++ [idx]) (solutions st) (status st))
      as ->.
    { unfold onCardClick. rewrite Hc, Hl.
      apply indexOf_absent in Hnin.
      destruct (Z.leb_spec 0 (JS.indexOf (selected st) idx)); [lia|].
      destruct (Nat.leb_spec GROUP_SIZE (length (selected st))); [lia|done]. }
    unfold onCardClick. cbn [cardData selected solutions status].
    rewrite Hc, Hl.
    rewrite (indexOf_snoc_fresh _ _ Hnin).
    destruct (Z.leb_spec 0 (Z.of_nat (length (selected st)))); [|lia].
    unfold renderSelection, JS.splice1. rewrite Nat2Z.id.
    rewrite (delete_middle (selected st) [] idx), app_nil_r.
    by destruct st.
  - intros Hin.
    assert (∃ k, JS.indexOf (selected st) idx = Z.of_nat k ∧
                 selected st !! k = Some idx) as (k & Hk & Hlk).
    { pose proof (findIndex_range (λ y, bool_decide (y = idx)) (selected st)) as Hr.
      destruct (Z.leb_spec 0 (JS.indexOf (selected st) idx)) as [Hge|Hlt].
      - exists (Z.to_nat (JS.indexOf (selected st) idx)).
        rewrite Z2Nat.id by done. split; [done|].
        apply indexOf_found. by rewrite Z2Nat.id.
      - by apply indexOf_absent in Hlt. }
    assert (onCardClick idx st =
            mkState (cardData st) (delete k (selected st)) (solutions st)
                    (status st)) as Hfirst.
    { unfold onCardClick. rewrite Hc, Hl, Hk.
      destruct (Z.leb_spec 0 (Z.of_nat k)); [|lia].
      unfold renderSelection, JS.splice1. by rewrite Nat2Z.id. }
    assert (idx ∉ delete k (selected st)) as Hgone.
    { by apply NoDup_delete_lookup. }
    assert (length (delete k (selected st)) < GROUP_SIZE) as Hroom.
    { pose proof (delete_Permutation _ _ _ Hlk) as Hp.
      apply Permutation_length in Hp. simpl in Hp. lia. }
    assert (selected (onCardClick idx (onCardClick idx st)) =
            delete k (selected st) ++ [idx]) as Hsecond.
    { rewrite Hfirst. unfold onCardClick.
      cbn [cardData selected solutions status]. rewrite Hc, Hl.
      apply indexOf_absent in Hgone.
      destruct (Z.leb_spec 0 (JS.indexOf (delete k (selected st)) idx)); [lia|].
      destruct (Nat.leb_spec GROUP_SIZE (length (delete k (selected st))));
        [lia|done]. }
    split.
    + rewrite Hsecond, Hk. unfold JS.splice1. by rewrite Nat2Z.id.
    + rewrite Hsecond. rewrite (delete_Permutation _ _ _ Hlk) at 2.
      by rewrite Permutation_app_comm.
Qed.

Lemma click_twice_restores_witness :
  onCardClick 5 (onCardClick 5 demo_published) = demo_published ∧
  selected (onCardClick 1 (onCardClick 1 demo_mixed_guess)) = [0; 2; 3; 1].
Proof.
  split.
  - eapply (click_twice_restores demo_published 5).
    + vm_compute. reflexivity.
    + reflexivity.
    + apply (selection_ok_step demo_published Clear).
      vm_compute. split_and!; [constructor|lia|constructor].
    + intros H. apply (bool_decide_pack _) in H. vm_compute in H. exact H.
    + vm_compute. lia.
  - destruct (click_twice_restores demo_mixed_guess 1
                (mkCard "bulbasaur" (mkMeta "bulbasaur" [] None false None None)
                        0 false)) as [_ H].
    + vm_compute. reflexivity.
    + reflexivity.
    + do 4 apply selection_ok_step.
      vm_compute. split_and!; [constructor|lia|constructor].
    + destruct H as [H _]; [apply (bool_decide_unpack _); vm_compute; exact I|].
      rewrite H. vm_compute. reflexivity.
Defined.

(** ** Reveal *)

Lemma groupMap_of_lock_mono cs cs' :
  lock_mono cs cs' → groupMap_of cs' = groupMap_of cs.
Proof.
  unfold groupMap_of. generalize (@nil (Z * list string)).
  intros gm H. revert gm.
  induction H as [|c c' cs cs' (Hn & _ & Hg & _) _ IH]; intros gm; [done|].
  simpl. by rewrite Hn, Hg, IH.
Qed.

Lemma find_meta_lock_mono cs cs' (n : string) :
  lock_mono cs cs' →
  metadata <$> JS.find (λ cd, bool_decide (name cd = n)) cs' =
  metadata <$> JS.find (λ cd, bool_decide (name cd = n)) cs.
Proof.
  induction 1 as [|c c' cs cs' (Hn & Hm & _ & _) _ IH]; [done|].
  simpl. rewrite Hn. destruct (bool_decide (name c = n)); [|done].
  simpl. by rewrite Hm.
Qed.

Lemma inferHintForGroup_lock_mono cs cs' names :
  lock_mono cs cs' → inferHintForGroup cs' names = inferHintForGroup cs names.
Proof.
  intros H. unfold inferHintForGroup.
  assert (omap (λ n, metadata <$> JS.find (λ cd, bool_decide (name cd = n)) cs')
               names =
          omap (λ n, metadata <$> JS.find (λ cd, bool_decide (name cd = n)) cs)
               names) as ->; [|done].
  induction names as [|n names IH]; [done|].
  change (omap ?f (n :: names)) with
    (match f n with Some m => m :: omap f names | None => omap f names end).
  cbv beta. by rewrite (find_meta_lock_mono _ _ n H), IH.
Qed.

(** X5. What the reveal shows does not depend on how far the session has
    got: after any sequence of clicks, guesses, clears and reveals the
    grouping it reconstructs and the line of hints it writes are those it
    would have written on the board as published, although claimed groups
    have been emptied in [solutions].  The reveal itself changes the status
    line only.  This holds of the commands of the Gen 1-7 variant and of
    those of [script.js]. *)
Theorem reveal_ignores_progress (ops : list Op) (st : State) :
  groupMap_of (cardData (run ops st)) = groupMap_of (cardData st) ∧
  status (revealAnswers (run ops st)) = status (revealAnswers st) ∧
  cardData (revealAnswers st) = cardData st ∧
  selected (revealAnswers st) = selected st ∧
  solutions (revealAnswers st) = solutions st ∧
  groupMap_of (cardData (Script.run ops st)) = groupMap_of (cardData st) ∧
  status (revealAnswers (Script.run ops st)) = status (revealAnswers st).
Proof.
  assert (∀ st', lock_mono (cardData st) (cardData st') →
                 groupMap_of (cardData st') = groupMap_of (cardData st) ∧
                 status (revealAnswers st') = status (revealAnswers st)) as Hlater.
  { intros st' H. split; [by apply groupMap_of_lock_mono|].
    unfold revealAnswers. simpl.
    rewrite (groupMap_of_lock_mono _ _ H). do 3 f_equal.
    apply map_ext. intros kv. by apply inferHintForGroup_lock_mono. }
  destruct (Hlater (run ops st) (run_mono ops st)) as [H1 H2].
  destruct (Hlater (Script.run ops st) (script_run_mono ops st)) as [H3 H4].
  split_and!; done.
Qed.

Lemma find_name_None (cards : list Card) (n : string) :
  JS.find (λ cd, bool_decide (name cd = n)) cards = None ↔ n ∉ name <$> cards.
Proof.
  induction cards as [|c cards IH].
  - split; [intros _; apply not_elem_of_nil|done].
  - rewrite fmap_cons, not_elem_of_cons. simpl. case_bool_decide as Hc.
    + split; [done|]. intros [Hne _]. by destruct Hne.
    + rewrite IH. split; [intros ?; split; [congruence|done]|by intros [_ ?]].
Qed.

Lemma find_name_Some (cards : list Card) (n : string) (c : Card) :
  JS.find (λ cd, bool_decide (name cd = n)) cards = Some c →
  c ∈ cards ∧ name c = n.
Proof.
  induction cards as [|c' cards IH]; simpl; [done|].
  case_bool_decide as Hc.
  - intros [= <-]. split; [apply elem_of_cons; by left|done].
  - intros [Hin Hn]%IH. split; [apply elem_of_cons; by right|done].
Qed.

Lemma found_metas_nil (cards : list Card) (names : list string) :
  omap (λ n, metadata <$> JS.find (λ cd, bool_decide (name cd = n)) cards) names
    = [] ↔
  Forall (λ n, n ∉ name <$> cards) names.
Proof.
  induction names as [|n names IH]; simpl.
  - split; [constructor|done].
  - destruct (JS.find (λ cd, bool_decide (name cd = n)) cards) as [c|] eqn:Hf;
      simpl.
    + split; [done|]. intros [Hn _]%Forall_cons.
      apply find_name_None in Hn. congruence.
    + rewrite IH, Forall_cons. apply find_name_None in Hf. tauto.
Qed.

Lemma found_metas_elem (cards : list Card) (names : list string) (m : Meta) :
  m ∈ omap (λ n, metadata <$> JS.find (λ cd, bool_decide (name cd = n)) cards)
           names →
  ∃ c, c ∈ cards ∧ name c ∈ names ∧ metadata c = m.
Proof.
  intros (n & Hn & Hm)%list_elem_of_omap.
  destruct (JS.find (λ cd, bool_decide (name cd = n)) cards) as [c|] eqn:Hf;
    [|done].
  apply find_name_Some in Hf as [Hc <-]. simpl in Hm. injection Hm as <-.
  by exists c.
Qed.

Lemma every_true {A} (p : A → bool) (l : list A) :
  JS.every p l = true ↔ ∀ x, x ∈ l → p x = true.
Proof.
  unfold JS.every. rewrite forallb_forall.
  split; intros H x Hx; apply H; by apply list_elem_of_In.
Qed.

Lemma hint_typed (cards : list Card) (names : list string) (t : string) :
  t ≠ "" →
  (∃ n, n ∈ names ∧ n ∈ name <$> cards) →
  (∀ c, c ∈ cards → name c ∈ names → head (types (metadata c)) = Some t) →
  inferHintForGroup cards names = "All are " +:+ t +:+ " type".
Proof.
  intros Ht (n & Hn & Hin) Hall.
  pose proof (found_metas_nil cards names) as Hnil.
  pose proof (found_metas_elem cards names) as Helem.
  unfold inferHintForGroup.
  destruct (omap _ names) as [|m0 metas] eqn:Hm.
  { exfalso.
    assert (Forall (λ n, n ∉ name <$> cards) names) as HF by by apply Hnil.
    rewrite Forall_forall in HF. by apply (HF n). }
  assert (∀ m, m ∈ m0 :: metas → primaryTypeName m = Some t) as Hty.
  { intros m (c & Hc & Hcn & <-)%Helem. by apply Hall. }
  unfold sharedBy. rewrite (Hty m0) by (apply elem_of_cons; by left).
  assert (JS.truthy t = true) as ->.
  { unfold JS.truthy. by rewrite bool_decide_eq_false_2. }
  assert (JS.every (λ m, bool_decide (primaryTypeName m = Some t))
                   (m0 :: metas) = true) as ->; [|done].
  apply every_true. intros m Hmm. apply bool_decide_eq_true_2. by apply Hty.
Qed.

(** X6. Reading the hint of a group.  It is ["Unknown"] exactly when none
    of the group's names is on the board.  When at least one is, and every
    board entry bearing one of the names has the same non-empty primary
    type, the hint names that type, whatever else the entries share
    (legendary or not, one family or not).  A hint ["All Legendary"] is
    given only when every entry found is legendary, and ["Same evolution
    family"] only when every entry found carries one and the same chain. *)
Theorem hint_reading (cards : list Card) (names : list string) :
  (inferHintForGroup cards names = "Unknown" ↔
   Forall (λ n, n ∉ name <$> cards) names) ∧
  (∀ t, t ≠ "" →
        (∃ n, n ∈ names ∧ n ∈ name <$> cards) →
        (∀ c, c ∈ cards → name c ∈ names → head (types (metadata c)) = Some t) →
        inferHintForGroup cards names = "All are " +:+ t +:+ " type") ∧
  (inferHintForGroup cards names = "All Legendary" →
   ∀ n c, n ∈ names → JS.find (λ cd, bool_decide (name cd = n)) cards = Some c →
          is_legendary (metadata c) = true) ∧
  (inferHintForGroup cards names = "Same evolution family" →
   ∃ u, u ≠ "" ∧
     ∀ n c, n ∈ names → JS.find (λ cd, bool_decide (name cd = n)) cards = Some c →
            evolution_chain (metadata c) = Some u).
Proof.
  pose proof (found_metas_nil cards names) as Hnil.
  pose proof (found_metas_elem cards names) as Helem.
  assert (∀ n c, n ∈ names →
            JS.find (λ cd, bool_decide (name cd = n)) cards = Some c →
            metadata c ∈
              omap (λ n, metadata <$>
                           JS.find (λ cd, bool_decide (name cd = n)) cards) names)
    as Hfound.
  { intros n c Hn Hf. apply list_elem_of_omap. exists n. by rewrite Hf. }
  unfold inferHintForGroup.
  destruct (omap _ names) as [|m0 metas] eqn:Hm.
  { split_and!.
    - split; [intros _; by apply Hnil|done].
    - intros t _ (n & Hn & Hin) _. exfalso.
      assert (Forall (λ n, n ∉ name <$> cards) names) as HF by by apply Hnil.
      rewrite Forall_forall in HF. by apply (HF n).
    - discriminate.
    - discriminate. }
  assert (¬ Forall (λ n, n ∉ name <$> cards) names) as Hsome.
  { intros HF. apply Hnil in HF. discriminate. }
  split_and!.
  - split; [|done]. intros Heq. exfalso.
    destruct (sharedBy (primaryTypeName m0) primaryTypeName (m0 :: metas));
      [discriminate|].
    rewrite era_test_never_holds in Heq.
    destruct (JS.every is_legendary (m0 :: metas)); [discriminate|].
    destruct (sharedBy (evolution_chain m0) evolution_chain (m0 :: metas));
      discriminate.
  - intros t Ht Hex Hall.
    pose proof (hint_typed cards names t Ht Hex Hall) as H.
    unfold inferHintForGroup in H. rewrite Hm in H. exact H.
  - intros Heq n c Hn Hf.
    destruct (sharedBy (primaryTypeName m0) primaryTypeName (m0 :: metas));
      [discriminate|].
    rewrite era_test_never_holds in Heq.
    destruct (JS.every is_legendary (m0 :: metas)) eqn:Hev.
    + rewrite every_true in Hev. by apply Hev, (Hfound n).
    + destruct (sharedBy (evolution_chain m0) evolution_chain (m0 :: metas));
        discriminate.
  - intros Heq.
    destruct (sharedBy (primaryTypeName m0) primaryTypeName (m0 :: metas));
      [discriminate|].
    rewrite era_test_never_holds in Heq.
    destruct (JS.every is_legendary (m0 :: metas)); [discriminate|].
    unfold sharedBy in Heq.
    destruct (evolution_chain m0) as [u|]; [|discriminate].
    destruct (JS.truthy u) eqn:Hu; [|discriminate].
    destruct (JS.every _ (m0 :: metas)) eqn:Hev; [|discriminate].
    exists u. split.
    + intros ->. discriminate.
    + intros n c Hn Hf. rewrite every_true in Hev.
      specialize (Hev _ (Hfound n c Hn Hf)). by apply bool_decide_eq_true_1 in Hev.
Qed.

Lemma hint_reading_witness :
  inferHintForGroup gen1_starters ["bulbasaur"; "missingno"] = "All are grass type".
Proof.
  destruct (hint_reading gen1_starters ["bulbasaur"; "missingno"]) as (_ & H & _).
  apply (H "grass").
  - discriminate.
  - exists "bulbasaur". split; apply (bool_decide_unpack _); vm_compute; exact I.
  - assert (Forall (λ c, name c ∈ ["bulbasaur"; "missingno"] →
                         head (types (metadata c)) = Some "grass") gen1_starters)
      as HF by (apply (bool_decide_unpack _); vm_compute; exact I).
    rewrite Forall_forall in HF. exact HF.
Defined.

(** ** Guesses and the number of locked entries *)

Lemma alter_lock_count (cs : list Card) (i : nat) (c : Card) :
  cs !! i = Some c → locked c = false →
  length (List.filter locked (alter lockCard i cs)) =
  S (length (List.filter locked cs)).
Proof.
  revert i. induction cs as [|c' cs IH]; intros i Hi Hl; [done|].
  destruct i as [|i]; simpl in *.
  - injection Hi as ->. by rewrite Hl.
  - destruct (locked c'); simpl; [f_equal|]; exact (IH i Hi Hl).
Qed.

Lemma lockAll_count (sel : list nat) (cs : list Card) :
  NoDup sel →
  Forall (λ i, ∃ c, cs !! i = Some c ∧ locked c = false) sel →
  length (List.filter locked (lockAll sel cs)) =
  length (List.filter locked cs) + length sel.
Proof.
  unfold lockAll. revert cs.
  induction sel as [|i sel IH]; intros cs Hnd Hsel; [simpl; lia|].
  apply NoDup_cons in Hnd as [Hi Hnd].
  apply Forall_cons in Hsel as [(c & Hc & Hl) Hsel].
  cbn [foldl length].
  rewrite IH; [rewrite (alter_lock_count cs i c Hc Hl); lia|done|].
  rewrite Forall_forall in Hsel. apply Forall_forall. intros j Hj.
  destruct (Hsel j Hj) as (c' & Hc' & Hl'). exists c'. split; [|done].
  rewrite list_lookup_alter_ne; [done|]. by intros ->.
Qed.

Lemma selection_ok_cards st :
  selection_ok st → is_Some (mapM (λ i, cardData st !! i) (selected st)).
Proof.
  intros (_ & _ & Hsel). apply mapM_is_Some.
  eapply Forall_impl; [exact Hsel|]. intros i (c & Hc & _). by exists c.
Qed.

Lemma guess_count_step st op :
  selection_ok st →
  ∃ k, k ≤ 1 ∧
    length (List.filter locked (cardData (step st op))) =
    length (List.filter locked (cardData st)) + GROUP_SIZE * k.
Proof.
  intros Hok. destruct op; simpl.
  - exists 0. rewrite onCardClick_cardData. lia.
  - destruct (lockSelection_cases st)
      as [[_ ->]|[(_&_&->)|(cards&Hlen&_&[(gid&_&->)|[_ ->]])]]; simpl;
      try (exists 0; lia).
    exists 1. rewrite checkWin_cardData. simpl.
    destruct Hok as (Hnd & _ & Hsel). rewrite lockAll_count by done.
    unfold GROUP_SIZE in *. lia.
  - exists 0. lia.
  - exists 0. lia.
Qed.

(** X7. Guesses move the number of locked entries in steps of four.  With
    the selection as the click handler keeps it (on any board), a guess
    judged correct locks exactly four more entries, every other verdict
    locks none, and the verdict is never a TypeError; so after any
    sequence of commands the number of locked entries has grown by four
    times some number not above the number of commands.  (The guess and
    the commands are those of the Gen 1-7 variant.) *)
Theorem locked_count_moves_by_four (st : State) :
  selection_ok st →
  (lockSelection st).1 ≠ TypeError ∧
  length (List.filter locked (cardData (lockSelection st).2)) =
    length (List.filter locked (cardData st)) +
    match (lockSelection st).1 with Correct _ => GROUP_SIZE | _ => 0 end ∧
  ∀ ops, ∃ k, k ≤ length ops ∧
    length (List.filter locked (cardData (run ops st))) =
    length (List.filter locked (cardData st)) + GROUP_SIZE * k.
Proof.
  intros Hok. split_and!.
  - destruct (selection_ok_cards st Hok) as [cards Hcards].
    destruct (lockSelection_cases st)
      as [[_ ->]|[(_&Hnone&_)|(cards'&_&_&[(gid&_&->)|[_ ->]])]]; simpl;
      try discriminate. congruence.
  - destruct (lockSelection_cases st)
      as [[_ ->]|[(_&_&->)|(cards&Hlen&_&[(gid&_&->)|[_ ->]])]]; simpl;
      try lia.
    rewrite checkWin_cardData. simpl.
    destruct Hok as (Hnd & _ & Hsel). rewrite lockAll_count by done.
    unfold GROUP_SIZE in *. lia.
  - intros ops. revert st Hok. unfold run.
    induction ops as [|op ops IH]; intros st Hok; cbn [foldl length].
    + exists 0. lia.
    + destruct (guess_count_step st op Hok) as (k1 & Hk1 & H1).
      destruct (IH (step st op) (selection_ok_step st op Hok)) as (k & Hk & H).
      exists (k1 + k). split; [lia|]. rewrite H, H1. lia.
Qed.

Lemma locked_count_moves_by_four_witness :
  length (List.filter locked (cardData (lockSelection demo_group_guess).2)) = 4 ∧
  length (List.filter locked (cardData (lockSelection demo_mixed_guess).2)) = 0.
Proof.
  split.
  - destruct (locked_count_moves_by_four demo_group_guess) as (_ & H & _).
    + do 4 apply selection_ok_step.
      vm_compute. split_and!; [constructor|lia|constructor].
    + rewrite H. vm_compute. reflexivity.
  - destruct (locked_count_moves_by_four demo_mixed_guess) as (_ & H & _).
    + do 4 apply selection_ok_step.
      vm_compute. split_and!; [constructor|lia|constructor].
    + rewrite H. vm_compute. reflexivity.
Defined.

(** ** The candidate pool of the Gen 1-7 variant *)

Lemma lower_ascii_idemp (c : ascii) :
  JS.lower_ascii (JS.lower_ascii c) = JS.lower_ascii c.
Proof. destruct c as [[] [] [] [] [] [] [] []]; reflexivity. Qed.

Lemma toLowerCase_idemp (s : string) :
  JS.toLowerCase (JS.toLowerCase s) = JS.toLowerCase s.
Proof.
  induction s as [|c s IH]; simpl; [done|]. by rewrite lower_ascii_idemp, IH.
Qed.

Lemma truthy_true (s : string) : JS.truthy s = true ↔ s ≠ "".
Proof.
  unfold JS.truthy. rewrite negb_true_iff, bool_decide_eq_false. done.
Qed.

Lemma genLoop_spec env (n g : nat) (pool : list string) (w : World) :
  rnd (Part001.genLoop env n g pool w).2 = rnd w ∧
  poolCache (Part001.genLoop env n g pool w).2 = poolCache w ∧
  net w ≤ net (Part001.genLoop env n g pool w).2 ≤ net w + n ∧
  (∀ x, x ∈ (Part001.genLoop env n g pool w).1 →
        x ∈ pool ∨
        ∃ j names nm, j < n ∧
          generationEndpoint env (net w + j) (g + j) = GenOk names ∧
          nm ∈ names ∧ nm ≠ "" ∧ x = JS.toLowerCase nm) ∧
  ((∀ j, j < n → generationEndpoint env (net w + j) (g + j) ≠ GenFailed) →
   net (Part001.genLoop env n g pool w).2 = net w + n ∧
   (∀ x, x ∈ pool → x ∈ (Part001.genLoop env n g pool w).1) ∧
   ∀ j names nm, j < n →
     generationEndpoint env (net w + j) (g + j) = GenOk names →
     nm ∈ names → nm ≠ "" →
     JS.toLowerCase nm ∈ (Part001.genLoop env n g pool w).1).
Proof.
  revert g pool w. induction n as [|n IH]; intros g pool w.
  { simpl. split; [done|]. split; [done|]. split; [lia|]. split.
    - intros x Hx. by left.
    - intros _. split_and!; [lia|done|]. intros j ? ? Hj. lia. }
  cbn [Part001.genLoop].
  destruct (generationEndpoint env (net w) g) as [names| |] eqn:Hg.
  - destruct (IH (g + 1)
               (pool ++ (JS.toLowerCase <$> List.filter JS.truthy names))
               (mkWorld (rnd w) (net w + 1) (poolCache w)))
      as (Hr & Hc & Hn & Hsound & Hcomplete).
    simpl in Hr, Hc, Hn.
    split; [done|]. split; [done|]. split; [lia|]. split.
    + intros x Hx. destruct (Hsound x Hx) as [Hin|(j & ns & nm & Hj & He & ?)].
      * apply elem_of_app in Hin as [Hin|Hin]; [by left|]. right.
        apply list_elem_of_fmap in Hin as (nm & -> & Hnm).
        apply elem_of_List_filter in Hnm as [Hnm Ht].
        exists 0, names, nm. rewrite !Nat.add_0_r.
        split_and!; [lia|done|done|by apply truthy_true|done].
      * right. exists (S j), ns, nm. simpl in He.
        replace (net w + S j) with (net w + 1 + j) by lia.
        replace (g + S j) with (g + 1 + j) by lia.
        split_and!; [lia|done|tauto|tauto|tauto].
    + intros Hok.
      destruct Hcomplete as (Hnet & Hkeep & Hall).
      { intros j Hj. simpl.
        replace (net w + 1 + j) with (net w + S j) by lia.
        replace (g + 1 + j) with (g + S j) by lia. apply Hok. lia. }
      simpl in Hnet. split_and!; [lia| |].
      * intros x Hx. apply Hkeep, elem_of_app. by left.
      * intros [|j] ns nm Hj He Hnm Hne.
        -- rewrite !Nat.add_0_r in He. rewrite Hg in He. injection He as <-.
           apply Hkeep, elem_of_app. right.
           apply list_elem_of_fmap. exists nm. split; [done|].
           apply elem_of_List_filter. split; [done|by apply truthy_true].
        -- apply (Hall j ns nm); [lia| |done|done]. simpl.
           replace (net w + 1 + j) with (net w + S j) by lia.
           by replace (g + 1 + j) with (g + S j) by lia.
  - destruct (IH (g + 1) pool (mkWorld (rnd w) (net w + 1) (poolCache w)))
      as (Hr & Hc & Hn & Hsound & Hcomplete).
    simpl in Hr, Hc, Hn.
    split; [done|]. split; [done|]. split; [lia|]. split.
    + intros x Hx. destruct (Hsound x Hx) as [Hin|(j & ns & nm & Hj & He & ?)].
      * by left.
      * right. exists (S j), ns, nm. simpl in He.
        replace (net w + S j) with (net w + 1 + j) by lia.
        replace (g + S j) with (g + 1 + j) by lia.
        split_and!; [lia|done|tauto|tauto|tauto].
    + intros Hok.
      destruct Hcomplete as (Hnet & Hkeep & Hall).
      { intros j Hj. simpl.
        replace (net w + 1 + j) with (net w + S j) by lia.
        replace (g + 1 + j) with (g + S j) by lia. apply Hok. lia. }
      simpl in Hnet. split_and!; [lia|done|].
      intros [|j] ns nm Hj He Hnm Hne.
      * rewrite !Nat.add_0_r in He. congruence.
      * apply (Hall j ns nm); [lia| |done|done]. simpl.
        replace (net w + 1 + j) with (net w + S j) by lia.
        by replace (g + 1 + j) with (g + S j) by lia.
  - simpl. split; [done|]. split; [done|]. split; [lia|]. split.
    + intros x Hx. by left.
    + intros Hok. exfalso. apply (Hok 0); [lia|]. by rewrite !Nat.add_0_r.
Qed.

(** X8. What [getPoolForGens] collects when nothing is cached.  The pool
    holds distinct identifiers, each the lower-case form of a non-empty
    species name of an answered generation request, and each its own
    lower-case form; the pool is left in the cache; one request at most is
    made per generation of the range and no random number is drawn.  When
    no request of the range is rejected, every non-empty species name of
    every answered generation is in the pool. *)
Theorem pool_of_generations env (fromGen toGen : nat) (w : World) :
  poolCache w = None →
  NoDup (Part001.getPoolForGens env fromGen toGen w).1 ∧
  poolCache (Part001.getPoolForGens env fromGen toGen w).2 =
    Some (Part001.getPoolForGens env fromGen toGen w).1 ∧
  rnd (Part001.getPoolForGens env fromGen toGen w).2 = rnd w ∧
  net w ≤ net (Part001.getPoolForGens env fromGen toGen w).2
        ≤ net w + (toGen + 1 - fromGen) ∧
  (∀ x, x ∈ (Part001.getPoolForGens env fromGen toGen w).1 →
        JS.toLowerCase x = x ∧
        ∃ j names nm, fromGen + j ≤ toGen ∧
          generationEndpoint env (net w + j) (fromGen + j) = GenOk names ∧
          nm ∈ names ∧ nm ≠ "" ∧ x = JS.toLowerCase nm) ∧
  ((∀ j, fromGen + j ≤ toGen →
         generationEndpoint env (net w + j) (fromGen + j) ≠ GenFailed) →
   ∀ j names nm, fromGen + j ≤ toGen →
     generationEndpoint env (net w + j) (fromGen + j) = GenOk names →
     nm ∈ names → nm ≠ "" →
     JS.toLowerCase nm ∈ (Part001.getPoolForGens env fromGen toGen w).1).
Proof.
  intros Hc. unfold Part001.getPoolForGens. rewrite Hc.
  destruct (genLoop_spec env (toGen + 1 - fromGen) fromGen [] w)
    as (Hr & _ & Hn & Hsound & Hcomplete).
  destruct (Part001.genLoop env (toGen + 1 - fromGen) fromGen [] w)
    as [pool w'].
  simpl in *. split; [apply Set_of_NoDup|]. split; [done|]. split; [done|].
  split; [lia|]. split.
  - intros x Hx. rewrite Set_of_elem in Hx.
    destruct (Hsound x Hx) as [Hin|(j & ns & nm & Hj & He & Hnm & Hne & ->)].
    { by apply elem_of_nil in Hin. }
    split; [apply toLowerCase_idemp|].
    exists j, ns, nm. split_and!; [lia|done|done|done|done].
  - intros Hok j ns nm Hj He Hnm Hne. rewrite Set_of_elem.
    destruct Hcomplete as (_ & _ & Hall).
    { intros j' Hj'. apply Hok. lia. }
    apply (Hall j ns nm); [lia|done|done|done].
Qed.

Lemma pool_of_generations_witness :
  NoDup (Part001.getPoolForGens gen16_env 1 Part001.MAX_GEN w0).1 ∧
  "tangela" ∈ (Part001.getPoolForGens gen16_env 1 Part001.MAX_GEN w0).1.
Proof.
  destruct (pool_of_generations gen16_env 1 Part001.MAX_GEN w0)
    as (Hnd & _ & _ & _ & _ & Hall); [reflexivity|].
  split; [exact Hnd|].
  assert (∀ j, 1 + j ≤ Part001.MAX_GEN →
               generationEndpoint gen16_env (net w0 + j) (1 + j) ≠ GenFailed)
    as Hok.
  { intros j Hj. unfold gen16_env. simpl. by destruct j. }
  apply (Hall Hok 0 (concat demo_solutions) "tangela").
  - vm_compute. lia.
  - reflexivity.
  - apply (bool_decide_unpack _). vm_compute. exact I.
  - discriminate.
Defined.

Lemma getPoolForGens_cached env env' (a b a' b' : nat) (w : World) :
  Part001.getPoolForGens env' a' b' (Part001.getPoolForGens env a b w).2 =
  Part001.getPoolForGens env a b w.
Proof.
  unfold Part001.getPoolForGens.
  destruct (poolCache w) as [c|] eqn:Hc; simpl; [by rewrite Hc|].
  by destruct (Part001.genLoop env (b + 1 - a) a [] w) as [pool w'].
Qed.

(** X9. The pool is fetched once.  A second call of [getPoolForGens]
    returns the pool of the first, whatever range it asks for and whatever
    the catalog would answer now, and makes no request.  So a start of the
    Gen 1-7 variant that ended in the error message (its pool was short,
    for instance because the first generation request was rejected) is
    followed by the same error at every later start, without a request. *)
Theorem short_pool_is_permanent env (w : World) :
  (∀ c, poolCache w = Some c → NoDup c) →
  (∀ env' a b a' b',
     Part001.getPoolForGens env' a' b' (Part001.getPoolForGens env a b w).2 =
     Part001.getPoolForGens env a b w) ∧
  (∀ st w',
     Part001.startGame env w = Returns st w' →
     status st = Part001.MSG_ERROR →
     ∀ env', Part001.startGame env' w' =
             Returns (mkState [] [] [] Part001.MSG_ERROR) w').
Proof.
  intros Hc. split.
  { intros. apply getPoolForGens_cached. }
  intros st w' Hstart Herr env'.
  destruct (Part001.getPoolForGens env 1 Part001.MAX_GEN w) as [pool w1] eqn:Hp.
  pose proof (getPoolForGens_NoDup env 1 Part001.MAX_GEN w Hc) as Hnd.
  rewrite Hp in Hnd. simpl in Hnd.
  pose proof (getPoolForGens_cached env env' 1 Part001.MAX_GEN 1 Part001.MAX_GEN w)
    as Hagain.
  rewrite Hp in Hagain. simpl in Hagain.
  unfold Part001.startGame in Hstart.
  destruct (part001_generate_cases env w pool w1 Hp Hnd)
    as [[Hshort Hg]|[_ (st1 & w2 & Hg & Hs & _)]]; rewrite Hg in Hstart.
  - injection Hstart as <- <-.
    unfold Part001.startGame, Part001.generate, bindO, lift. rewrite Hagain.
    destruct (Nat.ltb_spec (length pool) MAX_BOARD); [reflexivity|lia].
  - injection Hstart as <- <-. rewrite Hs in Herr. discriminate.
Qed.

Lemma short_pool_is_permanent_witness :
  ∃ w', Part001.startGame silent_env w0 =
          Returns (mkState [] [] [] Part001.MSG_ERROR) w' ∧
        Part001.startGame gen16_env w' =
          Returns (mkState [] [] [] Part001.MSG_ERROR) w'.
Proof.
  exists (mkWorld 0 1 (Some [])).
  split; [vm_compute; reflexivity|].
  destruct (short_pool_is_permanent silent_env w0) as [_ H]; [discriminate|].
  apply (H (mkState [] [] [] Part001.MSG_ERROR)).
  - vm_compute. reflexivity.
  - reflexivity.
Defined.

(** ** Strategies while the species requests fail *)

Section OutageFacts.
Variable fetch : string → M Meta.

Lemma typeScan_untyped size sample tm w :
  (∀ n w', head (types (fetch n w').1) = None) →
  (typeScan fetch size sample tm w).1 = None.
Proof.
  intros H. revert tm w.
  induction sample as [|n rest IH]; intros tm w; [done|].
  cbn [typeScan]. unfold bind. specialize (H n w).
  destruct (fetch n w) as [meta w1]. simpl in H. rewrite H. apply IH.
Qed.

Lemma chainScan_chainless minSize pool w :
  (∀ n w', evolution_chain (fetch n w').1 = None) →
  (chainScan fetch minSize pool [] w).1 = None.
Proof.
  intros H. revert w.
  induction pool as [|n rest IH]; intros w; [done|].
  cbn [chainScan]. unfold bind. specialize (H n w).
  destruct (fetch n w) as [meta w1]. simpl in H. rewrite H. apply IH.
Qed.
End OutageFacts.

(** X10. While the species requests fail, the Gen 1 variant finds neither
    a type group nor a family group in any pool, because its lookup then
    drops the types it had received; the Gen 1-7 variant finds no family
    group either, but its lookup keeps the types. *)
Theorem species_outage env :
  (∀ k u, speciesEndpoint env k u = None) →
  (∀ pool size w,
     (buildTypeGroup env (Script.fetchPokemonData env) pool size w).1 = None ∧
     (buildEvolutionGroup (Script.fetchPokemonData env) pool size w).1 = None ∧
     (buildEvolutionGroup (Part001.fetchPokemonData env) pool size w).1 = None) ∧
  (∀ n w d, pokemonEndpoint env (net w) n = Some d →
            types (Part001.fetchPokemonData env n w).1 = p_types d ∧
            types (Script.fetchPokemonData env n w).1 = []).
Proof.
  intros Hout.
  assert (∀ n w, Script.fetchPokemonData env n w =
                 (mkMeta n [] None false None None,
                  (Script.fetchPokemonData env n w).2)) as Hs.
  { intros n w. unfold Script.fetchPokemonData.
    destruct (pokemonEndpoint env (net w) n); [|done]. by rewrite Hout. }
  assert (∀ n w, evolution_chain (Part001.fetchPokemonData env n w).1 = None)
    as Hp.
  { intros n w. unfold Part001.fetchPokemonData.
    destruct (pokemonEndpoint env (net w) n); [|done]. by rewrite Hout. }
  split.
  - intros pool size w. split_and!.
    + unfold buildTypeGroup, bind.
      destruct (shuffle env pool w) as [sample w1].
      apply typeScan_untyped. intros n w'. by rewrite Hs.
    + apply chainScan_chainless. intros n w'. by rewrite Hs.
    + by apply chainScan_chainless.
  - intros n w d Hd. split.
    + unfold Part001.fetchPokemonData. rewrite Hd. by rewrite Hout.
    + by rewrite Hs.
Qed.

Lemma species_outage_witness :
  (buildTypeGroup outage_env (Script.fetchPokemonData outage_env)
                  Script.GEN1 GROUP_SIZE w0).1 = None ∧
  types (Part001.fetchPokemonData outage_env "abra" w0).1 = ["normal"].
Proof.
  destruct (species_outage outage_env) as [H1 H2]; [reflexivity|].
  destruct (H1 Script.GEN1 GROUP_SIZE w0) as (Ha & _ & _).
  destruct (H2 "abra" w0 (mkPokemonData ["normal"] "pokemon-species/abra"))
    as [Hb _]; [reflexivity|].
  split; [exact Ha|exact Hb].
Defined.

(** ** What the group builders return *)

Lemma bucket_push_ok (P : string → string → Prop) (bound : nat)
    (seen : list string) (k n : string) (o : list (string * list string)) :
  buckets_ok P bound seen o → P k n →
  (bucket_push k n o).1 `sublist_of` seen ++ [n] ∧
  Forall (P k) (bucket_push k n o).1 ∧
  1 ≤ length (bucket_push k n o).1 ∧
  (length (bucket_push k n o).1 < bound →
   buckets_ok P bound (seen ++ [n]) (bucket_push k n o).2).
Proof.
  intros Hok HP. unfold buckets_ok in *.
  assert (∀ o', Forall (λ kv : string * list string,
                          kv.2 `sublist_of` seen ∧ Forall (P kv.1) kv.2 ∧
                          length kv.2 < bound) o' →
                Forall (λ kv : string * list string,
                          kv.2 `sublist_of` seen ++ [n] ∧ Forall (P kv.1) kv.2 ∧
                          length kv.2 < bound) o') as Hweak.
  { intros o' Ho'. eapply Forall_impl; [exact Ho'|]. intros kv (Hs & HF & Hl).
    split_and!; [|done|done]. by apply sublist_inserts_r. }
  induction o as [|[k' ns] o IH].
  - simpl. split_and!.
    + by apply sublist_inserts_l.
    + by apply Forall_singleton.
    + lia.
    + intros Hb. apply Forall_singleton. simpl. split_and!.
      * by apply sublist_inserts_l.
      * by apply Forall_singleton.
      * done.
  - apply Forall_cons in Hok as [(Hs & HF & Hl) Hok]. simpl in Hs, HF, Hl.
    cbn [bucket_push]. case_bool_decide as Hk.
    + subst k'. simpl.
      assert (ns ++ [n] `sublist_of` seen ++ [n]) as Hsub.
      { by apply sublist_app. }
      assert (Forall (P k) (ns ++ [n])) as HFa.
      { apply Forall_app. split; [done|]. by apply Forall_singleton. }
      split_and!; [done|done|rewrite length_app; simpl; lia|].
      intros Hb. apply Forall_cons. split; [by split_and!|]. by apply Hweak.
    + destruct (IH Hok) as (Hs' & HF' & Hl' & Hrest).
      destruct (bucket_push k n o) as [b o']. simpl in *.
      split_and!; [done|done|done|].
      intros Hb. apply Forall_cons. split; [|by apply Hrest].
      simpl. split_and!; [|done|done]. by apply sublist_inserts_r.
Qed.

Section BuilderSoundness.
Variable env : Env.
Variable fetch : string → M Meta.

Lemma typeScan_sound size sample tm w g seen :
  buckets_ok (λ k x, k ≠ "" ∧ ∃ w', head (types (fetch x w').1) = Some k)
             size seen tm →
  (typeScan fetch size sample tm w).1 = Some g →
  length g = size ∧ g `sublist_of` seen ++ sample ∧
  ∃ t, t ≠ "" ∧ ∀ x, x ∈ g → ∃ w', head (types (fetch x w').1) = Some t.
Proof.
  revert tm w seen.
  induction sample as [|n rest IH]; intros tm w seen Hok Hg; [done|].
  assert (∀ g', g' `sublist_of` seen ++ rest →
                g' `sublist_of` seen ++ n :: rest) as Hskip.
  { intros g' Hg'. etrans; [exact Hg'|].
    apply sublist_app; [done|]. by apply sublist_cons. }
  cbn [typeScan] in Hg. unfold bind in Hg.
  destruct (fetch n w) as [meta w1] eqn:Hf.
  destruct (head (types meta)) as [t|] eqn:Ht.
  2:{ destruct (IH _ _ _ Hok Hg) as (? & ? & ?). split_and!; [done| |done].
      by apply Hskip. }
  destruct (JS.truthy t) eqn:Htr.
  2:{ destruct (IH _ _ _ Hok Hg) as (? & ? & ?). split_and!; [done| |done].
      by apply Hskip. }
  assert (t ≠ "" ∧ ∃ w', head (types (fetch n w').1) = Some t) as HP.
  { split; [by apply truthy_true|]. exists w. by rewrite Hf. }
  destruct (bucket_push_ok _ size seen t n tm Hok HP) as (Hs & HF & Hl & Hrest).
  destruct (bucket_push t n tm) as [members tm']. simpl in *.
  destruct (Nat.leb_spec size (length members)) as [Hfull|Hshort].
  - simpl in Hg. injection Hg as <-. split_and!.
    + rewrite length_take. lia.
    + etrans; [apply sublist_take|]. etrans; [exact Hs|].
      apply sublist_app; [done|]. apply sublist_skip, sublist_nil_l.
    + exists t. split; [tauto|]. intros x Hx.
      apply subseteq_take in Hx. rewrite Forall_forall in HF.
      by apply HF.
  - destruct (IH _ _ _ (Hrest Hshort) Hg) as (? & Hsub & ?).
    split_and!; [done| |done]. by rewrite <- app_assoc in Hsub.
Qed.

Lemma largestBucket_pick (cm : list (string * list string)) :
  largestBucket cm = [] ∨ ∃ kv, kv ∈ cm ∧ largestBucket cm = kv.2.
Proof.
  unfold largestBucket.
  assert (∀ best,
            foldl (λ best kv, if length best <? length kv.2 then kv.2 else best)
                  best cm = best ∨
            ∃ kv : string * list string, kv ∈ cm ∧
              foldl (λ best kv, if length best <? length kv.2 then kv.2 else best)
                    best cm = kv.2) as H.
  { induction cm as [|kv cm IH]; intros best; [by left|].
    cbn [foldl].
    destruct (IH (if length best <? length kv.2 then kv.2 else best))
      as [->|(kv' & Hin & ->)].
    - destruct (length best <? length kv.2); [right|by left].
      exists kv. split; [apply elem_of_cons; by left|done].
    - right. exists kv'. split; [apply elem_of_cons; by right|done]. }
  apply H.
Qed.

Lemma chainScan_sound minSize pool cm w g seen :
  1 ≤ minSize →
  buckets_ok (λ k x, k ≠ "" ∧ ∃ w', evolution_chain (fetch x w').1 = Some k)
             minSize seen cm →
  (chainScan fetch minSize pool cm w).1 = Some g →
  1 ≤ length g ≤ minSize ∧ g `sublist_of` seen ++ pool ∧
  ∃ u, u ≠ "" ∧ ∀ x, x ∈ g → ∃ w', evolution_chain (fetch x w').1 = Some u.
Proof.
  intros Hmin. revert cm w seen.
  induction pool as [|n rest IH]; intros cm w seen Hok Hg.
  { cbn [chainScan] in Hg. unfold ret in Hg. simpl in Hg.
    destruct (Nat.ltb_spec 0 (length (largestBucket cm))) as [Hpos|]; [|done].
    injection Hg as <-.
    destruct (largestBucket_pick cm) as [Hnil|(kv & Hin & Hkv)].
    { rewrite Hnil in Hpos. simpl in Hpos. lia. }
    unfold buckets_ok in Hok. rewrite Forall_forall in Hok.
    destruct (Hok kv Hin) as (Hs & HF & Hl). rewrite Hkv.
    split_and!; [rewrite Hkv in Hpos; lia|lia|by rewrite app_nil_r|].
    exists kv.1. rewrite Forall_forall in HF. split.
    - destruct (kv.2) as [|x l] eqn:E; [rewrite Hkv in Hpos; simpl in Hpos; lia|].
      apply (HF x). apply elem_of_cons; by left.
    - intros x Hx. by apply HF. }
  assert (∀ g', g' `sublist_of` seen ++ rest →
                g' `sublist_of` seen ++ n :: rest) as Hskip.
  { intros g' Hg'. etrans; [exact Hg'|].
    apply sublist_app; [done|]. by apply sublist_cons. }
  cbn [chainScan] in Hg. unfold bind in Hg.
  destruct (fetch n w) as [meta w1] eqn:Hf.
  destruct (evolution_chain meta) as [u|] eqn:Hu.
  2:{ destruct (IH _ _ _ Hok Hg) as (? & ? & ?). split_and!; [tauto|tauto| |done].
      by apply Hskip. }
  destruct (JS.truthy u) eqn:Htr.
  2:{ destruct (IH _ _ _ Hok Hg) as (? & ? & ?). split_and!; [tauto|tauto| |done].
      by apply Hskip. }
  assert (u ≠ "" ∧ ∃ w', evolution_chain (fetch n w').1 = Some u) as HP.
  { split; [by apply truthy_true|]. exists w. by rewrite Hf. }
  destruct (bucket_push_ok _ minSize seen u n cm Hok HP) as (Hs & HF & Hl & Hrest).
  destruct (bucket_push u n cm) as [members cm']. simpl in *.
  destruct (Nat.leb_spec minSize (length members)) as [Hfull|Hshort].
  - simpl in Hg. injection Hg as <-. rewrite length_take. split_and!; [lia|lia| |].
    + etrans; [apply sublist_take|]. etrans; [exact Hs|].
      apply sublist_app; [done|]. apply sublist_skip, sublist_nil_l.
    + exists u. split; [tauto|]. intros x Hx.
      apply subseteq_take in Hx. rewrite Forall_forall in HF.
      by apply HF.
  - destruct (IH _ _ _ (Hrest Hshort) Hg) as (? & Hsub & ?).
    split_and!; [tauto|tauto| |done]. by rewrite <- app_assoc in Hsub.
Qed.

(** X11. A group returned by [buildTypeGroup] has exactly the requested
    size, which the pool therefore reaches; its members are members of
    the pool, distinct when those of the pool are, and one non-empty
    primary type was looked up for every one of them. *)
Theorem type_group_sound (pool : list string) (size : nat) (w : World)
    (g : list string) :
  (buildTypeGroup env fetch pool size w).1 = Some g →
  length g = size ∧ size ≤ length pool ∧
  (∀ x, x ∈ g → x ∈ pool) ∧
  (NoDup pool → NoDup g) ∧
  ∃ t, t ≠ "" ∧ ∀ x, x ∈ g → ∃ w', head (types (fetch x w').1) = Some t.
Proof.
  unfold buildTypeGroup, bind. intros Hg.
  pose proof (shuffle_Permutation env pool w) as Hp.
  destruct (shuffle env pool w) as [sample w1]. simpl in Hp.
  destruct (typeScan_sound size sample [] w1 g [] (Forall_nil_2 _) Hg)
    as (Hlen & Hsub & Ht).
  simpl in Hsub. split_and!; [done| | | |done].
  - rewrite <- Hlen, <- Hp. by apply sublist_length.
  - intros x Hx. rewrite <- Hp. eapply elem_of_sublist; [exact Hx|done].
  - intros Hnd. eapply sublist_NoDup; [|exact Hsub]. by rewrite Hp.
Qed.

(** X12. A group returned by [buildEvolutionGroup] asked for at least one
    member has between one and [minSize] members, which are members of
    the pool in the pool's order (so distinct when the pool's are), and
    one non-empty chain was looked up for every one of them. *)
Theorem evolution_group_sound (pool : list string) (minSize : nat) (w : World)
    (g : list string) :
  1 ≤ minSize →
  (buildEvolutionGroup fetch pool minSize w).1 = Some g →
  1 ≤ length g ≤ minSize ∧
  g `sublist_of` pool ∧
  (NoDup pool → NoDup g) ∧
  ∃ u, u ≠ "" ∧ ∀ x, x ∈ g → ∃ w', evolution_chain (fetch x w').1 = Some u.
Proof.
  unfold buildEvolutionGroup. intros Hmin Hg.
  destruct (chainScan_sound minSize pool [] w g [] Hmin (Forall_nil_2 _) Hg)
    as (Hlen & Hsub & Hu).
  simpl in Hsub. split_and!; [tauto|tauto|done| |done].
  intros Hnd. by eapply sublist_NoDup.
Qed.
End BuilderSoundness.

Lemma type_group_sound_witness :
  ∃ g, (buildTypeGroup sparse_env (Script.fetchPokemonData sparse_env)
                       Script.GEN1 3 w0).1 = Some g ∧
       length g = 3 ∧ NoDup g.
Proof.
  eexists. split; [vm_compute; reflexivity|].
  destruct (type_group_sound sparse_env (Script.fetchPokemonData sparse_env)
              Script.GEN1 3 w0 ["ivysaur"; "venusaur"; "bulbasaur"])
    as (Hl & _ & _ & Hnd & _).
  - vm_compute. reflexivity.
  - split; [exact Hl|]. apply Hnd. exact GEN1_NoDup.
Defined.

Lemma evolution_group_sound_witness :
  ["bulbasaur"; "ivysaur"; "venusaur"] `sublist_of` Script.GEN1.
Proof.
  destruct (evolution_group_sound (Script.fetchPokemonData sparse_env)
              Script.GEN1 GROUP_SIZE w0 ["bulbasaur"; "ivysaur"; "venusaur"])
    as (_ & Hsub & _).
  - vm_compute. lia.
  - vm_compute. reflexivity.
  - exact Hsub.
Defined.

(** ** The padding loops *)

Lemma fresh_after_push {A} `{EqDecision A} (proj : string → A) (g : list A)
    (x : string) (stk : list string) :
  Inj (=) (=) proj → x ∉ stk →
  List.filter (λ y, negb (JS.includes (g ++ [proj x]) (proj y))) stk =
  List.filter (λ y, negb (JS.includes g (proj y))) stk.
Proof.
  intros Hinj Hx. apply filter_ext_in. intros y Hy. apply list_elem_of_In in Hy.
  f_equal. unfold JS.includes. apply bool_decide_ext.
  rewrite elem_of_app, list_elem_of_singleton. split; [|tauto].
  intros [?|Heq]; [done|]. apply Hinj in Heq. subst y. by destruct Hx.
Qed.

Lemma padStack_exact (target : nat) (stk : list string) (g : list (option string)) :
  NoDup stk → None ∉ g →
  (target - length g ≤
     length (List.filter (λ x, negb (JS.includes g (Some x))) stk) →
   ∃ stk',
     padStack target g stk =
       Some (g ++ (Some <$> take (target - length g)
                     (List.filter (λ x, negb (JS.includes g (Some x))) stk)),
             stk') ∧
     stk' `suffix_of` stk) ∧
  (target - length g =
     S (length (List.filter (λ x, negb (JS.includes g (Some x))) stk)) →
   padStack target g stk =
     Some (g ++ (Some <$> List.filter (λ x, negb (JS.includes g (Some x))) stk)
             ++ [None], [])) ∧
  (S (length (List.filter (λ x, negb (JS.includes g (Some x))) stk))
     < target - length g →
   padStack target g stk = None).
Proof.
  revert g. induction stk as [|x stk IH]; intros g Hnd Hg.
  - cbn [List.filter length padStack].
    assert (JS.includes g None = false) as Hinc by by apply includes_false.
    rewrite Hinc, length_app. simpl.
    split_and!.
    + intros Hle. exists []. split; [|done].
      destruct (Nat.leb_spec target (length g)); [|lia].
      by rewrite take_nil, app_nil_r.
    + intros Heq. destruct (Nat.leb_spec target (length g)); [lia|].
      destruct (Nat.leb_spec target (length g + 1)); [done|lia].
    + intros Hlt. destruct (Nat.leb_spec target (length g)); [lia|].
      destruct (Nat.leb_spec target (length g + 1)); [lia|done].
  - apply NoDup_cons in Hnd as [Hx Hnd]. cbn [padStack List.filter].
    destruct (Nat.leb_spec target (length g)) as [Hge|Hlt].
    { replace (target - length g) with 0 by lia.
      split_and!; [|lia|lia].
      intros _. exists (x :: stk). split; [|done].
      by rewrite take_0, app_nil_r. }
    destruct (JS.includes g (Some x)) eqn:Hinc; cbn [negb].
    + destruct (IH g Hnd Hg) as (Ha & Hb & Hc).
      split_and!; [|done|done].
      intros Hle. destruct (Ha Hle) as (stk' & -> & Hsuf).
      exists stk'. split; [done|]. by apply suffix_cons_r.
    + assert (None ∉ g ++ [Some x]) as Hg'.
      { rewrite elem_of_app, list_elem_of_singleton. intros [?|?]; [done|].
        discriminate. }
      destruct (IH (g ++ [Some x]) Hnd Hg') as (Ha & Hb & Hc).
      rewrite (fresh_after_push Some g x stk _ Hx) in Ha, Hb, Hc.
      rewrite length_app in Ha, Hb, Hc. simpl in Ha, Hb, Hc.
      cbn [length].
      assert (target - length g = S (target - (length g + 1))) as Hneed by lia.
      split_and!.
      * intros Hle. destruct Ha as (stk' & -> & Hsuf); [lia|].
        exists stk'. split; [|by apply suffix_cons_r].
        rewrite Hneed. cbn [take]. rewrite fmap_cons.
        by rewrite <- app_assoc.
      * intros Heq. rewrite Hb by lia. rewrite fmap_cons.
        by rewrite <- !app_assoc.
      * intros Hlt'. apply Hc. lia.
Qed.

(** X13. What the padding loop does to a group that holds no [undefined]
    yet, on a pool of distinct identifiers.  Call fresh the pool's items,
    last first, that the group does not hold.  If the group lacks no more
    members than there are fresh items, it is completed with exactly the
    first of them and only the end of the pool is consumed.  If it lacks
    one more than that, the pool is emptied and the group is completed
    with [undefined].  If it lacks two more or worse, the loop never
    exits. *)
Theorem padding_loop_outcome (target : nat) (pool : list string)
    (g : list (option string)) :
  NoDup pool → None ∉ g →
  (target - length g ≤
     length (List.filter (λ x, negb (JS.includes g (Some x))) (reverse pool)) →
   ∃ pool',
     padFromTail target g pool =
       Some (g ++ (Some <$> take (target - length g)
                     (List.filter (λ x, negb (JS.includes g (Some x)))
                                  (reverse pool))),
             pool') ∧
     pool' `prefix_of` pool) ∧
  (target - length g =
     S (length (List.filter (λ x, negb (JS.includes g (Some x)))
                            (reverse pool))) →
   padFromTail target g pool =
     Some (g ++ (Some <$> List.filter (λ x, negb (JS.includes g (Some x)))
                                      (reverse pool)) ++ [None], [])) ∧
  (S (length (List.filter (λ x, negb (JS.includes g (Some x))) (reverse pool)))
     < target - length g →
   padFromTail target g pool = None).
Proof.
  intros Hnd Hg. unfold padFromTail.
  assert (NoDup (reverse pool)) as Hnd' by by rewrite reverse_Permutation.
  destruct (padStack_exact target (reverse pool) g Hnd' Hg) as (Ha & Hb & Hc).
  split_and!.
  - intros Hle. destruct (Ha Hle) as (stk' & -> & Hsuf).
    exists (reverse stk'). split; [done|].
    apply suffix_prefix_reverse in Hsuf. by rewrite reverse_involutive in Hsuf.
  - intros Heq. by rewrite (Hb Heq).
  - intros Hlt. by rewrite (Hc Hlt).
Qed.

Lemma padding_loop_outcome_witness :
  (∃ pool',
     padFromTail 4 [Some "mew"; Some "mewtwo"] ["abra"; "mew"; "onix"; "jynx"] =
       Some ([Some "mew"; Some "mewtwo"; Some "jynx"; Some "onix"], pool')) ∧
  padFromTail 4 [Some "mew"; Some "mewtwo"] ["abra"; "mew"] =
    Some ([Some "mew"; Some "mewtwo"; Some "abra"; None], []) ∧
  padFromTail 4 [Some "mew"; Some "mewtwo"] ["mew"] = None.
Proof.
  assert (None ∉ [Some "mew"; Some "mewtwo"]) as Hg.
  { intros H. apply (bool_decide_pack _) in H. vm_compute in H. exact H. }
  split_and!.
  - destruct (padding_loop_outcome 4 ["abra"; "mew"; "onix"; "jynx"]
                [Some "mew"; Some "mewtwo"]) as (Ha & _ & _).
    + apply (bool_decide_unpack _). vm_compute. exact I.
    + exact Hg.
    + destruct Ha as (pool' & Heq & _); [vm_compute; lia|].
      exists pool'. rewrite Heq. vm_compute. reflexivity.
  - destruct (padding_loop_outcome 4 ["abra"; "mew"]
                [Some "mew"; Some "mewtwo"]) as (_ & Hb & _).
    + apply (bool_decide_unpack _). vm_compute. exact I.
    + exact Hg.
    + rewrite Hb; vm_compute; reflexivity.
  - destruct (padding_loop_outcome 4 ["mew"]
                [Some "mew"; Some "mewtwo"]) as (_ & _ & Hc).
    + apply (bool_decide_unpack _). vm_compute. exact I.
    + exact Hg.
    + apply Hc. vm_compute. lia.
Defined.

(** ** The fillers on a pool that runs dry *)

Lemma List_filter_sublist {A} (f : A → bool) (l : list A) :
  List.filter f l `sublist_of` l.
Proof.
  induction l as [|x l IH]; simpl; [done|].
  destruct (f x); [by apply sublist_skip|by apply sublist_cons].
Qed.

Lemma fresh_count {A} `{EqDecision A} (proj : string → A) (m l : list string) :
  Inj (=) (=) proj →
  NoDup l → NoDup m → (∀ x, x ∈ m → x ∈ l) →
  length (List.filter (λ x, negb (JS.includes (proj <$> m) (proj x))) l)
    + length m = length l.
Proof.
  intros Hinj Hl Hm Hsub. rewrite <- length_app. apply Permutation_length.
  assert (∀ x, JS.includes (proj <$> m) (proj x) = true ↔ x ∈ m) as Hinc.
  { intros x. rewrite includes_true, list_elem_of_fmap. split.
    - intros (y & Hy & Hin). apply Hinj in Hy. by subst.
    - intros Hx. by exists x. }
  apply NoDup_Permutation; [|done|].
  - apply NoDup_app. split_and!; [|  |done].
    + eapply sublist_NoDup; [exact Hl|apply List_filter_sublist].
    + intros x [_ Hx]%elem_of_List_filter Hxm. apply Hinc in Hxm.
      apply negb_true_iff in Hx. congruence.
  - intros x. rewrite elem_of_app, elem_of_List_filter. split.
    + intros [[? _]|?]; [done|by apply Hsub].
    + intros Hx. destruct (JS.includes (proj <$> m) (proj x)) eqn:E.
      * right. by apply Hinc.
      * left. by split.
Qed.

Section FillerOnDryPool.
Variable env : Env.
Variable fetch : string → M Meta.

Lemma fillerScan_sublist targetType count pool matches seen w :
  matches `sublist_of` seen →
  (fillerScan fetch targetType count pool matches w).1 `sublist_of` seen ++ pool.
Proof.
  revert matches seen w.
  induction pool as [|n rest IH]; intros matches seen w Hsub.
  { simpl. by rewrite app_nil_r. }
  cbn [fillerScan]. unfold bind. destruct (fetch n w) as [m w1].
  set (matches' := if bool_decide _ then _ else _).
  assert (matches' `sublist_of` seen ++ [n]) as Hsub'.
  { unfold matches'. destruct (bool_decide _).
    - by apply sublist_app.
    - by apply sublist_inserts_r. }
  destruct (count <=? length matches').
  - simpl. etrans; [exact Hsub'|].
    apply sublist_app; [done|]. apply sublist_skip, sublist_nil_l.
  - specialize (IH matches' (seen ++ [n]) w1 Hsub').
    by rewrite <- app_assoc in IH.
Qed.

Lemma fillerScan_matches targetType count pool w :
  NoDup pool →
  NoDup (fillerScan fetch targetType count pool [] w).1 ∧
  (∀ x, x ∈ (fillerScan fetch targetType count pool [] w).1 → x ∈ pool) ∧
  length (fillerScan fetch targetType count pool [] w).1 ≤ length pool.
Proof.
  intros Hnd.
  pose proof (fillerScan_sublist targetType count pool [] [] w (sublist_nil_l _))
    as Hsub. simpl in Hsub.
  split_and!.
  - by eapply sublist_NoDup.
  - intros x Hx. by eapply elem_of_sublist.
  - by apply sublist_length.
Qed.
End FillerOnDryPool.

(** X14. The filler of [script.js] on a pool that cannot supply the count,
    when the reference item has a primary type: if the pool of distinct
    identifiers is two or more short of the count, the call never returns;
    if it is exactly one short, the call empties the pool and returns all
    of it followed by [undefined].  When the reference item has no type
    the filler is a sample of the pool and holds as many items as the
    count and the pool allow. *)
Theorem script_filler_on_dry_pool env (pool : list string) (ref : string)
    (count : nat) (w : World) :
  NoDup pool →
  (∀ t, primaryTypeName (Script.fetchPokemonData env ref w).1 = Some t →
        t ≠ "" → length pool + 2 ≤ count →
        Script.findSameTypeFiller env pool ref count w = Diverges) ∧
  (∀ t, primaryTypeName (Script.fetchPokemonData env ref w).1 = Some t →
        t ≠ "" → count = length pool + 1 →
        ∃ f w', Script.findSameTypeFiller env pool ref count w =
                  Returns ((Some <$> f) ++ [None], []) w' ∧
                f ≡ₚ pool) ∧
  (primaryTypeName (Script.fetchPokemonData env ref w).1 = None →
   ∃ s w', Script.findSameTypeFiller env pool ref count w =
             Returns (Some <$> s, pool) w' ∧
           length s = count `min` length pool).
Proof.
  intros Hnd.
  assert (NoDup (reverse pool)) as Hnd' by by rewrite reverse_Permutation.
  unfold Script.findSameTypeFiller, bindO, lift.
  destruct (Script.fetchPokemonData env ref w) as [meta w1]. simpl.
  assert (∀ t w2,
            let matches :=
              (fillerScan (Script.fetchPokemonData env) t count pool [] w2).1 in
            (None ∉ Some <$> matches) ∧
            length (Some <$> matches) ≤ length pool ∧
            length (List.filter
                      (λ x, negb (JS.includes (Some <$> matches) (Some x)))
                      (reverse pool))
              + length (Some <$> matches) = length pool ∧
            (Some <$> matches) ++
              (Some <$> List.filter
                 (λ x, negb (JS.includes (Some <$> matches) (Some x)))
                 (reverse pool)) =
            Some <$> (matches ++
                      List.filter
                        (λ x, negb (JS.includes (Some <$> matches) (Some x)))
                        (reverse pool)) ∧
            matches ++
              List.filter (λ x, negb (JS.includes (Some <$> matches) (Some x)))
                          (reverse pool) ≡ₚ pool) as Hscan.
  { intros t w2 matches.
    destruct (fillerScan_matches (Script.fetchPokemonData env) t count pool w2 Hnd)
      as (Hm1 & Hm2 & Hm3). fold matches in Hm1, Hm2, Hm3.
    assert (length (List.filter
                      (λ x, negb (JS.includes (Some <$> matches) (Some x)))
                      (reverse pool)) + length matches = length pool) as Hcount.
    { rewrite <- (length_reverse pool).
      apply (fresh_count Some matches (reverse pool) _ Hnd' Hm1).
      intros x Hx. apply elem_of_reverse. by apply Hm2. }
    split_and!.
    - intros (y & Hy & _)%list_elem_of_fmap. discriminate.
    - by rewrite length_fmap.
    - by rewrite length_fmap.
    - by rewrite fmap_app.
    - apply NoDup_Permutation; [|done|].
      + apply NoDup_app. split_and!; [done| |].
        * intros x Hx [_ Hf]%elem_of_List_filter.
          assert (JS.includes (Some <$> matches) (Some x) = true) as Hinc.
          { apply includes_true, list_elem_of_fmap. by exists x. }
          apply negb_true_iff in Hf. congruence.
        * eapply sublist_NoDup; [exact Hnd'|apply List_filter_sublist].
      + intros x. rewrite elem_of_app, elem_of_List_filter, elem_of_reverse.
        split.
        * intros [?|[? _]]; [by apply Hm2|done].
        * intros Hx.
          destruct (JS.includes (Some <$> matches) (Some x)) eqn:E.
          -- left. apply includes_true, list_elem_of_fmap in E
               as (y & [= <-] & Hy). done.
          -- right. by split. }
  split_and!.
  - intros t Ht Hne Hlen. rewrite Ht.
    assert (JS.truthy t = true) as -> by by apply truthy_true.
    destruct (Hscan t w1) as (Hn & Hl & Hc & _ & _).
    destruct (fillerScan (Script.fetchPokemonData env) t count pool [] w1)
      as [matches w2]. simpl in *.
    unfold padFromTail.
    destruct (padStack_exact count (reverse pool) (Some <$> matches) Hnd' Hn)
      as (_ & _ & Hdiv).
    rewrite Hdiv; [done|lia].
  - intros t Ht Hne Hlen. rewrite Ht.
    assert (JS.truthy t = true) as -> by by apply truthy_true.
    destruct (Hscan t w1) as (Hn & Hl & Hc & Happ & Hperm).
    destruct (fillerScan (Script.fetchPokemonData env) t count pool [] w1)
      as [matches w2]. simpl in *.
    unfold padFromTail.
    destruct (padStack_exact count (reverse pool) (Some <$> matches) Hnd' Hn)
      as (_ & Hone & _).
    rewrite Hone by lia. rewrite app_assoc, Happ.
    eexists _, w2. split; [reflexivity|done].
  - intros Ht. rewrite Ht.
    destruct (sampleArray_spec env pool count w1) as (a & Ha & Hs).
    destruct (sampleArray env pool count w1) as [s w2]. simpl in Hs. subst s.
    exists (take count a), w2. split; [done|].
    by rewrite length_take, Ha.
Qed.

Lemma script_filler_on_dry_pool_witness :
  Script.findSameTypeFiller sparse_env grassFamily "bulbasaur" 5 w0 = Diverges ∧
  ∃ f w', Script.findSameTypeFiller sparse_env grassFamily "bulbasaur" 4 w0 =
            Returns ((Some <$> f) ++ [None], []) w'.
Proof.
  destruct (script_filler_on_dry_pool sparse_env grassFamily "bulbasaur" 5 w0)
    as (Hdiv & _ & _).
  { apply (bool_decide_unpack _). vm_compute. exact I. }
  destruct (script_filler_on_dry_pool sparse_env grassFamily "bulbasaur" 4 w0)
    as (_ & Hone & _).
  { apply (bool_decide_unpack _). vm_compute. exact I. }
  split.
  - apply (Hdiv "grass"); [reflexivity|discriminate|vm_compute; lia].
  - destruct (Hone "grass") as (f & w' & Heq & _);
      [reflexivity|discriminate|reflexivity|].
    by exists f, w'.
Defined.

Lemma padStackGuarded_exact (count : nat) (stk m : list string) :
  NoDup stk →
  ∃ stk',
    Part001.padStackGuarded count m stk =
      (m ++ take (count - length m)
              (List.filter (λ x, negb (JS.includes m x)) stk), stk') ∧
    stk' `suffix_of` stk.
Proof.
  revert m. induction stk as [|x stk IH]; intros m Hnd.
  - exists []. split; [|done]. cbn [Part001.padStackGuarded List.filter].
    rewrite take_nil, app_nil_r. by destruct (count <=? length m).
  - apply NoDup_cons in Hnd as [Hx Hnd].
    cbn [Part001.padStackGuarded List.filter].
    destruct (Nat.leb_spec count (length m)) as [Hge|Hlt].
    { exists (x :: stk). split; [|done].
      replace (count - length m) with 0 by lia. by rewrite take_0, app_nil_r. }
    destruct (JS.includes m x) eqn:Hinc; cbn [negb].
    + destruct (IH m Hnd) as (stk' & -> & Hsuf).
      exists stk'. split; [done|]. by apply suffix_cons_r.
    + destruct (IH (m ++ [x]) Hnd) as (stk' & -> & Hsuf).
      exists stk'. split; [|by apply suffix_cons_r].
      rewrite (fresh_after_push id m x stk _ Hx).
      rewrite length_app. simpl.
      replace (count - length m) with (S (count - (length m + 1))) by lia.
      cbn [take]. by rewrite <- app_assoc.
Qed.

(** X15. The filler of the Gen 1-7 variant always returns: asked for at
    least one member on a pool of distinct identifiers, it gives as many
    identifiers as the count and the pool allow, all distinct members of
    the pool and none [undefined], and leaves a front part of the pool. *)
Theorem part001_filler_total env (pool : list string) (ref : string)
    (count : nat) (w : World) :
  NoDup pool → 1 ≤ count →
  ∃ m pool' w',
    Part001.findSameTypeFiller env pool ref count w =
      Returns (Some <$> m, pool') w' ∧
    length m = count `min` length pool ∧
    NoDup m ∧ (∀ x, x ∈ m → x ∈ pool) ∧ pool' `prefix_of` pool.
Proof.
  intros Hnd Hcount.
  assert (NoDup (reverse pool)) as Hnd' by by rewrite reverse_Permutation.
  assert (∀ w1, ∃ m pool' w',
            (try! s := lift (sampleArray env pool count) in
             retO (Some <$> s, pool)) w1 = Returns (Some <$> m, pool') w' ∧
            length m = count `min` length pool ∧
            NoDup m ∧ (∀ x, x ∈ m → x ∈ pool) ∧ pool' `prefix_of` pool)
    as Hsample.
  { intros w1. unfold bindO, lift, retO.
    destruct (sampleArray_spec env pool count w1) as (a & Ha & Hs).
    destruct (sampleArray env pool count w1) as [s w2]. simpl in Hs. subst s.
    exists (take count a), pool, w2. split_and!; [done| | | |done].
    - by rewrite length_take, Ha.
    - eapply sublist_NoDup; [|apply sublist_take]. by rewrite Ha.
    - intros x Hx. apply subseteq_take in Hx. by rewrite <- Ha. }
  unfold Part001.findSameTypeFiller. unfold bindO at 1. unfold lift at 1.
  destruct (Part001.fetchPokemonData env ref w) as [meta w1].
  destruct (primaryTypeName meta) as [t|]; [|apply Hsample].
  destruct (JS.truthy t); [|apply Hsample].
  unfold bindO, lift, retO.
  destruct (fillerScan_matches (Part001.fetchPokemonData env) t count pool w1 Hnd)
    as (Hm1 & Hm2 & Hm3).
  pose proof (fillerScan_length (Part001.fetchPokemonData env) t count pool [] w1)
    as Hm4.
  destruct (fillerScan (Part001.fetchPokemonData env) t count pool [] w1)
    as [matches w2]. simpl in *.
  specialize (Hm4 ltac:(lia)).
  destruct (padStackGuarded_exact count (reverse pool) matches Hnd')
    as (stk' & Heq & Hsuf).
  rewrite Heq.
  assert (length (List.filter (λ x, negb (JS.includes matches x)) (reverse pool))
            + length matches = length pool) as Hfresh.
  { rewrite <- (length_reverse pool).
    pose proof (fresh_count id matches (reverse pool) _ Hnd' Hm1) as H.
    rewrite list_fmap_id in H. apply H.
    intros x Hx. apply elem_of_reverse. by apply Hm2. }
  eexists _, (reverse stk'), w2. split_and!; [reflexivity| | | |].
  - rewrite length_app, length_take. lia.
  - apply NoDup_app. split_and!; [done| |].
    + intros x Hx Hin. apply subseteq_take in Hin.
      apply elem_of_List_filter in Hin as [_ Hf].
      apply negb_true_iff, includes_false in Hf. done.
    + eapply sublist_NoDup; [exact Hnd'|].
      etrans; [apply sublist_take|apply List_filter_sublist].
  - intros x [Hx|Hx]%elem_of_app; [by apply Hm2|].
    apply subseteq_take in Hx. apply elem_of_List_filter in Hx as [Hx _].
    by rewrite elem_of_reverse in Hx.
  - apply suffix_prefix_reverse in Hsuf. by rewrite reverse_involutive in Hsuf.
Qed.

Lemma part001_filler_total_witness :
  ∃ m pool' w',
    Part001.findSameTypeFiller sparse_env grassFamily "bulbasaur" 5 w0 =
      Returns (Some <$> m, pool') w' ∧
    length m = 3.
Proof.
  destruct (part001_filler_total sparse_env grassFamily "bulbasaur" 5 w0)
    as (m & pool' & w' & Heq & Hlen & _).
  - apply (bool_decide_unpack _). vm_compute. exact I.
  - lia.
  - by exists m, pool', w'.
Defined.

(** ** Every arrangement can come out of the shuffle *)

Section ShuffleReach.
Context {A : Type}.

Lemma Permutation_same_tail (a target : list A) (n : nat) :
  a ≡ₚ target → drop n a = drop n target → take n a ≡ₚ take n target.
Proof.
  intros Hp Hd. apply (Permutation_app_inv_r (drop n a)).
  rewrite Hd at 2. by rewrite !take_drop.
Qed.

Lemma shuffle_from_reaches (i : nat) (a target : list A) (w : World) :
  a ≡ₚ target → drop (S i) a = drop (S i) target → S i ≤ length a →
  ∃ r : nat → nat,
    ∀ env, (∀ k, rnd w ≤ k < rnd w + i → random env k = r k) →
           (shuffle_from env i a w).1 = target.
Proof.
  revert a w. induction i as [|n IH]; intros a w Hp Hd Hlen.
  - exists (λ _, 0). intros env _. simpl.
    pose proof (Permutation_same_tail a target 1 Hp Hd) as Ht.
    rewrite <- (take_drop 1 a), <- (take_drop 1 target), Hd. f_equal.
    destruct a as [|x a]; [simpl in Hlen; lia|].
    destruct target as [|y target].
    { apply Permutation_length in Hp. done. }
    simpl in *. rewrite !take_0 in *. by apply Permutation_singleton_l in Ht.
  - pose proof (Permutation_length Hp) as Hl.
    destruct (lookup_lt_is_Some_2 target (S n)) as [t Ht]; [lia|].
    destruct (lookup_lt_is_Some_2 a (S n)) as [x Hx]; [lia|].
    pose proof (Permutation_same_tail a target (S (S n)) Hp Hd) as Htk.
    assert (t ∈ take (S (S n)) a) as Hin.
    { rewrite Htk. apply elem_of_take. exists (S n). split; [done|lia]. }
    apply elem_of_take in Hin as (j & Hj & Hjn).
    assert (swap a (S n) j = <[j := x]> (<[S n := t]> a)) as Hswap.
    { unfold swap. by rewrite Hx, Hj. }
    assert (drop (S n) (swap a (S n) j) = drop (S n) target) as Hd'.
    { rewrite (drop_S target t (S n) Ht), <- Hd, Hswap.
      destruct (decide (j = S n)) as [->|Hne].
      - assert (x = t) as -> by congruence.
        rewrite !(list_insert_id a (S n) t Hx). by apply drop_S.
      - rewrite drop_insert_lt by lia.
        rewrite (drop_S (<[S n := t]> a) t (S n)).
        + by rewrite drop_insert_lt by lia.
        + apply list_lookup_insert_eq. lia. }
    destruct (IH (swap a (S n) j)
                 (mkWorld (S (rnd w)) (net w) (poolCache w)))
      as [r' Hr'].
    { by rewrite swap_Permutation. }
    { done. }
    { rewrite (Permutation_length (swap_Permutation a (S n) j)). lia. }
    exists (λ k, if k =? rnd w then j else r' k).
    intros env Hagree. cbn [shuffle_from]. unfold bind, randomBelow.
    rewrite (Hagree (rnd w)) by lia. rewrite Nat.eqb_refl.
    rewrite Nat.mod_small by lia.
    apply Hr'. simpl. intros k Hk. rewrite (Hagree k) by lia.
    destruct (Nat.eqb_spec k (rnd w)); [lia|done].
Qed.

(** X16. The shuffle can return every arrangement: for each ordering of
    the array's elements there are draws of [Math.random] under which
    [shuffle] returns exactly that ordering. *)
Theorem shuffle_reaches_every_arrangement (a target : list A) (w : World) :
  a ≡ₚ target →
  ∃ r : nat → nat,
    ∀ env, (∀ k, rnd w ≤ k < rnd w + (length a - 1) → random env k = r k) →
           (shuffle env a w).1 = target.
Proof.
  intros Hp. unfold shuffle. destruct a as [|x a].
  - apply Permutation_nil_l in Hp. subst target. by exists (λ _, 0).
  - apply shuffle_from_reaches; [done| |simpl; lia].
    pose proof (Permutation_length Hp) as Hl.
    rewrite !drop_ge; [done|rewrite <- Hl; simpl; lia|simpl; lia].
Qed.
End ShuffleReach.

Lemma shuffle_reaches_every_arrangement_witness :
  ∃ r : nat → nat,
    ∀ env, (∀ k, 0 ≤ k < 2 → random env k = r k) →
           (shuffle env ["abra"; "mew"; "onix"] w0).1 = ["onix"; "abra"; "mew"].
Proof.
  apply (shuffle_reaches_every_arrangement ["abra"; "mew"; "onix"]
           ["onix"; "abra"; "mew"] w0).
  apply (bool_decide_unpack _). vm_compute. exact I.
Defined.

(** ** Where the members of a board come from *)

Lemma sourced_push P groups pool pool' (g : list (option string)) :
  sourced P groups pool → NoDup pool' → (∀ x, x ∈ pool' → x ∈ pool) →
  (∀ x, Some x ∈ g → x ∈ pool) →
  sourced P (groups ++ [g]) (removeFromPool pool' g).
Proof.
  intros (Hnd & HP & Hg & Hdis) Hnd' Hsub Hgin.
  assert (∀ x, x ∈ removeFromPool pool' g → x ∈ pool') as Hres.
  { intros x Hx. eapply elem_of_sublist; [exact Hx|apply removeFromPool_sublist]. }
  assert (∀ i h x, groups !! i = Some h → Some x ∈ h → Some x ∉ g) as Hold.
  { intros i h x Hi Hx Hxg. rewrite Forall_forall in Hg.
    destruct (Hg h (list_elem_of_lookup_2 _ _ _ Hi) x Hx) as [_ Hout].
    by apply Hout, Hgin. }
  split_and!.
  - by apply removeFromPool_NoDup.
  - intros x Hx. by apply HP, Hsub, Hres.
  - apply Forall_app. split.
    + eapply Forall_impl; [exact Hg|]. intros h Hh x Hx.
      destruct (Hh x Hx) as [Hin Hout]. split; [done|].
      intros Hx'. by apply Hout, Hsub, Hres.
    + apply Forall_singleton. intros x Hx. split; [by apply HP, Hgin|].
      intros Hin. by apply (removeFromPool_gone pool' g x Hnd' Hin).
  - intros i j g1 g2 x Hij H1 H2 Hx1 Hx2.
    destruct (decide (i < length groups)) as [Hi|Hi];
      destruct (decide (j < length groups)) as [Hj|Hj].
    + rewrite lookup_app_l in H1, H2 by done.
      by apply (Hdis i j g1 g2 x).
    + rewrite lookup_app_l in H1 by done.
      rewrite lookup_app_r in H2 by lia.
      apply list_lookup_singleton_Some in H2 as [_ <-].
      by apply (Hold i g1 x).
    + rewrite lookup_app_l in H2 by done.
      rewrite lookup_app_r in H1 by lia.
      apply list_lookup_singleton_Some in H1 as [_ <-].
      by apply (Hold j g2 x).
    + rewrite lookup_app_r in H1, H2 by lia.
      apply list_lookup_singleton_Some in H1 as [H1 _].
      apply list_lookup_singleton_Some in H2 as [H2 _]. lia.
Qed.

Lemma sourced_start (pool : list string) : NoDup pool → sourced pool [] pool.
Proof.
  intros Hnd. split_and!; [done|done|constructor|].
  intros i j g h x _ Hi. by rewrite lookup_nil in Hi.
Qed.

Lemma padStack_sourced target g stk g' stk' :
  padStack target g stk = Some (g', stk') →
  (∀ x, Some x ∈ g' → Some x ∈ g ∨ x ∈ stk) ∧ stk' `suffix_of` stk.
Proof.
  revert g. induction stk as [|y stk IH]; intros g; cbn [padStack].
  - destruct (target <=? length g).
    { intros [= <- <-]. split; [by left|done]. }
    destruct (JS.includes g None); [done|].
    destruct (target <=? length (g ++ [None])); [|done].
    intros [= <- <-]. split; [|done].
    intros x [Hx|Hx]%elem_of_app; [by left|].
    apply list_elem_of_singleton in Hx. discriminate.
  - destruct (target <=? length g).
    { intros [= <- <-]. split; [by left|done]. }
    intros Heq. destruct (IH _ Heq) as [Hin Hsuf].
    split; [|by apply suffix_cons_r].
    intros x Hx. destruct (Hin x Hx) as [Hg|Hs].
    + destruct (JS.includes g (Some y)); [by left|].
      apply elem_of_app in Hg as [Hg|Hg]; [by left|].
      apply list_elem_of_singleton in Hg. injection Hg as ->.
      right. apply elem_of_cons. by left.
    + right. apply elem_of_cons. by right.
Qed.

Lemma prefix_part (pool pool' : list string) :
  NoDup pool → pool' `prefix_of` pool →
  NoDup pool' ∧ ∀ x, x ∈ pool' → x ∈ pool.
Proof.
  intros Hnd [k ->]. apply NoDup_app in Hnd as (Hnd & _ & _).
  split; [done|]. intros x Hx. apply elem_of_app. by left.
Qed.

Lemma padFromTail_sourced target g pool g' pool' :
  NoDup pool →
  padFromTail target g pool = Some (g', pool') →
  (∀ x, Some x ∈ g' → Some x ∈ g ∨ x ∈ pool) ∧
  NoDup pool' ∧ (∀ x, x ∈ pool' → x ∈ pool).
Proof.
  intros Hnd. unfold padFromTail.
  destruct (padStack target g (reverse pool)) as [[g1 stk]|] eqn:Hp; [|done].
  intros [= <- <-]. destruct (padStack_sourced _ _ _ _ _ Hp) as [Hin Hsuf].
  apply suffix_prefix_reverse in Hsuf. rewrite reverse_involutive in Hsuf.
  destruct (prefix_part pool (reverse stk) Hnd Hsuf) as [Hnd' Hsub].
  split_and!; [|done|done].
  intros x Hx. destruct (Hin x Hx) as [?|Hr]; [by left|right].
  by rewrite elem_of_reverse in Hr.
Qed.

Lemma sample_sourced env (pool : list string) (count : nat) (w : World) :
  ∀ x, x ∈ (sampleArray env pool count w).1 → x ∈ pool.
Proof.
  intros x Hx. destruct (sampleArray_spec env pool count w) as (a & Ha & Hs).
  rewrite Hs in Hx. apply subseteq_take in Hx. by rewrite <- Ha.
Qed.

Lemma script_filler_sourced env : filler_sourced (Script.findSameTypeFiller env).
Proof.
  intros pool ref count w f pool' w' Hnd.
  assert (∀ w1,
            (try! s := lift (sampleArray env pool count) in
             retO (Some <$> s, pool)) w1 = Returns (f, pool') w' →
            (∀ x, Some x ∈ f → x ∈ pool) ∧ NoDup pool' ∧
            (∀ x, x ∈ pool' → x ∈ pool)) as Hsample.
  { intros w1. unfold bindO, lift, retO.
    pose proof (sample_sourced env pool count w1) as Hs.
    destruct (sampleArray env pool count w1) as [s w2]. simpl in Hs.
    intros [= <- <- <-]. split_and!; [|done|done].
    intros x (y & [= <-] & Hy)%list_elem_of_fmap. by apply Hs. }
  unfold Script.findSameTypeFiller. unfold bindO at 1. unfold lift at 1.
  destruct (Script.fetchPokemonData env ref w) as [meta w1].
  destruct (primaryTypeName meta) as [t|]; [|apply Hsample].
  destruct (JS.truthy t); [|apply Hsample].
  unfold bindO, lift, retO.
  destruct (fillerScan_matches (Script.fetchPokemonData env) t count pool w1 Hnd)
    as (_ & Hm & _).
  destruct (fillerScan (Script.fetchPokemonData env) t count pool [] w1)
    as [matches w2]. simpl in Hm.
  destruct (padFromTail count (Some <$> matches) pool) as [[f1 pool1]|] eqn:Hp;
    [|done].
  intros [= <- <- <-].
  destruct (padFromTail_sourced _ _ _ _ _ Hnd Hp) as (Hin & Hnd' & Hsub).
  split_and!; [|done|done].
  intros x Hx. destruct (Hin x Hx) as [(y & [= <-] & Hy)%list_elem_of_fmap|?];
    [by apply Hm|done].
Qed.

Lemma part001_filler_sourced env : filler_sourced (Part001.findSameTypeFiller env).
Proof.
  intros pool ref count w f pool' w' Hnd.
  assert (NoDup (reverse pool)) as Hndr by by rewrite reverse_Permutation.
  assert (∀ w1,
            (try! s := lift (sampleArray env pool count) in
             retO (Some <$> s, pool)) w1 = Returns (f, pool') w' →
            (∀ x, Some x ∈ f → x ∈ pool) ∧ NoDup pool' ∧
            (∀ x, x ∈ pool' → x ∈ pool)) as Hsample.
  { intros w1. unfold bindO, lift, retO.
    pose proof (sample_sourced env pool count w1) as Hs.
    destruct (sampleArray env pool count w1) as [s w2]. simpl in Hs.
    intros [= <- <- <-]. split_and!; [|done|done].
    intros x (y & [= <-] & Hy)%list_elem_of_fmap. by apply Hs. }
  unfold Part001.findSameTypeFiller. unfold bindO at 1. unfold lift at 1.
  destruct (Part001.fetchPokemonData env ref w) as [meta w1].
  destruct (primaryTypeName meta) as [t|]; [|apply Hsample].
  destruct (JS.truthy t); [|apply Hsample].
  unfold bindO, lift, retO.
  destruct (fillerScan_matches (Part001.fetchPokemonData env) t count pool w1 Hnd)
    as (_ & Hm & _).
  destruct (fillerScan (Part001.fetchPokemonData env) t count pool [] w1)
    as [matches w2]. simpl in Hm.
  destruct (padStackGuarded_exact count (reverse pool) matches Hndr)
    as (stk' & -> & Hsuf).
  intros [= <- <- <-].
  apply suffix_prefix_reverse in Hsuf. rewrite reverse_involutive in Hsuf.
  destruct (prefix_part pool (reverse stk') Hnd Hsuf) as [Hnd' Hsub].
  split_and!; [|done|done].
  intros x (y & [= <-] & Hy)%list_elem_of_fmap.
  apply elem_of_app in Hy as [Hy|Hy]; [by apply Hm|].
  apply subseteq_take, elem_of_List_filter in Hy as [Hy _].
  by rewrite elem_of_reverse in Hy.
Qed.

Lemma lowerGroups_same (groups : list (list (option string)))
    (sols : list (list string)) :
  lowerGroups groups = Some sols →
  (∀ g x, g ∈ groups → Some x ∈ g → JS.toLowerCase x = x) →
  groups = (λ s : list string, Some <$> s) <$> sols.
Proof.
  unfold lowerGroups. intros Hm%mapM_Some. 
  induction Hm as [|g s groups sols Hgs _ IH]; intros Hlow; [done|].
  rewrite fmap_cons. f_equal.
  - assert (∀ x, Some x ∈ g → JS.toLowerCase x = x) as Hg.
    { intros x. apply Hlow. apply elem_of_cons. by left. }
    apply mapM_Some in Hgs. clear -Hgs Hg.
    induction Hgs as [|n y g s Hny _ IH]; [done|].
    rewrite fmap_cons. f_equal.
    + destruct n as [x|]; [|done]. simpl in Hny. injection Hny as <-.
      f_equal. symmetry. apply Hg. apply elem_of_cons. by left.
    + apply IH. intros x Hx. apply Hg. apply elem_of_cons. by right.
  - apply IH. intros g' x Hg'. apply Hlow. apply elem_of_cons. by right.
Qed.

Section Provenance.
Variable env : Env.
Variable fetch : string → M Meta.
Variable filler :
  list string → string → nat → MO (list (option string) * list string).
Variable legends : list string.
Variable P : list string.
Hypothesis filler_ok : filler_sourced filler.

Lemma buildTypeGroup_from_pool pool size w g :
  (buildTypeGroup env fetch pool size w).1 = Some g → ∀ x, x ∈ g → x ∈ pool.
Proof.
  unfold buildTypeGroup, bind. intros Hg.
  pose proof (shuffle_Permutation env pool w) as Hp.
  destruct (shuffle env pool w) as [sample w1]. simpl in Hp.
  destruct (typeScan_sound fetch size sample [] w1 g [] (Forall_nil_2 _) Hg)
    as (_ & Hsub & _).
  intros x Hx. rewrite <- Hp. eapply elem_of_sublist; [exact Hx|done].
Qed.

Lemma fmap_Some_from (l pool : list string) :
  (∀ x, x ∈ l → x ∈ pool) → ∀ x, Some x ∈ Some <$> l → x ∈ pool.
Proof. intros H x (y & [= <-] & Hy)%list_elem_of_fmap. by apply H. Qed.

Lemma typeStep_sourced pool w :
  sourced P [] pool →
  sourced P (typeStep env fetch pool w).1.1 (typeStep env fetch pool w).1.2.
Proof.
  intros Hs. unfold typeStep, bind, ret.
  pose proof (buildTypeGroup_from_pool pool GROUP_SIZE w) as Hg.
  destruct (buildTypeGroup env fetch pool GROUP_SIZE w) as [[g|] w1];
    simpl in *; [|done].
  apply (sourced_push P [] pool pool (Some <$> g)); [done|apply Hs|done|].
  apply fmap_Some_from. by apply Hg.
Qed.

Lemma evolutionStep_sourced groups pool w groups' pool' w' :
  sourced P groups pool →
  evolutionStep fetch filler groups pool w = Returns (groups', pool') w' →
  sourced P groups' pool'.
Proof.
  intros Hs. unfold evolutionStep, bindO, lift, retO.
  pose proof (λ g, chainScan_sound fetch GROUP_SIZE pool [] w g []
                     ltac:(unfold GROUP_SIZE; lia) (Forall_nil_2 _)) as Hevo.
  unfold buildEvolutionGroup.
  destruct (chainScan fetch GROUP_SIZE pool [] w) as [[evo|] w1]; simpl in Hevo.
  2:{ by intros [= <- <- <-]. }
  destruct (Hevo evo eq_refl) as (_ & Hsub & _). simpl in Hsub.
  assert (∀ x, x ∈ evo → x ∈ pool) as Hin.
  { intros x Hx. by eapply elem_of_sublist. }
  destruct (length evo <? GROUP_SIZE).
  - destruct (filler pool (default "undefined" (head evo))
                     (GROUP_SIZE - length evo) w1)
      as [[f pool1] w2| |] eqn:Hf; [|done|done].
    intros [= <- <- <-].
    destruct (filler_ok _ _ _ _ _ _ _ (proj1 Hs) Hf) as (Hfin & Hnd1 & Hsub1).
    apply (sourced_push P groups pool pool1); [done|done|done|].
    intros x [Hx|Hx]%elem_of_app; [|by apply Hfin].
    by apply (fmap_Some_from evo pool Hin).
  - intros [= <- <- <-].
    apply (sourced_push P groups pool pool); [done|apply Hs|done|].
    apply fmap_Some_from. intros x Hx. apply Hin. by apply subseteq_take in Hx.
Qed.

Lemma legendStep_sourced groups pool w groups' pool' w' :
  sourced P groups pool →
  legendStep legends groups pool w = Returns (groups', pool') w' →
  sourced P groups' pool'.
Proof.
  intros Hs. unfold legendStep, retO.
  set (legendGroup := take GROUP_SIZE _).
  assert (∀ x, x ∈ legendGroup → x ∈ pool) as Hin.
  { intros x Hx. apply subseteq_take, elem_of_List_filter in Hx as [_ Hx].
    by apply includes_true in Hx. }
  destruct (2 <=? length legendGroup).
  2:{ by intros [= <- <- <-]. }
  destruct (padFromTail GROUP_SIZE (Some <$> legendGroup) pool)
    as [[g pool1]|] eqn:Hp; [|done].
  intros [= <- <- <-].
  destruct (padFromTail_sourced _ _ _ _ _ (proj1 Hs) Hp) as (Hg & Hnd1 & Hsub1).
  apply (sourced_push P groups pool pool1); [done|done|done|].
  intros x Hx. destruct (Hg x Hx) as [Hl|?]; [|done].
  by apply (fmap_Some_from legendGroup pool Hin).
Qed.

Lemma fillGroups_sourced n groups pool w :
  sourced P groups pool →
  sourced P (fillGroups env fetch n groups pool w).1.1
            (fillGroups env fetch n groups pool w).1.2.
Proof.
  revert groups pool w. induction n as [|n IH]; intros groups pool w Hs; [done|].
  cbn [fillGroups]. unfold bind.
  pose proof (buildTypeGroup_from_pool pool GROUP_SIZE w) as Hg.
  destruct (buildTypeGroup env fetch pool GROUP_SIZE w) as [[g|] w1];
    simpl in Hg.
  - unfold ret. apply IH.
    apply (sourced_push P groups pool pool); [done|apply Hs|done|].
    apply fmap_Some_from. by apply Hg.
  - pose proof (sample_sourced env pool GROUP_SIZE w1) as Hsm.
    destruct (sampleArray env pool GROUP_SIZE w1) as [s w2]. simpl in Hsm.
    apply IH.
    apply (sourced_push P groups pool pool); [done|apply Hs|done|].
    by apply fmap_Some_from.
Qed.

Lemma assemble_sourced pool w sols w' :
  sourced P [] pool →
  (∀ x, x ∈ P → JS.toLowerCase x = x) →
  assemble env fetch filler legends pool w = Returns sols w' →
  (∀ g x, g ∈ sols → x ∈ g → x ∈ P) ∧
  (∀ i j g h x, i ≠ j → sols !! i = Some g → sols !! j = Some h →
                x ∈ g → x ∉ h).
Proof.
  intros Hs Hlow. unfold assemble. unfold bindO at 1. unfold lift at 1.
  pose proof (typeStep_sourced pool w Hs) as H1.
  destruct (typeStep env fetch pool w) as [[groups1 pool1] w1]. simpl in H1.
  unfold bindO at 1.
  destruct (evolutionStep fetch filler groups1 pool1 w1)
    as [[groups2 pool2] w2| |] eqn:He; [|done|done].
  pose proof (evolutionStep_sourced _ _ _ _ _ _ H1 He) as H2.
  unfold bindO at 1.
  destruct (legendStep legends groups2 pool2 w2)
    as [[groups3 pool3] w3| |] eqn:Hl; [|done|done].
  pose proof (legendStep_sourced _ _ _ _ _ _ H2 Hl) as H3.
  unfold bindO, lift.
  pose proof (fillGroups_sourced (MAX_GROUPS - length groups3) groups3 pool3 w3 H3)
    as H4.
  destruct (fillGroups env fetch (MAX_GROUPS - length groups3) groups3 pool3 w3)
    as [[groups4 pool4] w4]. simpl in H4.
  destruct (lowerGroups groups4) as [sols'|] eqn:Hlg; [|done].
  intros [= <- <-].
  destruct H4 as (_ & _ & Hmem & Hdis). rewrite Forall_forall in Hmem.
  assert (groups4 = (λ s : list string, Some <$> s) <$> sols') as ->.
  { apply lowerGroups_same; [done|]. intros g x Hg Hx.
    apply Hlow. by apply (Hmem g Hg x). }
  assert (∀ (g : list string) x, x ∈ g → Some x ∈ Some <$> g) as Hsome.
  { intros g x Hx. apply list_elem_of_fmap. by exists x. }
  split.
  - intros g x Hg Hx.
    apply (Hmem (Some <$> g)); [|by apply Hsome].
    apply list_elem_of_fmap. by exists g.
  - intros i j g h x Hij Hi Hj Hx Hxh.
    apply (Hdis i j (Some <$> g) (Some <$> h) x Hij).
    + by rewrite list_lookup_fmap, Hi.
    + by rewrite list_lookup_fmap, Hj.
    + by apply Hsome.
    + by apply Hsome.
Qed.
End Provenance.

Lemma elem_of_concat {A} (ls : list (list A)) (x : A) :
  x ∈ concat ls ↔ ∃ g, g ∈ ls ∧ x ∈ g.
Proof.
  induction ls as [|g ls IH]; simpl.
  - split; [by intros ?%elem_of_nil|by intros (g & ?%elem_of_nil & _)].
  - rewrite elem_of_app, IH. split.
    + intros [Hx|(g' & Hg' & Hx)].
      * exists g. split; [apply elem_of_cons; by left|done].
      * exists g'. split; [apply elem_of_cons; by right|done].
    + intros (g' & [->|Hg']%elem_of_cons & Hx); [by left|right]. by exists g'.
Qed.

Lemma laid_names env fetch (sols : list (list string)) (w : World) :
  solutions (layBoard env fetch sols w).1 = sols ∧
  selected (layBoard env fetch sols w).1 = [] ∧
  name <$> cardData (layBoard env fetch sols w).1 ≡ₚ concat sols.
Proof.
  destruct (layBoard_spec env fetch sols w) as (shuffled & metas & Hp & Hm & ->).
  simpl. split_and!; [done|done|]. by rewrite zip_cards_names.
Qed.

Lemma published_names env fetch (sols : list (list string)) (w : World) :
  solutions (publish env fetch sols w).1 = sols ∧
  ∀ c, c ∈ cardData (publish env fetch sols w).1 → name c ∈ concat sols.
Proof.
  destruct (publish_spec env fetch sols w) as (shuffled & metas & Hp & Hm & ->).
  simpl. split; [done|]. intros c Hc. rewrite <- Hp.
  rewrite <- (zip_cards_names sols shuffled metas Hm).
  apply list_elem_of_fmap. by exists c.
Qed.

Lemma getPoolForGens_lower env fromGen toGen w :
  (∀ c, poolCache w = Some c → ∀ x, x ∈ c → JS.toLowerCase x = x) →
  ∀ x, x ∈ (Part001.getPoolForGens env fromGen toGen w).1 →
       JS.toLowerCase x = x.
Proof.
  intros Hc x. unfold Part001.getPoolForGens.
  destruct (poolCache w) as [c|]; simpl; [by apply Hc|].
  destruct (genLoop_spec env (toGen + 1 - fromGen) fromGen [] w)
    as (_ & _ & _ & Hsound & _).
  destruct (Part001.genLoop env (toGen + 1 - fromGen) fromGen [] w)
    as [pool w']. simpl in *.
  rewrite Set_of_elem. intros Hx.
  destruct (Hsound x Hx) as [Hin|(j & ns & nm & _ & _ & _ & _ & ->)].
  - by apply elem_of_nil in Hin.
  - apply toLowerCase_idemp.
Qed.

Lemma GEN1_lower : ∀ x, x ∈ Script.GEN1 → JS.toLowerCase x = x.
Proof.
  apply Forall_forall. apply (bool_decide_unpack _). vm_compute. exact I.
Qed.

(** X17. What holds of the groups of every generated board, in both
    variants, whatever the catalog answers: every identifier on the board
    is a member of the candidate pool, and no identifier belongs to two
    different groups.  (Within one group the filler can still repeat a
    member.) *)
Theorem groups_disjoint_and_from_pool env (w : World) (st : State) (w' : World) :
  (Script.startGame env w = Returns st w' →
   (∀ c, c ∈ cardData st → name c ∈ Script.GEN1) ∧
   (∀ i j g h x, i ≠ j → solutions st !! i = Some g →
                 solutions st !! j = Some h → x ∈ g → x ∉ h)) ∧
  ((∀ c, poolCache w = Some c →
         NoDup c ∧ ∀ x, x ∈ c → JS.toLowerCase x = x) →
   Part001.startGame env w = Returns st w' → status st = MSG_READY →
   (∀ c, c ∈ cardData st →
         name c ∈ (Part001.getPoolForGens env 1 Part001.MAX_GEN w).1) ∧
   (∀ i j g h x, i ≠ j → solutions st !! i = Some g →
                 solutions st !! j = Some h → x ∈ g → x ∉ h)).
Proof.
  assert (∀ (P : list string) (sols : list (list string)) c,
            (∀ g x, g ∈ sols → x ∈ g → x ∈ P) →
            name c ∈ concat sols → name c ∈ P) as Hflat.
  { intros P sols c Hmem Hc. apply elem_of_concat in Hc as (g & Hg & Hx).
    by apply (Hmem g). }
  split.
  - unfold Script.startGame, Script.generate, bindO at 1.
    pose proof (assemble_sourced env (Script.fetchPokemonData env)
                  (Script.findSameTypeFiller env) Script.legendaryNames
                  Script.GEN1 (script_filler_sourced env) Script.GEN1 w) as Ha.
    destruct (assemble env (Script.fetchPokemonData env)
                (Script.findSameTypeFiller env) Script.legendaryNames
                Script.GEN1 w) as [sols w1| |]; [| |discriminate].
    + destruct (Ha sols w1 (sourced_start _ GEN1_NoDup) GEN1_lower eq_refl)
        as [Hmem Hdis].
      unfold lift.
      destruct (laid_names env (Script.fetchPokemonData env) sols w1)
        as (Hsol & _ & Hnames).
      destruct (layBoard env (Script.fetchPokemonData env) sols w1) as [st1 w2].
      simpl in Hsol, Hnames. intros [= <- <-]. simpl. rewrite Hsol.
      split; [|exact Hdis].
      intros c Hc. apply (Hflat _ sols c Hmem). rewrite <- Hnames.
      apply list_elem_of_fmap. by exists c.
    + intros [= <- <-]. simpl. split.
      * intros c Hc. by apply elem_of_nil in Hc.
      * intros i j g h x _ Hi. done.
  - intros Hcache.
    unfold Part001.startGame, Part001.generate, bindO at 1. unfold lift at 1.
    assert (NoDup (Part001.getPoolForGens env 1 Part001.MAX_GEN w).1) as Hnd.
    { apply getPoolForGens_NoDup. intros c Hc. by apply Hcache. }
    assert (∀ x, x ∈ (Part001.getPoolForGens env 1 Part001.MAX_GEN w).1 →
                 JS.toLowerCase x = x) as Hlow.
    { apply getPoolForGens_lower. intros c Hc. by apply Hcache. }
    destruct (Part001.getPoolForGens env 1 Part001.MAX_GEN w) as [pool w0'].
    simpl in Hnd, Hlow |- *.
    destruct (length pool <? MAX_BOARD).
    { unfold throwO. intros [= <- <-] Hst. discriminate Hst. }
    unfold bindO at 1. unfold lift at 1.
    pose proof (shuffle_Permutation env pool w0') as Hp.
    destruct (shuffle env pool w0') as [candidatePool w1]. simpl in Hp.
    unfold bindO at 1.
    pose proof (assemble_sourced env (Part001.fetchPokemonData env)
                  (Part001.findSameTypeFiller env) Part001.candidateLegends
                  candidatePool (part001_filler_sourced env) candidatePool w1)
      as Ha.
    destruct (assemble env (Part001.fetchPokemonData env)
                (Part001.findSameTypeFiller env) Part001.candidateLegends
                candidatePool w1) as [sols w2| |]; [| |discriminate].
    + destruct (Ha sols w2) as [Hmem Hdis].
      { apply sourced_start. by rewrite Hp. }
      { intros x Hx. apply Hlow. by rewrite <- Hp. }
      { done. }
      unfold lift.
      destruct (published_names env (Part001.fetchPokemonData env) sols w2)
        as [Hsol Hnames].
      destruct (publish env (Part001.fetchPokemonData env) sols w2) as [st1 w3].
      simpl in Hsol, Hnames. intros [= <- <-] _. rewrite Hsol.
      split; [|exact Hdis].
      intros c Hc. rewrite <- Hp. apply (Hflat _ sols c Hmem). by apply Hnames.
    + intros [= <- <-] Hst. discriminate Hst.
Qed.

Lemma groups_disjoint_and_from_pool_witness :
  ∃ st w', Script.startGame sparse_env w0 = Returns st w' ∧
           ∀ c, c ∈ cardData st → name c ∈ Script.GEN1.
Proof.
  destruct (script_start_returns sparse_env w0) as (sols & w1 & _ & _ & _ & Hs).
  eexists _, _. split; [exact Hs|].
  exact (proj1 (proj1 (groups_disjoint_and_from_pool sparse_env w0 _ _) Hs)).
Defined.

(** ** The reveal gives back the hidden groups *)

Lemma bucketOf_snoc (k : nat) (cards : list Card) (c : Card) :
  bucketOf k (cards ++ [c]) =
  bucketOf k cards ++ (if (groupId c =? Z.of_nat k)%Z then [name c] else []).
Proof.
  unfold bucketOf. rewrite List.filter_app, fmap_app. simpl.
  by destruct (groupId c =? Z.of_nat k)%Z.
Qed.

Lemma grouped_S (s len : nat) (cards : list Card) :
  grouped s (S len) cards =
  match bucketOf s cards with
  | [] => grouped (S s) len cards
  | b => (Z.of_nat s, b) :: grouped (S s) len cards
  end.
Proof. unfold grouped. simpl. by destruct (bucketOf s cards). Qed.

Lemma grouped_nil (s len : nat) : grouped s len [] = [].
Proof.
  revert s. induction len as [|len IH]; intros s; [done|].
  rewrite grouped_S. simpl. apply IH.
Qed.

Lemma grouped_keys (s len : nat) (cards : list Card) (kv : Z * list string) :
  kv ∈ grouped s len cards → (Z.of_nat s ≤ kv.1)%Z.
Proof.
  unfold grouped. intros (k & Hk & Hkv)%list_elem_of_omap.
  apply elem_of_seq in Hk. destruct (bucketOf k cards); [done|].
  injection Hkv as <-. simpl. lia.
Qed.

Lemma grouped_snoc_out (s len : nat) (cards : list Card) (c : Card) :
  (groupId c < Z.of_nat s)%Z →
  grouped s len (cards ++ [c]) = grouped s len cards.
Proof.
  revert s. induction len as [|len IH]; intros s Hc; [done|].
  rewrite !grouped_S, bucketOf_snoc.
  destruct (Z.eqb_spec (groupId c) (Z.of_nat s)) as [|_]; [lia|].
  rewrite app_nil_r, IH by lia. done.
Qed.

Lemma groupMap_push_front (g : Z) (n : string) (gm : list (Z * list string)) :
  (0 ≤ g)%Z → (∀ kv, kv ∈ gm → (g < kv.1)%Z) →
  groupMap_push g n gm = (g, [n]) :: gm.
Proof.
  intros Hg Hgm. destruct gm as [|[k ns] gm]; [done|].
  assert (g < k)%Z as Hk by (apply (Hgm (k, ns)); apply elem_of_cons; by left).
  simpl.
  destruct (Z.eqb_spec g k); [lia|].
  destruct (Z.leb_spec 0 g); [|lia].
  destruct (Z.ltb_spec g k); [|lia].
  by rewrite orb_true_r.
Qed.

Lemma grouped_push (s len g : nat) (cards : list Card) (c : Card) :
  groupId c = Z.of_nat g → s ≤ g < s + len →
  groupMap_push (Z.of_nat g) (name c) (grouped s len cards) =
  grouped s len (cards ++ [c]).
Proof.
  intros Hc. revert s. induction len as [|len IH]; intros s Hs; [lia|].
  rewrite !grouped_S, bucketOf_snoc, Hc.
  destruct (decide (s = g)) as [->|Hne].
  - rewrite Z.eqb_refl, grouped_snoc_out by lia.
    destruct (bucketOf g cards) as [|b0 b] eqn:Hb.
    + simpl. apply groupMap_push_front; [lia|].
      intros kv Hkv%grouped_keys. lia.
    + simpl. by rewrite Z.eqb_refl.
  - destruct (Z.eqb_spec (Z.of_nat g) (Z.of_nat s)) as [|_]; [lia|].
    rewrite app_nil_r.
    destruct (bucketOf s cards) as [|b0 b] eqn:Hb.
    + apply IH. lia.
    + simpl.
      destruct (Z.eqb_spec (Z.of_nat g) (Z.of_nat s)); [lia|].
      destruct (Z.leb_spec 0 (Z.of_nat g)); [|lia].
      destruct (Z.ltb_spec (Z.of_nat s) 0); [lia|].
      destruct (Z.ltb_spec (Z.of_nat g) (Z.of_nat s)); [lia|].
      simpl. f_equal. apply IH. lia.
Qed.

Lemma groupMap_of_grouped (K : nat) (cards : list Card) :
  Forall (λ c, ∃ g, groupId c = Z.of_nat g ∧ g < K) cards →
  groupMap_of cards = grouped 0 K cards.
Proof.
  induction cards as [|c cards IH] using rev_ind; intros Hall.
  - by rewrite grouped_nil.
  - apply Forall_app in Hall as [Hall Hc].
    rewrite Forall_singleton in Hc. destruct Hc as (g & Hg & HgK).
    unfold groupMap_of in *. rewrite foldl_snoc, (IH Hall), Hg.
    apply grouped_push; [done|lia].
Qed.

Lemma NoDup_concat_unique {A} (ls : list (list A)) (i j : nat) (g h : list A)
    (x : A) :
  NoDup (concat ls) → ls !! i = Some g → ls !! j = Some h →
  x ∈ g → x ∈ h → i = j.
Proof.
  revert i j. induction ls as [|l ls IH]; intros i j Hnd Hi Hj Hg Hh; [done|].
  simpl in Hnd. apply NoDup_app in Hnd as (_ & Hdis & Hrest).
  destruct i as [|i], j as [|j]; simpl in *.
  - done.
  - injection Hi as ->. exfalso. apply (Hdis x Hg).
    apply elem_of_concat. exists h. split; [|done].
    by apply list_elem_of_lookup_2 in Hj.
  - injection Hj as ->. exfalso. apply (Hdis x Hh).
    apply elem_of_concat. exists g. split; [|done].
    by apply list_elem_of_lookup_2 in Hi.
  - f_equal. by apply IH.
Qed.

Lemma groupIndexOf_disjoint (sols : list (list string)) (k : nat)
    (g : list string) (x : string) :
  NoDup (concat sols) → sols !! k = Some g →
  (groupIndexOf sols x = Z.of_nat k ↔ x ∈ g).
Proof.
  intros Hnd Hk. split.
  - intros (g' & Hg' & Hx)%groupIndexOf_found. congruence.
  - intros Hx.
    pose proof (findIndex_range (λ g, JS.includes g x) sols) as Hr.
    fold (groupIndexOf sols x) in Hr.
    destruct (Z.leb_spec 0 (groupIndexOf sols x)) as [Hge|Hlt].
    + destruct (groupIndexOf_found sols x (Z.to_nat (groupIndexOf sols x)))
        as (g' & Hg' & Hx'); [by rewrite Z2Nat.id|].
      rewrite <- (NoDup_concat_unique sols _ k g' g x Hnd Hg' Hk Hx' Hx).
      by rewrite Z2Nat.id.
    + exfalso. unfold groupIndexOf in Hlt. rewrite findIndex_absent in Hlt.
      specialize (Hlt g (list_elem_of_lookup_2 _ _ _ Hk)).
      by apply includes_false in Hlt.
Qed.

Section RevealRoundTrip.
Variable env : Env.
Variable fetch : string → M Meta.

Lemma published_buckets (sols : list (list string)) (w : World) (k : nat)
    (g : list string) :
  NoDup (concat sols) → sols !! k = Some g →
  bucketOf k (cardData (publish env fetch sols w).1) ≡ₚ g.
Proof.
  intros Hnd Hk.
  destruct (publish_spec env fetch sols w) as (shuffled & metas & Hp & Hm & ->).
  simpl.
  pose proof (zip_cards_names sols shuffled metas Hm) as Hnames.
  set (cards := zip_with _ shuffled metas) in *.
  assert (∀ c, c ∈ cards → groupId c = groupIndexOf sols (name c)) as Hgid.
  { intros c (i & Hi)%list_elem_of_lookup_1. unfold cards in Hi.
    apply lookup_zip_with_Some in Hi as (n & m & -> & _ & _). done. }
  apply NoDup_Permutation.
  - unfold bucketOf.
    eapply sublist_NoDup; [|apply fmap_sublist, List_filter_sublist].
    by rewrite Hnames, Hp.
  - eapply NoDup_concat_group; [exact Hnd|]. by eapply list_elem_of_lookup_2.
  - intros x. unfold bucketOf. rewrite list_elem_of_fmap. split.
    + intros (c & -> & [Hc Heq]%elem_of_List_filter).
      apply Z.eqb_eq in Heq. rewrite (Hgid c Hc) in Heq.
      by apply (groupIndexOf_disjoint sols k g (name c) Hnd Hk).
    + intros Hx.
      assert (x ∈ name <$> cards) as (c & -> & Hc)%list_elem_of_fmap.
      { rewrite Hnames, Hp. apply elem_of_concat. exists g.
        split; [by eapply list_elem_of_lookup_2|done]. }
      exists c. split; [done|]. apply elem_of_List_filter. split; [done|].
      apply Z.eqb_eq. rewrite (Hgid c Hc).
      by apply (groupIndexOf_disjoint sols k g (name c) Hnd Hk).
Qed.

Lemma grouped_full (s len : nat) (cards : list Card) :
  (∀ k, s ≤ k < s + len → bucketOf k cards ≠ []) →
  grouped s len cards = (λ k, (Z.of_nat k, bucketOf k cards)) <$> seq s len.
Proof.
  revert s. induction len as [|len IH]; intros s Hne; [done|].
  rewrite grouped_S. cbn [seq]. rewrite fmap_cons.
  specialize (Hne s) as Hs.
  destruct (bucketOf s cards) as [|b0 b] eqn:Hb; [by destruct Hs; [lia|]|].
  f_equal. apply IH. intros k Hk. apply Hne. lia.
Qed.

(** X18. On a board published from disjoint, non-empty groups, at any
    point of the session, the grouping that the reveal reconstructs from
    the entries' group ids lists the groups in the order of [solutions],
    under the keys 0, 1, 2, ..., and the names it lists for each group are
    exactly the members of that hidden group.  This holds of the board
    the Gen 1-7 variant publishes, under its commands, and of the board
    [script.js] lays, under its commands. *)
Theorem reveal_reconstructs_groups (sols : list (list string)) (w : World)
    (ops : list Op) :
  NoDup (concat sols) →
  Forall (λ g, g ≠ []) sols →
  (fst <$> groupMap_of (cardData (run ops (publish env fetch sols w).1)) =
     Z.of_nat <$> seq 0 (length sols) ∧
   Forall2 (λ kv g, kv.2 ≡ₚ g)
           (groupMap_of (cardData (run ops (publish env fetch sols w).1))) sols) ∧
  (fst <$> groupMap_of (cardData (Script.run ops (layBoard env fetch sols w).1)) =
     Z.of_nat <$> seq 0 (length sols) ∧
   Forall2 (λ kv g, kv.2 ≡ₚ g)
           (groupMap_of (cardData (Script.run ops (layBoard env fetch sols w).1)))
           sols).
Proof.
  intros Hnd Hne.
  rewrite (groupMap_of_lock_mono _ _ (run_mono ops _)).
  rewrite (groupMap_of_lock_mono _ _ (script_run_mono ops _)).
  assert (cardData (layBoard env fetch sols w).1 =
          cardData (publish env fetch sols w).1) as ->
    by (by rewrite publish_layBoard).
  cut (fst <$> groupMap_of (cardData (publish env fetch sols w).1) =
         Z.of_nat <$> seq 0 (length sols) ∧
       Forall2 (λ kv g, kv.2 ≡ₚ g)
               (groupMap_of (cardData (publish env fetch sols w).1)) sols);
    [by intros ?|].
  set (cards := cardData (publish env fetch sols w).1).
  assert (∀ k g, sols !! k = Some g → bucketOf k cards ≡ₚ g) as Hb.
  { intros k g Hk. by apply published_buckets. }
  assert (groupMap_of cards = grouped 0 (length sols) cards) as ->.
  { apply groupMap_of_grouped. apply Forall_forall. intros c Hc.
    destruct (published_names env fetch sols w) as [_ Hnames].
    specialize (Hnames c Hc).
    apply elem_of_concat in Hnames as (g & Hg & Hx).
    apply list_elem_of_lookup_1 in Hg as [k Hk].
    exists k. split; [|by eapply lookup_lt_Some].
    assert (name c ∈ bucketOf k cards) as Hin by by rewrite (Hb k g Hk).
    unfold bucketOf in Hin.
    apply list_elem_of_fmap in Hin as (c' & Hn & [Hc' Heq]%elem_of_List_filter).
    apply Z.eqb_eq in Heq.
    destruct (publish_spec env fetch sols w) as (shuffled & metas & _ & Hm & Hst).
    unfold cards in Hc, Hc'. rewrite Hst in Hc, Hc'. simpl in Hc, Hc'.
    apply list_elem_of_lookup_1 in Hc as [i Hi].
    apply list_elem_of_lookup_1 in Hc' as [i' Hi'].
    apply lookup_zip_with_Some in Hi as (n & m & -> & _ & _).
    apply lookup_zip_with_Some in Hi' as (n' & m' & -> & _ & _).
    simpl in *. by subst. }
  rewrite grouped_full.
  2:{ intros k Hk. destruct (lookup_lt_is_Some_2 sols k) as [g Hg]; [lia|].
      intros Hnil. rewrite Forall_forall in Hne.
      apply (Hne g (list_elem_of_lookup_2 _ _ _ Hg)).
      symmetry. apply Permutation_nil_l. rewrite <- Hnil. by apply Hb. }
  split.
  - rewrite <- list_fmap_compose. by apply list_fmap_ext.
  - apply Forall2_same_length_lookup. split.
    + by rewrite length_fmap, length_seq.
    + intros k kv g Hkv Hg. rewrite list_lookup_fmap in Hkv.
      destruct (seq 0 (length sols) !! k) as [k'|] eqn:Hk; [|done].
      apply lookup_seq in Hk as [-> _]. injection Hkv as <-. simpl.
      by apply Hb.
Qed.
End RevealRoundTrip.

Lemma reveal_reconstructs_groups_witness :
  Forall2 (λ kv g, kv.2 ≡ₚ g)
          (groupMap_of (cardData (run [Click 0; Click 1; Click 8; Click 15; Lock]
                                      demo_published)))
          demo_solutions.
Proof.
  destruct (reveal_reconstructs_groups silent_env
              (Script.fetchPokemonData silent_env) demo_solutions w0
              [Click 0; Click 1; Click 8; Click 15; Lock]) as [[_ H] _].
  - exact demo_solutions_NoDup.
  - repeat constructor; discriminate.
  - exact H.
Defined.

(** ** When the builders find a group, with a catalog that answers the
       same for the same item *)

Lemma filter_length_Permutation {A} (f : A → bool) (l l' : list A) :
  l ≡ₚ l' → length (List.filter f l) = length (List.filter f l').
Proof.
  induction 1 as [|x l l' _ IH|x y l|l1 l2 l3 _ IH1 _ IH2]; simpl.
  - done.
  - destruct (f x); simpl; by rewrite IH.
  - by destruct (f x), (f y).
  - by rewrite IH1.
Qed.

Lemma filter_length_sublist {A} (f : A → bool) (l l' : list A) :
  l `sublist_of` l' → length (List.filter f l) ≤ length (List.filter f l').
Proof.
  induction 1 as [|x l l' _ IH|x l l' _ IH]; simpl.
  - done.
  - destruct (f x); simpl; lia.
  - destruct (f x); simpl; lia.
Qed.

Lemma filter_all {A} (f : A → bool) (l : list A) :
  (∀ x, x ∈ l → f x = true) → List.filter f l = l.
Proof.
  induction l as [|x l IH]; intros H; simpl; [done|].
  rewrite (H x) by (apply elem_of_cons; by left).
  f_equal. apply IH. intros y Hy. apply H. apply elem_of_cons. by right.
Qed.

Lemma bucket_push_get (k n : string) (o : list (string * list string)) :
  (bucket_push k n o).1 = bucket_get k o ++ [n] ∧
  ∀ k', bucket_get k' (bucket_push k n o).2 =
        if bool_decide (k' = k) then bucket_get k o ++ [n] else bucket_get k' o.
Proof.
  induction o as [|[k0 ns] o [IH1 IH2]].
  - simpl. split; [done|]. intros k'.
    destruct (decide (k' = k)) as [->|Hne].
    + by rewrite !bool_decide_eq_true_2.
    + rewrite !bool_decide_eq_false_2; [done|done|]. by intros ->.
  - cbn [bucket_push bucket_get].
    destruct (decide (k0 = k)) as [->|Hne].
    + rewrite !bool_decide_eq_true_2 by done. simpl. split; [done|].
      intros k'. destruct (decide (k' = k)) as [->|Hne'].
      * by rewrite !bool_decide_eq_true_2.
      * rewrite !(bool_decide_eq_false_2 (k = k')); [|by intros ->..].
        by rewrite bool_decide_eq_false_2.
    + rewrite !(bool_decide_eq_false_2 (k0 = k)) by done.
      destruct (bucket_push k n o) as [b o'']. simpl in *.
      split; [done|]. intros k'. rewrite IH2.
      destruct (decide (k0 = k')) as [->|Hne'].
      * rewrite bool_decide_eq_true_2 by done.
        by rewrite bool_decide_eq_false_2.
      * by rewrite (bool_decide_eq_false_2 (k0 = k')).
Qed.

Section BuilderCompleteness.
Variable env : Env.
Variable fetch : string → M Meta.

Lemma filter_by_snoc (attr : string → option string) (t n : string)
    (seen : list string) :
  List.filter (λ x, bool_decide (attr x = Some t)) (seen ++ [n]) =
  List.filter (λ x, bool_decide (attr x = Some t)) seen ++
    (if bool_decide (attr n = Some t) then [n] else []).
Proof. rewrite List.filter_app. simpl. by destruct (bool_decide _). Qed.

Lemma typeScan_exhausted (ty : string → option string) size sample tm w seen :
  (∀ n w', head (types (fetch n w').1) = ty n) →
  (∀ t, t ≠ "" →
        bucket_get t tm = List.filter (λ x, bool_decide (ty x = Some t)) seen ∧
        length (bucket_get t tm) < size) →
  (typeScan fetch size sample tm w).1 = None →
  ∀ t, t ≠ "" →
       length (List.filter (λ x, bool_decide (ty x = Some t)) (seen ++ sample))
         < size.
Proof.
  intros Hty. revert tm w seen.
  induction sample as [|n rest IH]; intros tm w seen Hinv Hnone t Ht.
  { rewrite app_nil_r. destruct (Hinv t Ht) as [<- ?]. done. }
  replace (seen ++ n :: rest) with ((seen ++ [n]) ++ rest)
    by by rewrite <- app_assoc.
  cbn [typeScan] in Hnone. unfold bind in Hnone.
  pose proof (Hty n w) as Hn.
  destruct (fetch n w) as [meta w1]. simpl in Hn. rewrite Hn in Hnone.
  assert (∀ t', t' ≠ "" → ty n ≠ Some t' →
            bucket_get t' tm =
              List.filter (λ x, bool_decide (ty x = Some t')) (seen ++ [n]) ∧
            length (bucket_get t' tm) < size) as Hskip.
  { intros t' Ht' Hne. destruct (Hinv t' Ht') as [Hg Hl]. split; [|done].
    rewrite filter_by_snoc, bool_decide_eq_false_2, app_nil_r; done. }
  destruct (ty n) as [pt|] eqn:Hpt.
  2:{ apply (IH tm w1 (seen ++ [n])); [|done|done].
      intros t' Ht'. by apply Hskip. }
  destruct (JS.truthy pt) eqn:Htr.
  2:{ apply (IH tm w1 (seen ++ [n])); [|done|done].
      intros t' Ht'. apply Hskip; [done|]. intros [= ->].
      apply truthy_true in Ht'. congruence. }
  destruct (bucket_push_get pt n tm) as [Hb Hget].
  destruct (bucket_push pt n tm) as [members tm']. simpl in Hb, Hget.
  destruct (Nat.leb_spec size (length members)) as [|Hshort]; [done|].
  apply (IH tm' w1 (seen ++ [n])); [|done|done].
  intros t' Ht'. rewrite Hget.
  destruct (decide (t' = pt)) as [->|Hne].
  - rewrite bool_decide_eq_true_2 by done. rewrite <- Hb. split; [|done].
    destruct (Hinv pt Ht') as [Hg _].
    by rewrite filter_by_snoc, Hpt, bool_decide_eq_true_2, Hb, Hg.
  - rewrite bool_decide_eq_false_2 by done.
    apply Hskip; [done|]. by intros [= ->].
Qed.

(** X19. With a catalog that gives the same primary type for the same
    item whenever it is asked, [buildTypeGroup] finds a group whenever
    there is one: it returns nothing exactly when no non-empty primary
    type is shared by [size] items of the pool. *)
Theorem type_group_complete (ty : string → option string)
    (pool : list string) (size : nat) (w : World) :
  (∀ n w', head (types (fetch n w').1) = ty n) →
  1 ≤ size →
  ((buildTypeGroup env fetch pool size w).1 = None ↔
   ∀ t, t ≠ "" →
        length (List.filter (λ x, bool_decide (ty x = Some t)) pool) < size).
Proof.
  intros Hty Hsize. unfold buildTypeGroup, bind.
  pose proof (shuffle_Permutation env pool w) as Hp.
  destruct (shuffle env pool w) as [sample w1]. simpl in Hp.
  split.
  - intros Hnone t Ht. rewrite <- (filter_length_Permutation _ _ _ Hp).
    apply (typeScan_exhausted ty size sample [] w1 [] Hty); [|done|done].
    intros t' _. simpl. split; [done|lia].
  - intros Hcount.
    destruct (typeScan fetch size sample [] w1).1 as [g|] eqn:Hg; [|done].
    exfalso.
    destruct (typeScan_sound fetch size sample [] w1 g [] (Forall_nil_2 _) Hg)
      as (Hlen & Hsub & t & Ht & Hall).
    simpl in Hsub. specialize (Hcount t Ht).
    rewrite <- (filter_length_Permutation _ _ _ Hp) in Hcount.
    pose proof (filter_length_sublist
                  (λ x, bool_decide (ty x = Some t)) g sample Hsub) as Hle.
    rewrite filter_all in Hle; [lia|].
    intros x Hx. destruct (Hall x Hx) as [w' Hw'].
    apply bool_decide_eq_true_2. by rewrite <- (Hty x w').
Qed.
End BuilderCompleteness.

Lemma bucket_get_lookup (o : list (string * list string))
    (kv : string * list string) :
  NoDup (fst <$> o) → kv ∈ o → bucket_get kv.1 o = kv.2.
Proof.
  induction o as [|[k0 ns] o IH]; intros Hnd Hkv.
  { by apply elem_of_nil in Hkv. }
  rewrite fmap_cons in Hnd. apply NoDup_cons in Hnd as [Hk0 Hnd].
  cbn [bucket_get]. apply elem_of_cons in Hkv as [->|Hkv].
  - simpl. by rewrite bool_decide_eq_true_2.
  - rewrite bool_decide_eq_false_2; [by apply IH|].
    simpl. intros ->. apply Hk0. apply list_elem_of_fmap. by exists kv.
Qed.

Lemma bucket_get_in (k : string) (o : list (string * list string)) :
  bucket_get k o ≠ [] → (k, bucket_get k o) ∈ o.
Proof.
  induction o as [|[k0 ns] o IH]; cbn [bucket_get]; [done|].
  case_bool_decide as Hk.
  - subst k0. intros _. apply elem_of_cons. by left.
  - intros H. apply elem_of_cons. right. by apply IH.
Qed.

Lemma bucket_push_keys (k n : string) (o : list (string * list string)) :
  NoDup (fst <$> o) →
  NoDup (fst <$> (bucket_push k n o).2) ∧
  ∀ kv, kv ∈ (bucket_push k n o).2 → kv ∈ o ∨ kv = (k, (bucket_push k n o).1).
Proof.
  induction o as [|[k0 ns] o IH]; intros Hnd.
  - simpl. split; [apply NoDup_singleton|].
    intros kv Hkv%list_elem_of_singleton. by right.
  - rewrite fmap_cons in Hnd. apply NoDup_cons in Hnd as [Hk0 Hnd].
    cbn [bucket_push]. case_bool_decide as Hk.
    + subst k0. simpl. split.
      * apply NoDup_cons. by split.
      * intros kv [->|Hkv]%elem_of_cons; [by right|].
        left. apply elem_of_cons. by right.
    + destruct (IH Hnd) as [Hnd' Hmem].
      destruct (bucket_push k n o) as [b o'']. simpl in *. split.
      * apply NoDup_cons. split; [|done].
        intros (kv & Hkv1 & Hkv)%list_elem_of_fmap.
        destruct (Hmem kv Hkv) as [Hin| ->].
        -- apply Hk0. apply list_elem_of_fmap. by exists kv.
        -- simpl in Hkv1. congruence.
      * intros kv [->|Hkv]%elem_of_cons.
        -- left. apply elem_of_cons. by left.
        -- destruct (Hmem kv Hkv) as [Hin| ->]; [|by right].
           left. apply elem_of_cons. by right.
Qed.

Lemma largestBucket_max (cm : list (string * list string))
    (kv : string * list string) :
  kv ∈ cm → length kv.2 ≤ length (largestBucket cm).
Proof.
  unfold largestBucket.
  assert (∀ best,
            length best ≤
              length (foldl (λ best kv,
                               if length best <? length kv.2 then kv.2 else best)
                            best cm) ∧
            ∀ kv : string * list string, kv ∈ cm →
              length kv.2 ≤
                length (foldl (λ best kv,
                                 if length best <? length kv.2 then kv.2
                                 else best) best cm)) as H.
  { induction cm as [|kv0 cm IH]; intros best.
    - split; [done|]. intros kv' Hkv'. by apply elem_of_nil in Hkv'.
    - cbn [foldl].
      destruct (IH (if length best <? length kv0.2 then kv0.2 else best))
        as [Hge Hall].
      assert (length best ≤
              length (if length best <? length kv0.2 then kv0.2 else best) ∧
              length kv0.2 ≤
              length (if length best <? length kv0.2 then kv0.2 else best))
        as [Hb Hk].
      { destruct (Nat.ltb_spec (length best) (length kv0.2)); lia. }
      split; [lia|].
      intros kv' [->|Hkv']%elem_of_cons; [lia|by apply Hall]. }
  intros Hkv. by apply (H []).
Qed.

Section EvolutionCompleteness.
Variable fetch : string → M Meta.
Variable ch : string → option string.
Hypothesis stable : ∀ n w, evolution_chain (fetch n w).1 = ch n.

Lemma chainScan_exact minSize pool cm w seen :
  1 ≤ minSize →
  NoDup (fst <$> cm) →
  (∀ kv, kv ∈ cm → kv.1 ≠ "") →
  (∀ u, u ≠ "" →
        bucket_get u cm = List.filter (λ x, bool_decide (ch x = Some u)) seen ∧
        length (bucket_get u cm) < minSize) →
  match (chainScan fetch minSize pool cm w).1 with
  | None => ∀ n u, n ∈ seen ++ pool → ch n = Some u → u = ""
  | Some g =>
      ∃ u, u ≠ "" ∧ 1 ≤ length g ∧
        g = take minSize
              (List.filter (λ x, bool_decide (ch x = Some u)) (seen ++ pool)) ∧
        (length g < minSize →
         ∀ u', u' ≠ "" →
               length (List.filter (λ x, bool_decide (ch x = Some u'))
                                   (seen ++ pool)) ≤ length g)
  end.
Proof.
  intros Hmin. revert cm w seen.
  induction pool as [|n rest IH]; intros cm w seen Hnd Hkeys Hinv.
  - cbn [chainScan]. unfold ret. simpl. rewrite app_nil_r.
    destruct (Nat.ltb_spec 0 (length (largestBucket cm))) as [Hpos|Hzero].
    + destruct (largestBucket_pick cm) as [Hnil|(kv & Hin & Hkv)].
      { rewrite Hnil in Hpos. simpl in Hpos. lia. }
      exists kv.1. destruct (Hinv kv.1 (Hkeys kv Hin)) as [Hget Hlen].
      rewrite (bucket_get_lookup cm kv Hnd Hin) in Hget, Hlen.
      rewrite Hkv. split_and!; [by apply Hkeys|by rewrite <- Hkv| |].
      * rewrite <- Hget. rewrite take_ge; [done|lia].
      * intros _ u' Hu'. destruct (Hinv u' Hu') as [Hget' _].
        rewrite <- Hget', <- Hkv.
        destruct (bucket_get u' cm) as [|b0 b] eqn:Hb; [simpl; lia|].
        rewrite <- Hb. apply (largestBucket_max cm (u', bucket_get u' cm)).
        apply bucket_get_in. by rewrite Hb.
    + intros n u Hn Hu. destruct (decide (u = "")) as [|Hne]; [done|].
      exfalso. destruct (Hinv u Hne) as [Hget _].
      assert (n ∈ bucket_get u cm) as Hin.
      { rewrite Hget. apply elem_of_List_filter. split; [done|].
        by apply bool_decide_eq_true_2. }
      assert (bucket_get u cm ≠ []) as Hne'.
      { intros E. rewrite E in Hin. by apply elem_of_nil in Hin. }
      pose proof (largestBucket_max cm _ (bucket_get_in u cm Hne')) as Hle.
      simpl in Hle. destruct (bucket_get u cm); [done|simpl in Hle; lia].
  - replace (seen ++ n :: rest) with ((seen ++ [n]) ++ rest)
      by by rewrite <- app_assoc.
    cbn [chainScan]. unfold bind.
    pose proof (stable n w) as Hn.
    destruct (fetch n w) as [meta w1]. simpl in Hn. rewrite Hn.
    assert (∀ u', u' ≠ "" → ch n ≠ Some u' →
              bucket_get u' cm =
                List.filter (λ x, bool_decide (ch x = Some u')) (seen ++ [n]) ∧
              length (bucket_get u' cm) < minSize) as Hskip.
    { intros u' Hu' Hne. destruct (Hinv u' Hu') as [Hg Hl]. split; [|done].
      rewrite filter_by_snoc, bool_decide_eq_false_2, app_nil_r; done. }
    destruct (ch n) as [u0|] eqn:Hu0.
    2:{ apply (IH cm w1 (seen ++ [n])); [done|done|].
        intros u' Hu'. by apply Hskip. }
    destruct (JS.truthy u0) eqn:Htr.
    2:{ apply (IH cm w1 (seen ++ [n])); [done|done|].
        intros u' Hu'. apply Hskip; [done|]. intros [= ->].
        apply truthy_true in Hu'. congruence. }
    apply truthy_true in Htr.
    destruct (bucket_push_get u0 n cm) as [Hb Hget].
    destruct (bucket_push_keys u0 n cm Hnd) as [Hnd' Hmem].
    destruct (bucket_push u0 n cm) as [members cm']. simpl in Hb, Hget, Hnd', Hmem.
    destruct (Hinv u0 Htr) as [Hg0 Hl0].
    assert (members =
            List.filter (λ x, bool_decide (ch x = Some u0)) (seen ++ [n]))
      as Hmembers.
    { by rewrite filter_by_snoc, Hu0, bool_decide_eq_true_2, Hb, Hg0. }
    assert (length members = S (length (bucket_get u0 cm))) as Hlm.
    { rewrite Hb, length_app. simpl. lia. }
    destruct (Nat.leb_spec minSize (length members)) as [Hfull|Hshort].
    + simpl. exists u0. rewrite length_take.
      split_and!; [done|lia| |lia].
      rewrite List.filter_app, <- Hmembers.
      replace minSize with (length members) by lia.
      by rewrite take_app_length, take_ge.
    + apply (IH cm' w1 (seen ++ [n])); [done| |].
      * intros kv Hkv. destruct (Hmem kv Hkv) as [Hin| ->]; [by apply Hkeys|done].
      * intros u' Hu'. rewrite Hget.
        destruct (decide (u' = u0)) as [->|Hne].
        -- rewrite bool_decide_eq_true_2 by done. rewrite <- Hb.
           split; [done|lia].
        -- rewrite bool_decide_eq_false_2 by done.
           apply Hskip; [done|]. by intros [= ->].
Qed.

(** X20. With a catalog that gives the same evolution chain for the same
    item whenever it is asked, [buildEvolutionGroup] asked for at least one
    member returns nothing exactly when no item of the pool has a chain;
    otherwise it returns, for one chain, the first [minSize] pool items of
    that chain, in the pool's order; and when that group is shorter than
    [minSize] it is a whole family and no family of the pool is larger. *)
Theorem evolution_group_complete (pool : list string) (minSize : nat)
    (w : World) :
  1 ≤ minSize →
  match (buildEvolutionGroup fetch pool minSize w).1 with
  | None => ∀ n u, n ∈ pool → ch n = Some u → u = ""
  | Some g =>
      ∃ u, u ≠ "" ∧ 1 ≤ length g ∧
        g = take minSize
              (List.filter (λ x, bool_decide (ch x = Some u)) pool) ∧
        (length g < minSize →
         ∀ u', u' ≠ "" →
               length (List.filter (λ x, bool_decide (ch x = Some u')) pool)
                 ≤ length g)
  end.
Proof.
  intros Hmin. unfold buildEvolutionGroup.
  apply (chainScan_exact minSize pool [] w [] Hmin).
  - constructor.
  - intros kv Hkv. by apply elem_of_nil in Hkv.
  - intros u _. simpl. split; [done|lia].
Qed.
End EvolutionCompleteness.

Lemma type_group_complete_witness :
  (buildTypeGroup sparse_env (Script.fetchPokemonData sparse_env)
                  ["abra"; "bulbasaur"; "ivysaur"; "venusaur"] 4 w0).1 = None.
Proof.
  apply (type_group_complete sparse_env (Script.fetchPokemonData sparse_env)
           (λ n, if bool_decide (n ∈ grassFamily) then Some "grass" else None)).
  - intros n w'. unfold Script.fetchPokemonData, sparse_env. simpl.
    by destruct (bool_decide (n ∈ grassFamily)).
  - lia.
  - intros t Ht. destruct (decide (t = "grass")) as [->|Hne].
    + vm_compute. lia.
    + assert (∀ l : list string,
                List.filter
                  (λ x, bool_decide
                          ((if bool_decide (x ∈ grassFamily)
                            then Some "grass" else None) = Some t)) l = [])
        as ->; [|simpl; lia].
      induction l as [|x l IH]; [done|]. simpl.
      rewrite bool_decide_eq_false_2; [done|].
      destruct (bool_decide (x ∈ grassFamily)); congruence.
Defined.

Lemma evolution_group_complete_witness :
  ∃ u, u ≠ "" ∧
    ["bulbasaur"; "ivysaur"; "venusaur"] =
      take 4 (List.filter
                (λ x, bool_decide
                        ((if bool_decide (x ∈ grassFamily)
                          then Some "evolution-chain/1" else None) = Some u))
                Script.GEN1).
Proof.
  pose proof (evolution_group_complete (Script.fetchPokemonData sparse_env)
                (λ n, if bool_decide (n ∈ grassFamily)
                      then Some "evolution-chain/1" else None)) as H.
  assert ((buildEvolutionGroup (Script.fetchPokemonData sparse_env)
                               Script.GEN1 4 w0).1 =
          Some ["bulbasaur"; "ivysaur"; "venusaur"]) as E
    by (vm_compute; reflexivity).
  specialize (H ltac:(intros n w'; unfold Script.fetchPokemonData, sparse_env;
                      simpl; by destruct (bool_decide (n ∈ grassFamily)))
                Script.GEN1 4 w0 ltac:(lia)).
  rewrite E in H. destruct H as (u & Hu & _ & Hg & _).
  exists u. split; [exact Hu|exact Hg].
Defined.

(** ** A sound board can be won *)

Lemma run_app (ops1 ops2 : list Op) (st : State) :
  run (ops1 ++ ops2) st = run ops2 (run ops1 st).
Proof. unfold run. apply foldl_app. Qed.

Lemma clicks_select (pos sel : list nat) (st : State) :
  selected st = sel →
  NoDup (sel ++ pos) →
  length (sel ++ pos) ≤ GROUP_SIZE →
  Forall (λ i, ∃ c, cardData st !! i = Some c ∧ locked c = false) pos →
  run (Click <$> pos) st =
  mkState (cardData st) (sel ++ pos) (solutions st) (status st).
Proof.
  revert sel st. induction pos as [|i pos IH]; intros sel st Hsel Hnd Hlen Hpos.
  - rewrite app_nil_r, <- Hsel. by destruct st.
  - apply Forall_cons in Hpos as [(c & Hc & Hl) Hpos].
    rewrite fmap_cons. change (run (Click i :: (Click <$> pos)) st)
      with (run (Click <$> pos) (onCardClick i st)).
    assert (onCardClick i st =
            mkState (cardData st) (sel ++ [i]) (solutions st) (status st))
      as Hclick.
    { unfold onCardClick. rewrite Hc, Hl, Hsel.
      assert (i ∉ sel) as Hi.
      { apply NoDup_app in Hnd as (_ & Hdis & _). intros Hin.
        apply (Hdis i Hin). apply elem_of_cons. by left. }
      apply indexOf_absent in Hi.
      destruct (Z.leb_spec 0 (JS.indexOf sel i)); [lia|].
      rewrite length_app in Hlen. simpl in Hlen.
      destruct (Nat.leb_spec GROUP_SIZE (length sel)); [lia|done]. }
    rewrite Hclick.
    rewrite (IH (sel ++ [i])); simpl.
    + by rewrite <- app_assoc.
    + done.
    + by rewrite <- app_assoc.
    + by rewrite <- app_assoc.
    + done.
Qed.

Lemma lock_whole_group (st : State) (m : nat) :
  well_formed st →
  length (selected st) = GROUP_SIZE →
  Forall (λ i, ∃ c, cardData st !! i = Some c ∧ groupId c = Z.of_nat m)
         (selected st) →
  (lockSelection st).2 =
  checkWin (mkState (lockAll (selected st) (cardData st)) []
                    (clearGroup (Z.of_nat m) (solutions st)) MSG_CORRECT).
Proof.
  intros Hwf Hlen Hsel.
  destruct (well_formed_selected_cards st Hwf)
    as (cards & Hcards & _ & _ & Hgid).
  assert (Forall (λ c, groupId c = Z.of_nat m) cards) as Hall.
  { apply mapM_Some in Hcards. clear -Hcards Hsel.
    induction Hcards as [|i c sel cards Hc _ IH]; [constructor|].
    apply Forall_cons in Hsel as [(c' & Hc' & Hg) Hsel].
    constructor; [congruence|by apply IH]. }
  assert (JS.Set_of (groupIndexOf (solutions st) <$> (name <$> cards)) =
          [Z.of_nat m]) as Hset.
  { rewrite Hgid. apply Set_of_singleton. split.
    - apply mapM_Some, Forall2_length in Hcards.
      destruct cards; [|done]. simpl in Hcards. unfold GROUP_SIZE in Hlen. lia.
    - apply Forall_fmap. eapply Forall_impl; [exact Hall|]. done. }
  destruct (lockSelection_cases st)
    as [[Hne _]|[(_&Hnone&_)|(cards'&_&Hcards'&[(gid&Hset'&->)|[Hne _]])]].
  - done.
  - congruence.
  - assert (cards' = cards) as -> by congruence.
    rewrite Hset in Hset'. by injection Hset' as <-.
  - assert (cards' = cards) as -> by congruence.
    rewrite Hset in Hne. done.
Qed.

Lemma claim_next (m : nat) (st : State) (pos : list nat) :
  claimed_upto m st →
  NoDup pos → length pos = GROUP_SIZE →
  Forall (λ i, ∃ c, cardData st !! i = Some c ∧ groupId c = Z.of_nat m) pos →
  claimed_upto (S m) (run ((Click <$> pos) ++ [Lock]) st) ∧
  (GROUP_SIZE * S m = MAX_BOARD →
   status (run ((Click <$> pos) ++ [Lock]) st) = MSG_WON).
Proof.
  intros (Hwf & Hsel & Hlocked & Hcount) Hnd Hlen Hpos.
  assert (Forall (λ i, ∃ c, cardData st !! i = Some c ∧ locked c = false) pos)
    as Hfree.
  { eapply Forall_impl; [exact Hpos|]. intros i (c & Hc & Hg).
    exists c. split; [done|]. destruct (locked c) eqn:Hl; [|done].
    pose proof (Hlocked c (list_elem_of_lookup_2 _ _ _ Hc) Hl). lia. }
  rewrite run_app.
  rewrite (clicks_select pos [] st Hsel); [|done|simpl; lia|done].
  simpl app. set (st1 := mkState (cardData st) pos (solutions st) (status st)).
  assert (well_formed st1) as Hwf1.
  { destruct Hwf as (H1 & H2 & H3 & _ & _). split_and!; done. }
  change (run [Lock] st1) with (lockSelection st1).2.
  pose proof (well_formed_lock st1 Hwf1) as Hwf'.
  rewrite (lock_whole_group st1 m Hwf1 Hlen Hpos) in Hwf' |- *.
  simpl selected. simpl cardData. simpl solutions.
  set (st2 := mkState (lockAll pos (cardData st)) []
                      (clearGroup (Z.of_nat m) (solutions st)) MSG_CORRECT)
    in *.
  assert (length (List.filter locked (cardData st2)) = GROUP_SIZE * S m)
    as Hcount'.
  { unfold st2. cbn [cardData]. rewrite lockAll_count by done.
    unfold GROUP_SIZE in *. lia. }
  split.
  - split_and!.
    + done.
    + by rewrite checkWin_selected.
    + rewrite checkWin_cardData. simpl. intros c' Hc' Hl'.
      apply list_elem_of_lookup_1 in Hc' as [i Hi].
      rewrite lockAll_lookup in Hi.
      destruct (cardData st !! i) as [c|] eqn:Hc; [|done]. simpl in Hi.
      case_bool_decide as Hin.
      * injection Hi as <-. simpl. rewrite Forall_forall in Hpos.
        destruct (Hpos i Hin) as (c0 & Hc0 & Hg). assert (c0 = c) by congruence.
        subst. lia.
      * injection Hi as <-.
        pose proof (Hlocked c (list_elem_of_lookup_2 _ _ _ Hc) Hl'). lia.
    + by rewrite checkWin_cardData.
  - intros Hfull. unfold checkWin. rewrite Hcount', Hfull.
    by rewrite Nat.eqb_refl.
Qed.

Lemma group_positions (cards : list Card) (g : list string) :
  (∀ n, n ∈ g → n ∈ name <$> cards) → NoDup g →
  ∃ pos, length pos = length g ∧ NoDup pos ∧
         Forall2 (λ i n, ∃ c, cards !! i = Some c ∧ name c = n) pos g.
Proof.
  induction g as [|n g IH]; intros Hin Hnd.
  { exists []. split_and!; [done|constructor|constructor]. }
  apply NoDup_cons in Hnd as [Hn Hnd].
  destruct IH as (pos & Hlen & Hndp & Hall); [|done|].
  { intros n' Hn'. apply Hin. apply elem_of_cons. by right. }
  assert (n ∈ name <$> cards) as (c & -> & Hc)%list_elem_of_fmap.
  { apply Hin. apply elem_of_cons. by left. }
  apply list_elem_of_lookup_1 in Hc as [i Hi].
  exists (i :: pos). split_and!.
  - simpl. by rewrite Hlen.
  - apply NoDup_cons. split; [|done]. intros Hip. apply Hn.
    apply list_elem_of_lookup_1 in Hip as [j Hj].
    destruct (Forall2_lookup_l _ _ _ _ _ Hall Hj) as (n' & Hn' & c' & Hc' & <-).
    assert (c' = c) as -> by congruence.
    by eapply list_elem_of_lookup_2.
  - constructor; [by exists c|done].
Qed.

Lemma win_from (cards0 : list Card) (d m : nat) (st : State) :
  m + d = MAX_GROUPS →
  claimed_upto m st →
  lock_mono cards0 (cardData st) →
  (∀ k, m ≤ k < MAX_GROUPS →
        ∃ pos, NoDup pos ∧ length pos = GROUP_SIZE ∧
               Forall (λ i, ∃ c, cards0 !! i = Some c ∧ groupId c = Z.of_nat k)
                      pos) →
  ∃ ops, length ops = (GROUP_SIZE + 1) * d ∧
         claimed_upto MAX_GROUPS (run ops st) ∧
         (0 < d → status (run ops st) = MSG_WON).
Proof.
  revert m st. induction d as [|d IH]; intros m st Hmd Hcl Hmono Hpos.
  - exists []. rewrite Nat.add_0_r in Hmd. subst m.
    split_and!; [done|done|lia].
  - destruct (Hpos m) as (pos & Hnd & Hlen & Hall); [lia|].
    assert (Forall (λ i, ∃ c, cardData st !! i = Some c ∧
                              groupId c = Z.of_nat m) pos) as Hall'.
    { eapply Forall_impl; [exact Hall|]. intros i (c & Hc & Hg).
      destruct (Forall2_lookup_l _ _ _ _ _ Hmono Hc) as (c' & Hc' & _ & _ & Hg' & _).
      exists c'. split; [done|congruence]. }
    destruct (claim_next m st pos Hcl Hnd Hlen Hall') as [Hcl' Hwon].
    set (st' := run ((Click <$> pos) ++ [Lock]) st) in *.
    destruct (IH (S m) st') as (ops & Hops & Hfin & Hst).
    + lia.
    + done.
    + eapply lock_mono_trans; [exact Hmono|apply run_mono].
    + intros k Hk. apply Hpos. lia.
    + exists (((Click <$> pos) ++ [Lock]) ++ ops). rewrite run_app.
      fold st'. split_and!.
      * rewrite !length_app, length_fmap, Hlen, Hops. simpl. lia.
      * done.
      * intros _. destruct d as [|d].
        -- destruct ops; [|simpl in Hops; lia].
           apply Hwon. unfold MAX_BOARD, MAX_GROUPS, GROUP_SIZE in *. lia.
        -- apply Hst. lia.
Qed.

Section Winning.
Variable env : Env.
Variable fetch : string → M Meta.

(** X21. In the Gen 1-7 variant every board published from four disjoint
    groups of four can be won: there are twenty commands (for each group
    in turn, a click on each of its four entries and then a guess) after
    which every entry is locked and the status line announces the win. *)
Theorem sound_board_can_be_won (sols : list (list string)) (w : World) :
  NoDup (concat sols) →
  length sols = MAX_GROUPS →
  Forall (λ g, length g = GROUP_SIZE) sols →
  ∃ ops, length ops = 20 ∧
         status (run ops (publish env fetch sols w).1) = MSG_WON ∧
         Forall (λ c, locked c = true)
                (cardData (run ops (publish env fetch sols w).1)).
Proof.
  intros Hnd Hlen Hsizes.
  pose proof (well_formed_publish env fetch sols w Hnd Hsizes) as Hwf.
  destruct (published_names env fetch sols w) as [_ Hnames].
  destruct (publish_spec env fetch sols w) as (shuffled & metas & Hp & Hm & Hst).
  set (st := (publish env fetch sols w).1) in *.
  assert (name <$> cardData st = shuffled) as Hboard.
  { rewrite Hst. simpl. by apply zip_cards_names. }
  assert (∀ c, c ∈ cardData st →
               groupId c = groupIndexOf sols (name c) ∧ locked c = false)
    as Hcard.
  { intros c (i & Hi)%list_elem_of_lookup_1. rewrite Hst in Hi. simpl in Hi.
    apply lookup_zip_with_Some in Hi as (n & m & -> & _ & _). done. }
  assert (length (cardData st) = MAX_BOARD) as Hsixteen.
  { rewrite <- (length_fmap name), Hboard, Hp.
    rewrite (length_concat_groups sols GROUP_SIZE Hsizes), Hlen. done. }
  destruct (win_from (cardData st) MAX_GROUPS 0 st) as (ops & Hops & Hfin & Hwon).
  - done.
  - split_and!; [done|by rewrite Hst| |].
    + intros c Hc Hl. destruct (Hcard c Hc) as [_ Hl']. congruence.
    + rewrite Nat.mul_0_r. apply length_zero_iff_nil.
      destruct (List.filter locked (cardData st)) as [|c l] eqn:Hf; [done|].
      assert (c ∈ List.filter locked (cardData st)) as Hc.
      { rewrite Hf. apply elem_of_cons. by left. }
      apply elem_of_List_filter in Hc as [Hc Hl].
      destruct (Hcard c Hc) as [_ Hl']. congruence.
  - apply lock_mono_refl.
  - intros k Hk. destruct (lookup_lt_is_Some_2 sols k) as [g Hg]; [lia|].
    destruct (group_positions (cardData st) g) as (pos & Hl & Hndp & Hall).
    + intros n Hn. rewrite Hboard, Hp. apply elem_of_concat. exists g.
      split; [by eapply list_elem_of_lookup_2|done].
    + eapply NoDup_concat_group; [exact Hnd|]. by eapply list_elem_of_lookup_2.
    + exists pos. split_and!; [done| |].
      * rewrite Hl. rewrite Forall_forall in Hsizes.
        apply Hsizes. by eapply list_elem_of_lookup_2.
      * apply Forall_forall. intros i Hi.
        apply list_elem_of_lookup_1 in Hi as [j Hj].
        destruct (Forall2_lookup_l _ _ _ _ _ Hall Hj) as (n & Hn & c & Hc & <-).
        exists c. split; [done|].
        destruct (Hcard c (list_elem_of_lookup_2 _ _ _ Hc)) as [-> _].
        apply (groupIndexOf_disjoint sols k g (name c) Hnd Hg).
        by eapply list_elem_of_lookup_2.
  - exists ops. split_and!.
    + rewrite Hops. reflexivity.
    + apply Hwon. unfold MAX_GROUPS. lia.
    + destruct Hfin as (_ & _ & _ & Hcount).
      apply filter_length_all. rewrite Hcount.
      pose proof (run_mono ops st) as Hmono.
      apply Forall2_length in Hmono. rewrite <- Hmono, Hsixteen. done.
Qed.
End Winning.

Lemma sound_board_can_be_won_witness :
  ∃ ops, length ops = 20 ∧ status (run ops demo_published) = MSG_WON.
Proof.
  destruct (sound_board_can_be_won silent_env (Script.fetchPokemonData silent_env)
              demo_solutions w0) as (ops & Hl & Hw & _).
  - exact demo_solutions_NoDup.
  - reflexivity.
  - exact demo_solutions_sizes.
  - by exists ops.
Defined.

(** ** Boards built without the filler *)

Lemma padStack_NoDup target g stk g' stk' :
  NoDup g → padStack target g stk = Some (g', stk') → NoDup g'.
Proof.
  revert g. induction stk as [|y stk IH]; intros g Hnd; cbn [padStack].
  - destruct (target <=? length g); [by intros [= <- <-]|].
    destruct (JS.includes g None) eqn:Hinc; [done|].
    destruct (target <=? length (g ++ [None])); [|done].
    intros [= <- <-]. apply NoDup_app. split_and!; [done| |apply NoDup_singleton].
    intros x Hx ->%list_elem_of_singleton. by apply includes_false in Hinc.
  - destruct (target <=? length g); [by intros [= <- <-]|].
    apply IH. destruct (JS.includes g (Some y)) eqn:Hinc; [done|].
    apply NoDup_app. split_and!; [done| |apply NoDup_singleton].
    intros x Hx ->%list_elem_of_singleton. by apply includes_false in Hinc.
Qed.

Lemma NoDup_fmap_Some (l : list string) : NoDup l → NoDup (Some <$> l).
Proof. apply NoDup_fmap_2. by intros x y [= ->]. Qed.

Lemma NoDup_concat_intro {A} (ls : list (list A)) :
  Forall NoDup ls →
  (∀ i j g h x, i ≠ j → ls !! i = Some g → ls !! j = Some h → x ∈ g → x ∉ h) →
  NoDup (concat ls).
Proof.
  induction ls as [|l ls IH]; intros Hall Hdis; [constructor|].
  apply Forall_cons in Hall as [Hl Hall]. simpl.
  apply NoDup_app. split_and!; [done| |].
  - intros x Hx (h & Hh & Hxh)%elem_of_concat.
    apply list_elem_of_lookup_1 in Hh as [j Hj].
    by apply (Hdis 0 (S j) l h x).
  - apply IH; [done|]. intros i j g h x Hij Hi Hj.
    apply (Hdis (S i) (S j) g h x); [lia|done|done].
Qed.

Section WithoutFiller.
Variable env : Env.
Variable fetch : string → M Meta.
Variable filler :
  list string → string → nat → MO (list (option string) * list string).
Variable legends : list string.
Hypothesis no_chain : ∀ n w, evolution_chain (fetch n w).1 = None.
Hypothesis legends_distinct : NoDup legends.

Lemma buildTypeGroup_NoDup pool size w g :
  NoDup pool → (buildTypeGroup env fetch pool size w).1 = Some g → NoDup g.
Proof.
  unfold buildTypeGroup, bind. intros Hnd Hg.
  pose proof (shuffle_Permutation env pool w) as Hp.
  destruct (shuffle env pool w) as [sample w1]. simpl in Hp.
  destruct (typeScan_sound fetch size sample [] w1 g [] (Forall_nil_2 _) Hg)
    as (_ & Hsub & _).
  eapply sublist_NoDup; [|exact Hsub]. simpl. by rewrite Hp.
Qed.

Lemma typeStep_distinct pool w :
  NoDup pool → Forall NoDup (typeStep env fetch pool w).1.1.
Proof.
  intros Hnd. unfold typeStep, bind, ret.
  pose proof (buildTypeGroup_NoDup pool GROUP_SIZE w) as Hg.
  destruct (buildTypeGroup env fetch pool GROUP_SIZE w) as [[g|] w1];
    simpl in *; [|constructor].
  apply Forall_singleton. apply NoDup_fmap_Some. by apply Hg.
Qed.

Lemma evolutionStep_skipped groups pool w :
  evolutionStep fetch filler groups pool w =
  Returns (groups, pool) (chainScan fetch GROUP_SIZE pool [] w).2.
Proof.
  unfold evolutionStep, bindO, lift, retO, buildEvolutionGroup.
  pose proof (chainScan_chainless fetch GROUP_SIZE pool w no_chain) as Hnone.
  destruct (chainScan fetch GROUP_SIZE pool [] w) as [r w1]. simpl in *.
  by subst r.
Qed.

Lemma legendStep_distinct groups pool w groups' pool' w' :
  Forall NoDup groups →
  legendStep legends groups pool w = Returns (groups', pool') w' →
  Forall NoDup groups'.
Proof.
  intros Hall. unfold legendStep, retO.
  set (legendGroup := take GROUP_SIZE _).
  assert (NoDup legendGroup) as Hnd.
  { eapply sublist_NoDup; [exact legends_distinct|].
    etrans; [apply sublist_take|apply List_filter_sublist]. }
  destruct (2 <=? length legendGroup).
  2:{ by intros [= <- <- <-]. }
  unfold padFromTail.
  destruct (padStack GROUP_SIZE (Some <$> legendGroup) (reverse pool))
    as [[g stk]|] eqn:Hp; [|done].
  intros [= <- <- <-]. apply Forall_app. split; [done|].
  apply Forall_singleton.
  eapply padStack_NoDup; [|exact Hp]. by apply NoDup_fmap_Some.
Qed.

Lemma fillGroups_distinct n groups pool w :
  NoDup pool → Forall NoDup groups →
  Forall NoDup (fillGroups env fetch n groups pool w).1.1.
Proof.
  revert groups pool w. induction n as [|n IH]; intros groups pool w Hnd Hall;
    [done|].
  cbn [fillGroups]. unfold bind.
  pose proof (buildTypeGroup_NoDup pool GROUP_SIZE w) as Hg.
  destruct (buildTypeGroup env fetch pool GROUP_SIZE w) as [[g|] w1];
    simpl in Hg.
  - unfold ret. apply IH; [by apply removeFromPool_NoDup|].
    apply Forall_app. split; [done|]. apply Forall_singleton.
    apply NoDup_fmap_Some. by apply Hg.
  - destruct (sampleArray_spec env pool GROUP_SIZE w1) as (a & Ha & Hs).
    destruct (sampleArray env pool GROUP_SIZE w1) as [s w2]. simpl in Hs.
    apply IH; [by apply removeFromPool_NoDup|].
    apply Forall_app. split; [done|]. apply Forall_singleton.
    apply NoDup_fmap_Some. subst s.
    eapply sublist_NoDup; [|apply sublist_take]. by rewrite Ha.
Qed.

Lemma assemble_distinct pool w sols w' :
  NoDup pool →
  (∀ x, x ∈ pool → JS.toLowerCase x = x) →
  assemble env fetch filler legends pool w = Returns sols w' →
  NoDup (concat sols).
Proof.
  intros Hnd Hlow. unfold assemble. unfold bindO at 1. unfold lift at 1.
  pose proof (typeStep_sourced env fetch pool pool w (sourced_start pool Hnd))
    as H1.
  pose proof (typeStep_distinct pool w Hnd) as D1.
  destruct (typeStep env fetch pool w) as [[groups1 pool1] w1].
  simpl in H1, D1.
  unfold bindO at 1. rewrite evolutionStep_skipped.
  unfold bindO at 1.
  destruct (legendStep legends groups1 pool1 _)
    as [[groups3 pool3] w3| |] eqn:Hl; [|done|done].
  pose proof (legendStep_sourced legends pool _ _ _ _ _ _ H1 Hl) as H3.
  pose proof (legendStep_distinct _ _ _ _ _ _ D1 Hl) as D3.
  unfold bindO, lift.
  pose proof (fillGroups_sourced env fetch pool (MAX_GROUPS - length groups3)
                groups3 pool3 w3 H3) as H4.
  pose proof (fillGroups_distinct (MAX_GROUPS - length groups3) groups3 pool3 w3
                (proj1 H3) D3) as D4.
  destruct (fillGroups env fetch (MAX_GROUPS - length groups3) groups3 pool3 w3)
    as [[groups4 pool4] w4]. simpl in H4, D4.
  destruct (lowerGroups groups4) as [sols'|] eqn:Hlg; [|done].
  intros [= <- <-].
  destruct H4 as (_ & _ & Hmem & Hdis). rewrite Forall_forall in Hmem.
  assert (groups4 = (λ s : list string, Some <$> s) <$> sols') as ->.
  { apply lowerGroups_same; [done|]. intros g x Hg Hx.
    apply Hlow. by apply (Hmem g Hg x). }
  assert (∀ (g : list string) x, x ∈ g → Some x ∈ Some <$> g) as Hsome.
  { intros g x Hx. apply list_elem_of_fmap. by exists x. }
  apply NoDup_concat_intro.
  - apply Forall_forall. intros g Hg. rewrite Forall_forall in D4.
    apply (NoDup_fmap_1 Some). apply D4. apply list_elem_of_fmap. by exists g.
  - intros i j g h x Hij Hi Hj Hx Hxh.
    apply (Hdis i j (Some <$> g) (Some <$> h) x Hij).
    + by rewrite list_lookup_fmap, Hi.
    + by rewrite list_lookup_fmap, Hj.
    + by apply Hsome.
    + by apply Hsome.
Qed.
End WithoutFiller.

Lemma candidateLegends_NoDup : NoDup Part001.candidateLegends.
Proof. apply (bool_decide_unpack _). by vm_compute. Qed.

Lemma legendaryNames_NoDup : NoDup Script.legendaryNames.
Proof. apply (bool_decide_unpack _). by vm_compute. Qed.

Lemma published_distinct env fetch (sols : list (list string)) (w : World) :
  NoDup (concat sols) →
  solutions (publish env fetch sols w).1 = sols ∧
  NoDup (name <$> cardData (publish env fetch sols w).1) ∧
  length (cardData (publish env fetch sols w).1) = length (concat sols).
Proof.
  intros Hnd.
  destruct (publish_spec env fetch sols w) as (shuffled & metas & Hp & Hm & ->).
  simpl. rewrite zip_cards_names by done.
  split_and!; [done|by rewrite Hp|].
  rewrite length_zip_with_l_eq by done. by rewrite Hp.
Qed.

(** X22. When no lookup yields an evolution chain, so that the filler is
    never called, every board that [startGame] publishes, in both
    variants, is made of distinct identifiers: no identifier occurs twice
    in the solution groups or on the board. *)
Theorem boards_distinct_without_chains env (w : World) (st : State)
    (w' : World) :
  (∀ k u sp, speciesEndpoint env k u = Some sp → s_evolution_chain sp = None) →
  (Script.startGame env w = Returns st w' →
   NoDup (concat (solutions st)) ∧ NoDup (name <$> cardData st)) ∧
  ((∀ c, poolCache w = Some c →
         NoDup c ∧ ∀ x, x ∈ c → JS.toLowerCase x = x) →
   Part001.startGame env w = Returns st w' → status st = MSG_READY →
   NoDup (concat (solutions st)) ∧ NoDup (name <$> cardData st)).
Proof.
  intros Hsp.
  assert (∀ n w1, evolution_chain (Script.fetchPokemonData env n w1).1 = None)
    as Hs.
  { intros n w1. unfold Script.fetchPokemonData.
    destruct (pokemonEndpoint env (net w1) n); [|done].
    destruct (speciesEndpoint env (net w1 + 1) (p_species_url p)) eqn:E; [|done].
    simpl. by eapply Hsp. }
  assert (∀ n w1, evolution_chain (Part001.fetchPokemonData env n w1).1 = None)
    as Hp1.
  { intros n w1. unfold Part001.fetchPokemonData.
    destruct (pokemonEndpoint env (net w1) n); [|done].
    destruct (speciesEndpoint env (net w1 + 1) (p_species_url p)) eqn:E; [|done].
    simpl. by eapply Hsp. }
  split.
  - unfold Script.startGame, Script.generate, bindO at 1.
    pose proof (assemble_distinct env (Script.fetchPokemonData env)
                  (Script.findSameTypeFiller env) Script.legendaryNames
                  Hs legendaryNames_NoDup Script.GEN1 w) as Ha.
    destruct (assemble env (Script.fetchPokemonData env)
                (Script.findSameTypeFiller env) Script.legendaryNames
                Script.GEN1 w) as [sols w1| |]; [| |discriminate].
    + specialize (Ha sols w1 GEN1_NoDup GEN1_lower eq_refl).
      unfold lift.
      destruct (laid_names env (Script.fetchPokemonData env) sols w1)
        as (Hsol & _ & Hnames).
      destruct (layBoard env (Script.fetchPokemonData env) sols w1) as [st1 w2].
      simpl in Hsol, Hnames. intros [= <- <-]. simpl.
      rewrite Hsol, Hnames. by split.
    + intros [= <- <-]. simpl. split; apply NoDup_nil_2.
  - intros Hcache.
    unfold Part001.startGame, Part001.generate, bindO at 1. unfold lift at 1.
    assert (NoDup (Part001.getPoolForGens env 1 Part001.MAX_GEN w).1) as Hnd.
    { apply getPoolForGens_NoDup. intros c Hc. by apply Hcache. }
    assert (∀ x, x ∈ (Part001.getPoolForGens env 1 Part001.MAX_GEN w).1 →
                 JS.toLowerCase x = x) as Hlow.
    { apply getPoolForGens_lower. intros c Hc. by apply Hcache. }
    destruct (Part001.getPoolForGens env 1 Part001.MAX_GEN w) as [pool w0'].
    simpl in Hnd, Hlow |- *.
    destruct (length pool <? MAX_BOARD).
    { unfold throwO. intros [= <- <-] Hst. discriminate Hst. }
    unfold bindO at 1. unfold lift at 1.
    pose proof (shuffle_Permutation env pool w0') as Hp.
    destruct (shuffle env pool w0') as [candidatePool w1]. simpl in Hp.
    unfold bindO at 1.
    pose proof (assemble_distinct env (Part001.fetchPokemonData env)
                  (Part001.findSameTypeFiller env) Part001.candidateLegends
                  Hp1 candidateLegends_NoDup candidatePool w1) as Ha.
    destruct (assemble env (Part001.fetchPokemonData env)
                (Part001.findSameTypeFiller env) Part001.candidateLegends
                candidatePool w1) as [sols w2| |]; [| |discriminate].
    + assert (NoDup (concat sols)) as Hd.
      { apply (Ha sols w2); [by rewrite Hp| |done].
        intros x Hx. apply Hlow. by rewrite <- Hp. }
      unfold lift.
      destruct (published_distinct env (Part001.fetchPokemonData env) sols w2 Hd)
        as (Hsol & Hnames & _).
      destruct (publish env (Part001.fetchPokemonData env) sols w2) as [st1 w3].
      simpl in Hsol, Hnames. intros [= <- <-] _. by rewrite Hsol.
    + intros [= <- <-] Hst. discriminate Hst.
Qed.

Lemma boards_distinct_without_chains_witness :
  ∃ st w', Script.startGame outage_env w0 = Returns st w' ∧
           NoDup (name <$> cardData st).
Proof.
  destruct (script_start_returns outage_env w0) as (sols & w1 & _ & _ & _ & Hs).
  eexists _, _. split; [exact Hs|].
  refine (proj2 (proj1 (boards_distinct_without_chains outage_env w0 _ _ _) Hs)).
  intros k u sp Hsp. discriminate Hsp.
Defined.

(** ** How many requests a scan makes *)

Section LookupCost.
Variable fetch : string → M Meta.
Hypothesis cost : ∀ n w,
  rnd (fetch n w).2 = rnd w ∧ poolCache (fetch n w).2 = poolCache w ∧
  net w + 1 ≤ net (fetch n w).2 ≤ net w + 2.

Lemma chainScan_cost minSize pool cm w :
  rnd (chainScan fetch minSize pool cm w).2 = rnd w ∧
  net (chainScan fetch minSize pool cm w).2 ≤ net w + 2 * length pool ∧
  (match (chainScan fetch minSize pool cm w).1 with
   | Some g => length g < minSize
   | None => True
   end →
   net w + length pool ≤ net (chainScan fetch minSize pool cm w).2).
Proof.
  revert cm w. induction pool as [|n rest IH]; intros cm w.
  { simpl. split_and!; [done|lia|lia]. }
  cbn [chainScan]. unfold bind.
  destruct (cost n w) as (Hr & _ & Hn).
  destruct (fetch n w) as [meta w1]. simpl in Hr, Hn.
  assert (∀ cm',
            rnd (chainScan fetch minSize rest cm' w1).2 = rnd w ∧
            net (chainScan fetch minSize rest cm' w1).2
              ≤ net w + 2 * length (n :: rest) ∧
            (match (chainScan fetch minSize rest cm' w1).1 with
             | Some g => length g < minSize
             | None => True
             end →
             net w + length (n :: rest)
               ≤ net (chainScan fetch minSize rest cm' w1).2)) as Hrec.
  { intros cm'. destruct (IH cm' w1) as (Hr' & Hle & Hge). simpl.
    split_and!; [congruence|lia|]. intros Hshort. specialize (Hge Hshort). lia. }
  destruct (evolution_chain meta) as [u|]; [|apply Hrec].
  destruct (JS.truthy u); [|apply Hrec].
  destruct (bucket_push u n cm) as [members cm'].
  destruct (Nat.leb_spec minSize (length members)) as [Hfull|Hshort];
    [|apply Hrec].
  simpl. split_and!; [done|lia|]. rewrite length_take. lia.
Qed.

Lemma fetchAll_cost names w :
  rnd (fetchAll fetch names w).2 = rnd w ∧
  net w + length names ≤ net (fetchAll fetch names w).2
                       ≤ net w + 2 * length names.
Proof.
  revert w. induction names as [|n names IH]; intros w.
  { simpl. split; [done|lia]. }
  cbn [fetchAll]. unfold bind, ret.
  destruct (cost n w) as (Hr & _ & Hn).
  destruct (fetch n w) as [meta w1]. simpl in Hr, Hn.
  destruct (IH w1) as (Hr' & Hn').
  destruct (fetchAll fetch names w1) as [ms w2]. simpl in *.
  split; [congruence|lia].
Qed.
End LookupCost.

Lemma script_fetch_cost env n w :
  rnd (Script.fetchPokemonData env n w).2 = rnd w ∧
  poolCache (Script.fetchPokemonData env n w).2 = poolCache w ∧
  net w + 1 ≤ net (Script.fetchPokemonData env n w).2 ≤ net w + 2.
Proof.
  unfold Script.fetchPokemonData.
  destruct (pokemonEndpoint env (net w) n);
    [|simpl; split_and!; try done; lia].
  destruct (speciesEndpoint env (net w + 1) (p_species_url p)); simpl;
    split_and!; try done; lia.
Qed.

Lemma part001_fetch_cost env n w :
  rnd (Part001.fetchPokemonData env n w).2 = rnd w ∧
  poolCache (Part001.fetchPokemonData env n w).2 = poolCache w ∧
  net w + 1 ≤ net (Part001.fetchPokemonData env n w).2 ≤ net w + 2.
Proof.
  unfold Part001.fetchPokemonData.
  destruct (pokemonEndpoint env (net w) n);
    [|simpl; split_and!; try done; lia].
  destruct (speciesEndpoint env (net w + 1) (p_species_url p)); simpl;
    split_and!; try done; lia.
Qed.

(** X23. The lookups of [buildEvolutionGroup], in both variants.  It draws
    no random number and makes at most two requests per item of the pool;
    and unless it returns a group of the full size, it has looked up every
    item of the pool, one request at least for each. *)
Theorem evolution_scan_cost env (pool : list string) (minSize : nat)
    (w : World) :
  (rnd (buildEvolutionGroup (Script.fetchPokemonData env) pool minSize w).2
     = rnd w ∧
   net (buildEvolutionGroup (Script.fetchPokemonData env) pool minSize w).2
     ≤ net w + 2 * length pool ∧
   (match (buildEvolutionGroup (Script.fetchPokemonData env) pool minSize w).1
    with
    | Some g => length g < minSize
    | None => True
    end →
    net w + length pool
      ≤ net (buildEvolutionGroup (Script.fetchPokemonData env)
                                 pool minSize w).2)) ∧
  (rnd (buildEvolutionGroup (Part001.fetchPokemonData env) pool minSize w).2
     = rnd w ∧
   net (buildEvolutionGroup (Part001.fetchPokemonData env) pool minSize w).2
     ≤ net w + 2 * length pool ∧
   (match (buildEvolutionGroup (Part001.fetchPokemonData env) pool minSize w).1
    with
    | Some g => length g < minSize
    | None => True
    end →
    net w + length pool
      ≤ net (buildEvolutionGroup (Part001.fetchPokemonData env)
                                 pool minSize w).2)).
Proof.
  unfold buildEvolutionGroup. split.
  - apply chainScan_cost. apply script_fetch_cost.
  - apply chainScan_cost. apply part001_fetch_cost.
Qed.

Lemma evolution_scan_cost_witness :
  net w0 + length Script.GEN1
    ≤ net (buildEvolutionGroup (Script.fetchPokemonData sparse_env)
                               Script.GEN1 GROUP_SIZE w0).2.
Proof.
  destruct (evolution_scan_cost sparse_env Script.GEN1 GROUP_SIZE w0)
    as [(_ & _ & H) _].
  apply H. vm_compute. lia.
Defined.

(** X24. Laying a board (the statements of [startGame] from the
    assignment of [solutions] to that of [cardData], which [publish] runs
    and adds nothing to), in both variants, draws one random number less
    than there are identifiers in the groups and makes between one and two
    requests per identifier: sixteen to thirty-two requests for a full
    board. *)
Theorem publish_cost env (sols : list (list string)) (w : World) :
  (rnd (publish env (Script.fetchPokemonData env) sols w).2
     = rnd w + (length (concat sols) - 1) ∧
   net w + length (concat sols)
     ≤ net (publish env (Script.fetchPokemonData env) sols w).2
     ≤ net w + 2 * length (concat sols)) ∧
  (rnd (publish env (Part001.fetchPokemonData env) sols w).2
     = rnd w + (length (concat sols) - 1) ∧
   net w + length (concat sols)
     ≤ net (publish env (Part001.fetchPokemonData env) sols w).2
     ≤ net w + 2 * length (concat sols)).
Proof.
  assert (∀ fetch,
            (∀ n w1,
               rnd (fetch n w1).2 = rnd w1 ∧
               poolCache (fetch n w1).2 = poolCache w1 ∧
               net w1 + 1 ≤ net (fetch n w1).2 ≤ net w1 + 2) →
            rnd (publish env fetch sols w).2
              = rnd w + (length (concat sols) - 1) ∧
            net w + length (concat sols)
              ≤ net (publish env fetch sols w).2
              ≤ net w + 2 * length (concat sols)) as H.
  { intros fetch Hcost. unfold publish, layBoard, bind, ret.
    pose proof (shuffle_from_counters env (length (concat sols) - 1)
                  (concat sols) w) as Hw.
    pose proof (shuffle_Permutation env (concat sols) w) as Hp.
    unfold shuffle in *.
    destruct (shuffle_from env (length (concat sols) - 1) (concat sols) w)
      as [shuffled w1]. simpl in Hw, Hp. subst w1.
    destruct (fetchAll_cost fetch Hcost shuffled
                (mkWorld (rnd w + (length (concat sols) - 1)) (net w)
                         (poolCache w))) as (Hr & Hn).
    destruct (fetchAll fetch shuffled _) as [metas w2]. simpl in *.
    rewrite (Permutation_length Hp) in Hn. split; [done|lia]. }
  split.
  - apply H. apply script_fetch_cost.
  - apply H. apply part001_fetch_cost.
Qed.

(** ** No win on a board that is not full *)

Lemma short_board_step st op :
  length (cardData st) < MAX_BOARD → status st ≠ MSG_WON →
  length (cardData (step st op)) < MAX_BOARD ∧ status (step st op) ≠ MSG_WON.
Proof.
  intros Hlen Hst. split.
  { pose proof (step_mono st op) as Hm. apply Forall2_length in Hm. lia. }
  destruct op; simpl.
  - destruct (onCardClick_status idx st) as [->| ->]; [done|discriminate].
  - destruct (lockSelection_cases st)
      as [[_ ->]|[(_&_&->)|(cards&_&_&[(gid&_&->)|[_ ->]])]]; simpl;
      [discriminate|done| |discriminate].
    unfold checkWin. simpl.
    destruct (filter_length_all locked (lockAll (selected st) (cardData st)))
      as [Hle _].
    rewrite lockAll_length in Hle.
    destruct (Nat.eqb_spec (length (List.filter locked
                                      (lockAll (selected st) (cardData st))))
                           MAX_BOARD) as [Heq|_]; [lia|].
    simpl. discriminate.
  - discriminate.
  - discriminate.
Qed.

(** X25. In the Gen 1-7 variant, on a board of fewer than sixteen
    entries, such as the empty board that a failed start leaves, no
    sequence of clicks, guesses, clears and reveals ever makes the status
    line announce a win. *)
Theorem short_board_never_won (ops : list Op) (st : State) :
  length (cardData st) < MAX_BOARD → status st ≠ MSG_WON →
  status (run ops st) ≠ MSG_WON.
Proof.
  unfold run. revert st.
  induction ops as [|op ops IH]; intros st Hlen Hst; [done|].
  cbn [foldl]. destruct (short_board_step st op Hlen Hst) as [Hlen' Hst'].
  by apply IH.
Qed.

Lemma short_board_never_won_witness :
  status (run [Click 0; Lock; Reveal; Clear; Lock]
              (mkState [] [] [] Part001.MSG_ERROR)) ≠ MSG_WON.
Proof.
  apply short_board_never_won.
  - vm_compute. lia.
  - discriminate.
Defined.

(** ** The reveal explains a type group by its type *)

Section TypedGroupHint.
Variable env : Env.
Variable fetch : string → M Meta.
Variable ty : string → option string.
Hypothesis stable : ∀ n w, head (types (fetch n w).1) = ty n.

Lemma fetchAll_types (names : list string) (w : World) :
  Forall2 (λ n m, head (types m) = ty n) names (fetchAll fetch names w).1.
Proof.
  revert w. induction names as [|n names IH]; intros w; [constructor|].
  cbn [fetchAll]. unfold bind, ret.
  pose proof (stable n w) as Hn. destruct (fetch n w) as [m w1]. simpl in Hn.
  specialize (IH w1). destruct (fetchAll fetch names w1) as [ms w2].
  simpl in *. by constructor.
Qed.

Lemma published_types (sols : list (list string)) (w : World) (c : Card) :
  c ∈ cardData (publish env fetch sols w).1 →
  head (types (metadata c)) = ty (name c).
Proof.
  unfold publish, layBoard, bind, ret.
  destruct (shuffle env (concat sols) w) as [shuffled w1].
  pose proof (fetchAll_types shuffled w1) as Hty.
  destruct (fetchAll fetch shuffled w1) as [metas w2]. simpl in *.
  intros (i & Hi)%list_elem_of_lookup_1.
  apply lookup_zip_with_Some in Hi as (n & m & -> & Hn & Hm). simpl.
  by apply (Forall2_lookup_lr _ _ _ i n m Hty).
Qed.

(** X26. With a catalog that gives the same primary type for the same
    item whenever it is asked: for names that all have the non-empty
    primary type [t], one of them at least a member of the published
    groups, the hint computed at any point of the session is
    ["All are t type"], also when the names form an evolution family
    or are all legendary.  This holds of the board the Gen 1-7 variant
    publishes, under its commands, and of the board [script.js] lays,
    under its commands. *)
Theorem typed_group_is_explained (sols : list (list string)) (w : World)
    (ops : list Op) (names : list string) (t : string) :
  t ≠ "" →
  (∃ n, n ∈ names ∧ n ∈ concat sols) →
  (∀ n, n ∈ names → ty n = Some t) →
  inferHintForGroup (cardData (run ops (publish env fetch sols w).1)) names =
    "All are " +:+ t +:+ " type" ∧
  inferHintForGroup (cardData (Script.run ops (layBoard env fetch sols w).1))
                    names =
    "All are " +:+ t +:+ " type".
Proof.
  intros Ht (n & Hn & Hin) Hall.
  rewrite (inferHintForGroup_lock_mono _ _ names (run_mono ops _)).
  rewrite (inferHintForGroup_lock_mono _ _ names (script_run_mono ops _)).
  assert (cardData (layBoard env fetch sols w).1 =
          cardData (publish env fetch sols w).1) as ->
    by (by rewrite publish_layBoard).
  cut (inferHintForGroup (cardData (publish env fetch sols w).1) names =
       "All are " +:+ t +:+ " type"); [by intros ?|].
  apply hint_typed; [done| |].
  - exists n. split; [done|].
    destruct (publish_spec env fetch sols w) as (shuffled & metas & Hp & Hm & ->).
    simpl. rewrite zip_cards_names by done. by rewrite Hp.
  - intros c Hc Hcn. rewrite (published_types sols w c Hc). by apply Hall.
Qed.
End TypedGroupHint.

Lemma typed_group_is_explained_witness :
  inferHintForGroup
    (cardData (run [Reveal]
                   (publish sparse_env (Script.fetchPokemonData sparse_env)
                            [["bulbasaur"; "ivysaur"; "venusaur"; "abra"]]
                            w0).1))
    ["venusaur"; "bulbasaur"; "ivysaur"] = "All are grass type" ∧
  inferHintForGroup
    (cardData (Script.run [Reveal]
                 (layBoard sparse_env (Script.fetchPokemonData sparse_env)
                           [["bulbasaur"; "ivysaur"; "venusaur"; "abra"]]
                           w0).1))
    ["venusaur"; "bulbasaur"; "ivysaur"] = "All are grass type".
Proof.
  assert (∀ n w',
            head (types (Script.fetchPokemonData sparse_env n w').1) =
            if bool_decide (n ∈ grassFamily) then Some "grass" else None)
    as Hstable.
  { intros n w'. unfold Script.fetchPokemonData, sparse_env. simpl.
    by destruct (bool_decide (n ∈ grassFamily)). }
  apply (typed_group_is_explained sparse_env (Script.fetchPokemonData sparse_env)
           (λ n, if bool_decide (n ∈ grassFamily) then Some "grass" else None)
           Hstable [["bulbasaur"; "ivysaur"; "venusaur"; "abra"]] w0 [Reveal]
           ["venusaur"; "bulbasaur"; "ivysaur"] "grass").
  - discriminate.
  - exists "venusaur". split; apply (bool_decide_unpack _); vm_compute; exact I.
  - apply Forall_forall. apply (bool_decide_unpack _). vm_compute. exact I.
Defined.

(** * Guesses against the hidden groups, and [script.js] after
    [renderBoard()] *)

(** ** The first group that holds a name *)

Lemma findIndex_first {A} (p : A → bool) (a : list A) (k : nat) (x : A) :
  a !! k = Some x → p x = true →
  (∀ j y, j < k → a !! j = Some y → p y = false) →
  JS.findIndex p a = Z.of_nat k.
Proof.
  revert k. induction a as [|z a IH]; intros k Hk Hp Hmin; [done|].
  destruct k as [|k]; simpl in *.
  - simplify_eq. by rewrite Hp.
  - rewrite (Hmin 0 z); [|lia|done].
    rewrite (IH k Hk Hp).
    + destruct (Z.ltb_spec (Z.of_nat k) 0); lia.
    + intros j y Hj Hy. apply (Hmin (S j) y); [lia|done].
Qed.

(** ** Counting the entries of a group *)

Lemma filter_none {A} (f : A → bool) (l : list A) :
  (∀ x, x ∈ l → f x = false) → List.filter f l = [].
Proof.
  induction l as [|x l IH]; intros H; simpl; [done|].
  rewrite (H x) by (apply elem_of_cons; by left).
  apply IH. intros y Hy. apply H. apply elem_of_cons. by right.
Qed.

Lemma count_in_group {A} (f : A → bool) (ls : list (list A)) (k : nat)
    (g : list A) :
  ls !! k = Some g →
  (∀ x, x ∈ g → f x = true) →
  (∀ j h x, j ≠ k → ls !! j = Some h → x ∈ h → f x = false) →
  length (List.filter f (concat ls)) = length g.
Proof.
  revert k. induction ls as [|h ls IH]; intros k Hk Hin Hout; [done|].
  simpl. rewrite List.filter_app, length_app.
  destruct k as [|k]; simpl in Hk.
  - simplify_eq. rewrite (filter_all f g Hin).
    rewrite (filter_none f (concat ls)); [simpl; lia|].
    intros x Hx. apply elem_of_concat in Hx as (h & Hh & Hx).
    apply list_elem_of_lookup_1 in Hh as [j Hj].
    by apply (Hout (S j) h x).
  - rewrite (filter_none f h).
    + simpl. apply (IH k Hk Hin). intros j h' x Hj. apply (Hout (S j) h' x). lia.
    + intros x Hx. by apply (Hout 0 h x).
Qed.

Lemma filter_fmap_length {A B} (f : B → bool) (proj : A → B) (l : list A) :
  length (List.filter (λ a, f (proj a)) l) = length (List.filter f (proj <$> l)).
Proof.
  induction l as [|a l IH]; simpl; [done|].
  destruct (f (proj a)); simpl; by rewrite IH.
Qed.

(** Distinct positions that all hold an element with [f] are no more than
    there are such elements, and when they are as many they are all the
    positions of such elements. *)
Lemma positions_cover {A} (f : A → bool) (l : list A) (sel : list nat) :
  NoDup sel →
  (∀ i, i ∈ sel → ∃ x, l !! i = Some x ∧ f x = true) →
  length sel ≤ length (List.filter f l) ∧
  (length (List.filter f l) ≤ length sel →
   ∀ j x, l !! j = Some x → f x = true → j ∈ sel).
Proof.
  revert sel. induction l as [|y l IH] using rev_ind; intros sel Hnd Hsel.
  { destruct sel as [|i sel]; [split; [done|by intros _ j x Hj]|].
    destruct (Hsel i) as (x & Hx & _); [left|done]. }
  rewrite List.filter_app, length_app.
  assert (∀ (sel' : list nat) i, (∀ i, i ∈ sel' → i ∈ sel) →
                    length l ∉ sel' → i ∈ sel' →
                    ∃ x, l !! i = Some x ∧ f x = true) as Hin.
  { intros sel' i Hsub Hnot Hi.
    destruct (Hsel i (Hsub i Hi)) as (x & Hx & Hfx).
    exists x. split; [|done].
    pose proof (lookup_lt_Some _ _ _ Hx) as Hlt. rewrite length_app in Hlt.
    simpl in Hlt.
    assert (i ≠ length l) by (by intros ->).
    rewrite lookup_app_l in Hx; [done|lia]. }
  assert (∀ j x, (l ++ [y]) !! j = Some x →
                 (j < length l ∧ l !! j = Some x) ∨ (j = length l ∧ x = y))
    as Hsplit.
  { intros j x Hj. pose proof (lookup_lt_Some _ _ _ Hj) as Hlt.
    rewrite length_app in Hlt. simpl in Hlt.
    destruct (decide (j < length l)) as [Hjl|Hjl].
    - left. split; [done|]. by rewrite lookup_app_l in Hj.
    - right. assert (j = length l) as -> by lia. split; [done|].
      rewrite list_lookup_middle in Hj; [|done]. by simplify_eq. }
  destruct (decide (length l ∈ sel)) as [Hlast|Hlast].
  - apply elem_of_Permutation in Hlast as [sel' Hperm].
    rewrite Hperm in Hnd. apply NoDup_cons in Hnd as [Hnot Hnd'].
    destruct (IH sel' Hnd') as [Hle Hcov].
    { intros i Hi. apply (Hin sel'); [|done|done].
      intros i' Hi'. rewrite Hperm. by right. }
    destruct (Hsel (length l)) as (x & Hx & Hfx).
    { rewrite Hperm. by left. }
    rewrite list_lookup_middle in Hx; [|done]. simplify_eq.
    simpl. rewrite Hfx. rewrite Hperm. simpl. split; [lia|].
    intros Hge j x' Hj Hfx'. rewrite Hperm.
    destruct (Hsplit j x' Hj) as [[_ Hjl]|[-> _]]; [right|by left].
    apply (Hcov ltac:(lia) j x' Hjl Hfx').
  - destruct (IH sel Hnd) as [Hle Hcov].
    { intros i Hi. by apply (Hin sel). }
    split; [lia|]. intros Hge j x Hj Hfx.
    destruct (Hsplit j x Hj) as [[_ Hjl]|[-> ->]].
    + apply (Hcov ltac:(lia) j x Hjl Hfx).
    + simpl in Hge. rewrite Hfx in Hge. simpl in Hge. lia.
Qed.

(** ** The hidden groups during a session *)

Lemma whole_group_index groups sols cards k g0 x :
  disjoint_groups groups → Forall2 (group_state cards) sols groups →
  groups !! k = Some g0 → sols !! k = Some g0 → x ∈ g0 →
  groupIndexOf sols x = Z.of_nat k.
Proof.
  intros [_ Hdis] HF Hg Hs Hx. unfold groupIndexOf.
  apply (findIndex_first _ _ k g0); [done|by apply includes_true|].
  intros j y Hj Hy. apply includes_false.
  destruct (Forall2_lookup_l _ _ _ _ _ HF Hy) as (h & Hh & [->|[-> _]]).
  - intros Hxh. apply (Hdis k j g0 h x); [lia|done|done|done|done].
  - apply not_elem_of_nil.
Qed.

(** An unlocked entry belongs to a hidden group that is still whole. *)
Lemma unlocked_in_whole_group groups st c :
  in_play groups st → c ∈ cardData st → locked c = false →
  ∃ k g0, groups !! k = Some g0 ∧ solutions st !! k = Some g0 ∧ name c ∈ g0.
Proof.
  intros (Hd & Hp & HF & _) Hc Hl.
  assert (name c ∈ concat groups) as Hn.
  { rewrite <- Hp. apply list_elem_of_fmap. by exists c. }
  apply elem_of_concat in Hn as (g0 & Hg0 & Hx).
  apply list_elem_of_lookup_1 in Hg0 as [k Hk].
  destruct (Forall2_lookup_r _ _ _ _ _ HF Hk) as (g & Hg & [->|[-> Hall]]).
  - by exists k, g0.
  - rewrite (Hall c Hc Hx) in Hl. done.
Qed.

Lemma group_state_mono cards cards' g g0 :
  lock_mono cards cards' → group_state cards g g0 → group_state cards' g g0.
Proof.
  intros Hm [->|[-> Hall]]; [by left|right]. split; [done|].
  intros c' Hc' Hn. apply list_elem_of_lookup_1 in Hc' as [i Hi].
  destruct (Forall2_lookup_r _ _ _ _ _ Hm Hi) as (c & Hc & Hname & _ & _ & Hl).
  apply Hl, Hall; [by eapply list_elem_of_lookup_2|]. by rewrite <- Hname.
Qed.

(** A guess judged correct with a group index that exists: the index is
    that of a hidden group which is still whole and holds the names of all
    the selected entries. *)
Lemma guess_group groups st cards gid :
  in_play groups st →
  cards ≠ [] →
  JS.Set_of (groupIndexOf (solutions st) <$> (name <$> cards)) = [gid] →
  (0 ≤ gid)%Z →
  ∃ g0, groups !! Z.to_nat gid = Some g0 ∧
        solutions st !! Z.to_nat gid = Some g0 ∧
        Forall (λ c, name c ∈ g0) cards.
Proof.
  intros (Hd & Hp & HF & _) Hne Hset Hge.
  apply Set_of_singleton in Hset as [_ Hall].
  rewrite Forall_fmap, Forall_fmap, Forall_forall in Hall.
  assert (∀ c, c ∈ cards →
               ∃ g, solutions st !! Z.to_nat gid = Some g ∧ name c ∈ g) as Hfound.
  { intros c Hc. apply groupIndexOf_found.
    rewrite (Z2Nat.id gid Hge). by apply Hall. }
  destruct cards as [|c1 cards]; [done|].
  destruct (Hfound c1) as (g & Hg & Hc1); [left|].
  destruct (Forall2_lookup_l _ _ _ _ _ HF Hg) as (g0 & Hg0 & [->|[-> _]]).
  - exists g0. split_and!; [done|done|].
    apply Forall_forall. intros c Hc.
    destruct (Hfound c Hc) as (g' & Hg' & Hin). by simplify_eq.
  - by apply elem_of_nil in Hc1.
Qed.

(** The board holds four entries with names of a given hidden group. *)
Lemma group_entries groups st k g0 :
  in_play groups st → groups !! k = Some g0 →
  length (List.filter (λ c, bool_decide (name c ∈ g0)) (cardData st)) = GROUP_SIZE.
Proof.
  intros ([Hsz Hdis] & Hp & _ & _) Hk.
  etrans; [exact (filter_fmap_length (λ n, bool_decide (n ∈ g0)) name
                                      (cardData st))|].
  rewrite (filter_length_Permutation _ _ _ Hp).
  rewrite (count_in_group _ groups k g0 Hk).
  - rewrite Forall_forall in Hsz. apply Hsz. by eapply list_elem_of_lookup_2.
  - intros x Hx. by apply bool_decide_eq_true.
  - intros j h x Hj Hh Hx. apply bool_decide_eq_false.
    intros Hxg. by apply (Hdis j k h g0 x).
Qed.

(** Four distinct selected entries with names of one hidden group are all
    the entries with such names: once they are locked, the group's entries
    are. *)
Lemma claim_locks_group groups st cards k g0 :
  in_play groups st → length (selected st) = GROUP_SIZE →
  mapM (λ i, cardData st !! i) (selected st) = Some cards →
  groups !! k = Some g0 → Forall (λ c, name c ∈ g0) cards →
  ∀ c', c' ∈ lockAll (selected st) (cardData st) → name c' ∈ g0 →
        locked c' = true.
Proof.
  intros Hin Hlen Hm Hk Hnames c' Hc' Hn.
  pose proof (group_entries groups st k g0 Hin Hk) as Hcount.
  destruct Hin as (_ & _ & _ & Hnd).
  apply mapM_Some in Hm. rewrite Forall_forall in Hnames.
  destruct (positions_cover (λ c, bool_decide (name c ∈ g0)) (cardData st)
              (selected st) Hnd) as [_ Hcov].
  { intros i Hi. apply list_elem_of_lookup_1 in Hi as [p Hp].
    destruct (Forall2_lookup_l _ _ _ _ _ Hm Hp) as (c & Hc & Hci).
    exists c. split; [done|]. apply bool_decide_eq_true, Hnames.
    by eapply list_elem_of_lookup_2. }
  apply list_elem_of_lookup_1 in Hc' as [j Hj].
  rewrite lockAll_lookup in Hj.
  destruct (cardData st !! j) as [c|] eqn:Hc; [|done]. simpl in Hj.
  assert (j ∈ selected st) as Hsel.
  { apply (Hcov ltac:(lia) j c Hc). apply bool_decide_eq_true.
    destruct (bool_decide (j ∈ selected st)); by simplify_eq. }
  rewrite bool_decide_eq_true_2 in Hj by done. by simplify_eq.
Qed.

(** The state a guess judged correct leaves, whatever becomes of the
    selection and of the status line afterwards. *)
Lemma in_play_guess groups st cards gid sel' txt :
  in_play groups st → length (selected st) = GROUP_SIZE →
  mapM (λ i, cardData st !! i) (selected st) = Some cards →
  JS.Set_of (groupIndexOf (solutions st) <$> (name <$> cards)) = [gid] →
  NoDup sel' →
  in_play groups (mkState (lockAll (selected st) (cardData st)) sel'
                          (clearGroup gid (solutions st)) txt).
Proof.
  intros Hin Hlen Hm Hset Hsel'.
  pose proof Hin as (Hd & Hp & HF & Hnd).
  unfold in_play; simpl. split_and!; [done| | |done].
  { by rewrite lockAll_names. }
  assert (Forall2 (group_state (lockAll (selected st) (cardData st)))
                  (solutions st) groups) as HF'.
  { eapply Forall2_impl; [exact HF|]. intros g g0.
    apply group_state_mono, lock_mono_lockAll. }
  unfold clearGroup. destruct (Z.leb_spec 0 gid) as [Hge|Hlt]; [|done].
  assert (cards ≠ []) as Hne.
  { apply mapM_Some, Forall2_length in Hm. rewrite Hlen in Hm.
    by destruct cards. }
  destruct (guess_group groups st cards gid Hin Hne Hset Hge)
    as (g0 & Hg0 & Hs0 & Hnames).
  rewrite <- (list_insert_id groups (Z.to_nat gid) g0 Hg0).
  apply Forall2_insert; [done|]. right. split; [done|].
  by apply (claim_locks_group groups st cards (Z.to_nat gid) g0).
Qed.

Lemma onCardClick_NoDup idx st :
  NoDup (selected st) → NoDup (selected (onCardClick idx st)).
Proof.
  intros Hnd. unfold onCardClick. destruct (cardData st !! idx) as [c|]; [|done].
  destruct (locked c); [done|].
  destruct (Z.leb_spec 0 (JS.indexOf (selected st) idx)) as [Hge|Hlt].
  - eapply sublist_NoDup; [exact Hnd|apply sublist_delete].
  - destruct (GROUP_SIZE <=? length (selected st)); simpl; [exact Hnd|].
    apply NoDup_app. split_and!; [done| |apply NoDup_singleton].
    intros x Hx ->%list_elem_of_singleton.
    by apply indexOf_absent in Hlt.
Qed.

Lemma in_play_ext groups st st' :
  cardData st' = cardData st → solutions st' = solutions st →
  NoDup (selected st') → in_play groups st → in_play groups st'.
Proof. unfold in_play. intros -> -> ? (?&?&?&_). by split_and!. Qed.

(** Every command keeps the state in play, in both variants. *)
Lemma in_play_step groups st op :
  in_play groups st → in_play groups (step st op).
Proof.
  intros Hin. pose proof Hin as (_ & _ & _ & Hnd). destruct op; simpl.
  - apply (in_play_ext groups st); [apply onCardClick_cardData|apply onCardClick_solutions|
                         by apply onCardClick_NoDup|done].
  - destruct (lockSelection_cases st)
      as [[_ ->]|[(_&_&->)|(cards&Hlen&Hm&[(gid&Hset&->)|[_ ->]])]]; simpl;
      [by apply (in_play_ext groups st)|done| |by apply (in_play_ext groups st)].
    eapply in_play_ext;
      [apply checkWin_cardData|apply checkWin_solutions| |].
    + rewrite checkWin_selected. apply NoDup_nil_2.
    + by apply (in_play_guess groups st cards gid [] MSG_CORRECT);
        [..|apply NoDup_nil_2].
  - apply (in_play_ext groups st); [done|done|apply NoDup_nil_2|done].
  - by apply (in_play_ext groups st).
Qed.

Lemma in_play_script_step groups st op :
  in_play groups st → in_play groups (Script.step st op).
Proof.
  intros Hin. pose proof Hin as (_ & _ & _ & Hnd). destruct op; simpl.
  - apply (in_play_ext groups st); [apply onCardClick_cardData|apply onCardClick_solutions|
                         by apply onCardClick_NoDup|done].
  - destruct (script_lockSelection_cases st)
      as [[_ ->]|[(_&_&->)|(cards&Hlen&Hm&[(gid&Hset&->)|[_ ->]])]]; simpl;
      [by apply (in_play_ext groups st)|done| |by apply (in_play_ext groups st)].
    by apply (in_play_guess groups st cards gid).
  - apply (in_play_ext groups st); [done|done|apply NoDup_nil_2|done].
  - by apply (in_play_ext groups st).
Qed.

Lemma in_play_run groups ops st :
  in_play groups st → in_play groups (run ops st).
Proof.
  unfold run. revert st. induction ops as [|op ops IH]; intros st Hin; [done|].
  simpl. by apply IH, in_play_step.
Qed.

Lemma in_play_script_run groups ops st :
  in_play groups st → in_play groups (Script.run ops st).
Proof.
  unfold Script.run. revert st.
  induction ops as [|op ops IH]; intros st Hin; [done|].
  simpl. by apply IH, in_play_script_step.
Qed.

(** The board laid for disjoint groups of four is in play. *)
Lemma in_play_laid env fetch (sols : list (list string)) (w : World) :
  disjoint_groups sols → in_play sols (layBoard env fetch sols w).1.
Proof.
  intros Hd. destruct (laid_names env fetch sols w) as (Hsol & Hsel & Hn).
  unfold in_play. rewrite Hsol, Hsel. split_and!; [done|done| |apply NoDup_nil_2].
  apply Forall_Forall2_diag, Forall_forall. intros g _. by left.
Qed.

(** The board [script.js] lays is in play for its own groups, whatever
    the catalog answers; so is every board the Gen 1-7 variant publishes. *)
Lemma script_start_in_play env w :
  ∃ st w', Script.startGame env w = Returns st w' ∧
           in_play (solutions st) st ∧ selected st = [] ∧
           length (cardData st) = MAX_BOARD.
Proof.
  destruct (script_start_returns env w) as (sols & w1 & Ha & Hl & Hall & Hs).
  destruct (assemble_sourced env (Script.fetchPokemonData env)
              (Script.findSameTypeFiller env) Script.legendaryNames
              Script.GEN1 (script_filler_sourced env) Script.GEN1 w sols w1
              (sourced_start _ GEN1_NoDup) GEN1_lower Ha) as [_ Hdis].
  destruct (laid_board env (Script.fetchPokemonData env) sols w1 Hl Hall)
    as (Hc & Hsol & Hsel).
  eexists _, _. split; [exact Hs|]. simpl. rewrite Hsol.
  split_and!; [|done|done].
  apply (in_play_ext sols (layBoard env (Script.fetchPokemonData env) sols w1).1);
    [done|done|simpl; rewrite Hsel; apply NoDup_nil_2|].
  apply in_play_laid. by split.
Qed.

Lemma part001_start_in_play env w st w' :
  (∀ c, poolCache w = Some c → NoDup c ∧ ∀ x, x ∈ c → JS.toLowerCase x = x) →
  Part001.startGame env w = Returns st w' → status st = MSG_READY →
  in_play (solutions st) st ∧ selected st = [] ∧
  length (cardData st) = MAX_BOARD.
Proof.
  intros Hcache.
  unfold Part001.startGame, Part001.generate, bindO at 1. unfold lift at 1.
  assert (NoDup (Part001.getPoolForGens env 1 Part001.MAX_GEN w).1) as Hnd.
  { apply getPoolForGens_NoDup. intros c Hc. by apply Hcache. }
  assert (∀ x, x ∈ (Part001.getPoolForGens env 1 Part001.MAX_GEN w).1 →
               JS.toLowerCase x = x) as Hlow.
  { apply getPoolForGens_lower. intros c Hc. by apply Hcache. }
  destruct (Part001.getPoolForGens env 1 Part001.MAX_GEN w) as [pool w0'].
  simpl in Hnd, Hlow |- *.
  destruct (Nat.ltb_spec (length pool) MAX_BOARD) as [Hlt|Hge].
  { unfold throwO. intros [= <- <-] Hst. discriminate Hst. }
  unfold bindO at 1. unfold lift at 1.
  pose proof (shuffle_Permutation env pool w0') as Hp.
  destruct (shuffle env pool w0') as [candidatePool w1]. simpl in Hp.
  unfold bindO at 1.
  destruct (assemble_returns env (Part001.fetchPokemonData env)
              (Part001.findSameTypeFiller env) Part001.candidateLegends
              (part001_filler_contract env) candidatePool w1)
    as (sols & w2 & Ha & Hl & Hall); [by rewrite Hp|by rewrite Hp|].
  destruct (assemble_sourced env (Part001.fetchPokemonData env)
              (Part001.findSameTypeFiller env) Part001.candidateLegends
              candidatePool (part001_filler_sourced env) candidatePool w1
              sols w2) as [_ Hdis].
  { apply sourced_start. by rewrite Hp. }
  { intros x Hx. apply Hlow. by rewrite <- Hp. }
  { exact Ha. }
  rewrite Ha. unfold lift. rewrite publish_layBoard.
  destruct (laid_board env (Part001.fetchPokemonData env) sols w2 Hl Hall)
    as (Hc & Hsol & Hsel).
  intros [= <- <-] _. simpl. rewrite Hsol. split_and!; [|done|done].
  apply (in_play_ext sols (layBoard env (Part001.fetchPokemonData env) sols w2).1);
    [done|done|simpl; rewrite Hsel; apply NoDup_nil_2|].
  apply in_play_laid. by split.
Qed.

(** The selected entries of a state in play whose selection holds only
    unlocked entries: each has its hidden group, still whole, and the
    guess reads that group's index for it. *)
Lemma selected_indices groups st :
  in_play groups st →
  Forall (λ i, ∃ c, cardData st !! i = Some c ∧ locked c = false) (selected st) →
  ∃ cards,
    mapM (λ i, cardData st !! i) (selected st) = Some cards ∧
    Forall (λ c, locked c = false ∧
                 ∃ k g0, groups !! k = Some g0 ∧ solutions st !! k = Some g0 ∧
                         name c ∈ g0 ∧
                         groupIndexOf (solutions st) (name c) = Z.of_nat k) cards.
Proof.
  intros Hin Hsel.
  induction (selected st) as [|i sel IH].
  - exists []. split; [done|constructor].
  - apply Forall_cons in Hsel as [(c & Hc & Hl) Hsel].
    destruct (IH Hsel) as (cards & Hm & Hall).
    exists (c :: cards). split.
    + rewrite mapM_Some. constructor; [done|]. by apply mapM_Some.
    + constructor; [|done]. split; [done|].
      destruct (unlocked_in_whole_group groups st c Hin) as (k & g0 & Hk & Hs & Hx);
        [by eapply list_elem_of_lookup_2|done|].
      exists k, g0. split_and!; [done|done|done|].
      destruct Hin as (Hd & _ & HF & _).
      by apply (whole_group_index groups (solutions st) (cardData st) k g0).
Qed.

(** C2. On the board laid for the hidden groups [groups], at any point of
    a session, a guess of four unlocked entries is judged correct exactly
    when the four names lie in one hidden group.  When it is judged
    correct the verdict names the index of that group, the four entries
    are locked afterwards and that group alone is emptied in [solutions].
    Otherwise it is judged incorrect and the board with its lock flags,
    the solution groups and the selection are left as they were, so the
    same items can go into another guess.  [script.js] and the Gen 1-7
    variant give the same verdict and leave the same board and groups. *)
Theorem guess_correct_iff_one_hidden_group (groups : list (list string))
    (st : State) :
  in_play groups st →
  length (selected st) = GROUP_SIZE →
  Forall (λ i, ∃ c, cardData st !! i = Some c ∧ locked c = false) (selected st) →
  ∃ cards,
    mapM (λ i, cardData st !! i) (selected st) = Some cards ∧
    Forall (λ c, locked c = false) cards ∧
    ((∃ gid, (lockSelection st).1 = Correct gid) ↔
     (∃ k g, groups !! k = Some g ∧ Forall (λ c, name c ∈ g) cards)) ∧
    (∀ gid, (lockSelection st).1 = Correct gid →
       (0 ≤ gid)%Z ∧
       (∃ g, groups !! Z.to_nat gid = Some g ∧ Forall (λ c, name c ∈ g) cards) ∧
       Forall (λ i, ∃ c, cardData (lockSelection st).2 !! i = Some c ∧
                         locked c = true) (selected st) ∧
       solutions (lockSelection st).2 = <[Z.to_nat gid := []]> (solutions st)) ∧
    ((¬ ∃ k g, groups !! k = Some g ∧ Forall (λ c, name c ∈ g) cards) →
       (lockSelection st).1 = Incorrect (name <$> cards) ∧
       cardData (lockSelection st).2 = cardData st ∧
       solutions (lockSelection st).2 = solutions st ∧
       selected (lockSelection st).2 = selected st) ∧
    ((Script.lockSelection st).1 = (lockSelection st).1 ∧
     cardData (Script.lockSelection st).2 = cardData (lockSelection st).2 ∧
     solutions (Script.lockSelection st).2 = solutions (lockSelection st).2).
Proof.
  intros Hin Hlen Hsel.
  destruct (selected_indices groups st Hin Hsel) as (cards & Hm & Hall).
  exists cards. split; [done|].
  split; [eapply Forall_impl; [exact Hall|]; by intros c [? _]|].
  assert (cards ≠ []) as Hne.
  { apply mapM_Some, Forall2_length in Hm. rewrite Hlen in Hm.
    by destruct cards. }
  rewrite Forall_forall in Hall.
  (* a guess judged correct names a hidden group holding the four names *)
  assert (∀ gid,
            JS.Set_of (groupIndexOf (solutions st) <$> (name <$> cards)) = [gid] →
            (0 ≤ gid)%Z ∧
            ∃ g, groups !! Z.to_nat gid = Some g ∧
                 Forall (λ c, name c ∈ g) cards) as Hcorrect.
  { intros gid Hset.
    assert (0 ≤ gid)%Z as Hge.
    { pose proof Hset as [_ Hsame]%Set_of_singleton.
      rewrite Forall_fmap, Forall_fmap, Forall_forall in Hsame.
      destruct cards as [|c1 cards]; [done|].
      destruct (Hall c1) as (_ & k & g0 & _ & _ & _ & Hidx); [left|].
      rewrite <- (Hsame c1); [|left]. simpl. rewrite Hidx. lia. }
    split; [done|].
    destruct (guess_group groups st cards gid Hin Hne Hset Hge)
      as (g0 & Hg0 & _ & Hnames).
    by exists g0. }
  (* four names of one hidden group are judged correct *)
  assert (∀ k g, groups !! k = Some g → Forall (λ c, name c ∈ g) cards →
                 JS.Set_of (groupIndexOf (solutions st) <$> (name <$> cards)) =
                   [Z.of_nat k]) as Hjudged.
  { intros k g Hk Hnames. apply Set_of_singleton. split.
    - by destruct cards.
    - rewrite Forall_fmap, Forall_fmap. apply Forall_forall. intros c Hc. simpl.
      destruct (Hall c Hc) as (_ & k' & g' & Hk' & _ & Hx' & ->).
      rewrite Forall_forall in Hnames.
      destruct (decide (k' = k)) as [->|Hkk]; [done|].
      destruct Hin as ([_ Hdis] & _).
      exfalso. apply (Hdis k' k g' g (name c) Hkk Hk' Hk Hx'). by apply Hnames. }
  destruct (lockSelection_cases st)
    as [[Hl _]|[(_&Hm'&_)|(cards'&_&Hm'&[(gid&Hs&Heq)|[Hs Heq]])]];
    [done|congruence| |];
    (assert (cards' = cards) as -> by congruence).
  - destruct (Hcorrect gid Hs) as (Hge & g & Hg & Hnames).
    split; [|split; [|split; [|apply script_guess_agrees]]]; rewrite Heq; simpl.
    + split; [|by eauto]. intros _. by exists (Z.to_nat gid), g.
    + intros gid' [= <-]. split_and!; [done|by exists g| |].
      * destruct (correct_locks_selected st _ gid Heq) as [H _]. exact H.
      * rewrite checkWin_solutions. simpl. unfold clearGroup.
        by destruct (Z.leb_spec 0 gid); [|lia].
    + intros Hno. exfalso. apply Hno. by exists (Z.to_nat gid), g.
  - assert (¬ ∃ k g, groups !! k = Some g ∧ Forall (λ c, name c ∈ g) cards)
      as Hno.
    { intros (k & g & Hk & Hnames). by rewrite (Hjudged k g Hk Hnames) in Hs. }
    split; [|split; [|split; [|apply script_guess_agrees]]]; rewrite Heq; simpl.
    + split; [by intros [? ?]|]. intros H. by destruct Hno.
    + by intros gid' ?.
    + done.
Qed.

(** ** A second submission in [script.js] *)

Lemma claimed_group_index groups sols cards k g0 x :
  disjoint_groups groups → Forall2 (group_state cards) sols groups →
  groups !! k = Some g0 → x ∈ g0 →
  groupIndexOf (<[k := []]> sols) x = (-1)%Z.
Proof.
  intros [_ Hdis] HF Hk Hx. unfold groupIndexOf.
  pose proof (findIndex_range (λ g, JS.includes g x) (<[k := []]> sols)) as Hr.
  assert (JS.findIndex (λ g, JS.includes g x) (<[k := []]> sols) < 0)%Z; [|lia].
  apply findIndex_absent. intros y Hy. apply includes_false.
  apply list_elem_of_lookup_1 in Hy as [j Hj].
  apply list_lookup_insert_Some in Hj as [(-> & <- & _)|[Hjk Hj]].
  - apply not_elem_of_nil.
  - destruct (Forall2_lookup_l _ _ _ _ _ HF Hj) as (h & Hh & [->|[-> _]]).
    + intros Hxh. by apply (Hdis k j g0 h x).
    + apply not_elem_of_nil.
Qed.

Lemma lockAll_idem (sel : list nat) (cs : list Card) :
  lockAll sel (lockAll sel cs) = lockAll sel cs.
Proof.
  apply list_eq. intros i. rewrite !lockAll_lookup.
  destruct (cs !! i) as [c|]; simpl; [|done].
  by destruct (bool_decide (i ∈ sel)).
Qed.

(** C3. In [script.js], on the board laid for the hidden groups [groups],
    let a guess of four unlocked entries be judged correct.  Its four
    entries are locked, but the selection still holds them, since the
    statement that empties it is not reached; clicks on the four entries
    change nothing; and when the guess is submitted again it is not turned
    away: it is judged correct a second time, now under the group index
    -1, and the status line says so. *)
Theorem second_submission_judged_correct (groups : list (list string))
    (st st' : State) (gid : Z) :
  in_play groups st →
  Forall (λ i, ∃ c, cardData st !! i = Some c ∧ locked c = false) (selected st) →
  Script.lockSelection st = (Correct gid, st') →
  Forall (λ i, ∃ c, cardData st' !! i = Some c ∧ locked c = true) (selected st) ∧
  selected st' = selected st ∧
  foldl (λ s i, onCardClick i s) st' (selected st) = st' ∧
  ∃ st'', Script.lockSelection st' = (Correct (-1)%Z, st'') ∧
          status st'' = MSG_CORRECT ∧
          cardData st'' = cardData st' ∧ solutions st'' = solutions st'.
Proof.
  intros Hin Hsel Hlock.
  destruct (script_lockSelection_cases st)
    as [[_ Heq]|[(_&_&Heq)|(cards&Hlen&Hm&[(gid'&Hset&Heq)|[_ Heq]])]];
    rewrite Heq in Hlock; simplify_eq.
  assert (Forall (λ i, ∃ c, lockAll (selected st) (cardData st) !! i = Some c ∧
                            locked c = true) (selected st)) as Hlocked.
  { apply Forall_forall. intros i Hi. rewrite Forall_forall in Hsel.
    destruct (Hsel i Hi) as (c & Hc & _).
    exists (lockCard c). split; [|done].
    rewrite lockAll_lookup, Hc. simpl. by rewrite bool_decide_eq_true_2. }
  split_and!; [done|done|by apply clicks_on_locked|].
  (* the group the first guess claimed *)
  destruct (selected_indices groups st Hin Hsel) as (cards' & Hm' & Hall).
  assert (cards' = cards) as -> by congruence.
  assert (cards ≠ []) as Hne.
  { apply mapM_Some, Forall2_length in Hm. rewrite Hlen in Hm.
    by destruct cards. }
  assert (0 ≤ gid)%Z as Hge.
  { pose proof Hset as [_ Hsame]%Set_of_singleton.
    rewrite Forall_fmap, Forall_fmap, Forall_forall in Hsame.
    rewrite Forall_forall in Hall.
    destruct cards as [|c1 cards]; [done|].
    destruct (Hall c1) as (_ & k & g0 & _ & _ & _ & Hidx); [left|].
    rewrite <- (Hsame c1); [|left]. simpl. rewrite Hidx. lia. }
  destruct (guess_group groups st cards gid Hin Hne Hset Hge)
    as (g0 & Hg0 & _ & Hnames).
  pose proof Hin as (Hd & _ & HF & _).
  (* the second submission *)
  set (st1 := mkState (lockAll (selected st) (cardData st)) (selected st)
                      (clearGroup gid (solutions st)) MSG_CORRECT).
  assert (∀ cards2,
            mapM (λ i, cardData st1 !! i) (selected st1) = Some cards2 →
            JS.Set_of (groupIndexOf (solutions st1) <$> (name <$> cards2)) =
              [(-1)%Z]) as Hagain.
  { intros cards2 Hm2. apply Set_of_singleton.
    apply mapM_Some in Hm2. pose proof (Forall2_length _ _ _ Hm2) as Hl2.
    simpl in Hl2. rewrite Hlen in Hl2. split; [by destruct cards2|].
    rewrite Forall_fmap, Forall_fmap. apply Forall_forall. intros c2 Hc2.
    apply list_elem_of_lookup_1 in Hc2 as [p Hp].
    destruct (Forall2_lookup_r _ _ _ _ _ Hm2 Hp) as (i & Hi & Hci).
    simpl in Hi, Hci. rewrite lockAll_lookup in Hci.
    apply mapM_Some in Hm.
    destruct (Forall2_lookup_l _ _ _ _ _ Hm Hi) as (c & Hc & Hic).
    rewrite Hic in Hci. simpl in Hci.
    assert (name c2 = name c) as Hn.
    { destruct (bool_decide (i ∈ selected st)); by simplify_eq. }
    simpl. unfold clearGroup. destruct (Z.leb_spec 0 gid); [|lia].
    apply (claimed_group_index groups (solutions st) (cardData st)
             (Z.to_nat gid) g0); [done|done|done|].
    rewrite Hn. rewrite Forall_forall in Hnames. apply Hnames.
    by eapply list_elem_of_lookup_2. }
  destruct (script_lockSelection_cases st1)
    as [[Hl1 _]|[(_&Hm1&_)|(cards2&_&Hm2&[(gid2&Hset2&Heq2)|[Hset2 _]])]].
  - done.
  - exfalso. assert (is_Some (mapM (λ i, cardData st1 !! i) (selected st1)))
      as [? ?]; [|congruence].
    apply mapM_is_Some. simpl.
    eapply Forall_impl; [exact Hlocked|]. intros i (c & Hc & _). by exists c.
  - rewrite (Hagain cards2 Hm2) in Hset2. simplify_eq.
    eexists. split; [exact Heq2|]. simpl.
    split_and!; [done|apply lockAll_idem|done].
  - by rewrite (Hagain cards2 Hm2) in Hset2.
Qed.

(** ** The win in [script.js] *)

(** No command of [script.js] writes the won status. *)
Lemma script_step_not_won st op :
  status st ≠ MSG_WON → status (Script.step st op) ≠ MSG_WON.
Proof.
  intros Hst. destruct op; simpl.
  - destruct (onCardClick_status idx st) as [->| ->]; [done|discriminate].
  - destruct (script_lockSelection_cases st)
      as [[_ ->]|[(_&_&->)|(cards&_&_&[(gid&_&->)|[_ ->]])]]; simpl;
      [discriminate|done|discriminate|discriminate].
  - discriminate.
  - discriminate.
Qed.

Lemma script_run_not_won ops st :
  status st ≠ MSG_WON → status (Script.run ops st) ≠ MSG_WON.
Proof.
  unfold Script.run. revert st. induction ops as [|op ops IH]; intros st Hst;
    simpl; [done|].
  by apply IH, script_step_not_won.
Qed.

(** Every start of [script.js] ends with the error status. *)
Lemma script_start_status env w st w' :
  Script.startGame env w = Returns st w' → status st = Script.MSG_ERROR.
Proof.
  unfold Script.startGame, Script.renderBoard, Script.updateProgress.
  destruct (Script.generate env w) as [st1 w1|w1|]; [| |discriminate];
    by intros [= <- <-].
Qed.

(** C5. In [script.js] the session never comes to the won status.  No
    command writes it, whatever the board and the commands; and on the
    board of a start with the silent catalog the player who claims the
    four groups one after the other ends with all sixteen entries locked,
    all four groups emptied, and the status line of an ordinary correct
    guess, although [checkWin], had it been run, would have announced the
    win. *)
Theorem win_never_announced_in_script :
  (∀ ops st, status st ≠ MSG_WON → status (Script.run ops st) ≠ MSG_WON) ∧
  (∃ w', Script.startGame silent_env w0 = Returns silent_started w') ∧
  length (cardData (Script.run claim_all silent_started)) = MAX_BOARD ∧
  Forall (λ c, locked c = true) (cardData (Script.run claim_all silent_started)) ∧
  solutions (Script.run claim_all silent_started) = [[]; []; []; []] ∧
  status (Script.run claim_all silent_started) = MSG_CORRECT ∧
  status (checkWin (Script.run claim_all silent_started)) = MSG_WON.
Proof.
  split_and!.
  - intros ops st. apply script_run_not_won.
  - eexists. vm_compute. reflexivity.
  - vm_compute. reflexivity.
  - apply Forall_forall. apply every_true. vm_compute. reflexivity.
  - vm_compute. reflexivity.
  - vm_compute. reflexivity.
  - vm_compute. reflexivity.
Qed.

(** ** Founding instances on boards that [script.js] lays *)

Lemma started_in_play env w :
  in_play (solutions (started (Script.startGame env w)))
          (started (Script.startGame env w)).
Proof.
  destruct (script_start_in_play env w) as (st & w' & -> & H & _). exact H.
Defined.

Lemma unlocked_selection_check (st : State) :
  JS.every (λ i, match cardData st !! i with
                 | Some c => negb (locked c)
                 | None => false
                 end) (selected st) = true →
  Forall (λ i, ∃ c, cardData st !! i = Some c ∧ locked c = false) (selected st).
Proof.
  rewrite every_true. intros H. apply Forall_forall. intros i Hi.
  specialize (H i Hi). destruct (cardData st !! i) as [c|]; [|done].
  exists c. split; [done|]. by destruct (locked c).
Defined.

(** On the board that names bulbasaur twice, the two bulbasaur entries
    with ivysaur and venusaur are judged correct, as group 0, in both
    variants. *)
Lemma guess_correct_iff_one_hidden_group_witness :
  (∃ gid, (lockSelection
             (Script.run [Click 0; Click 2; Click 10; Click 13] sparse_started)).1 =
          Correct gid) ∧
  (Script.lockSelection
     (Script.run [Click 0; Click 2; Click 10; Click 13] sparse_started)).1 =
  (lockSelection (Script.run [Click 0; Click 2; Click 10; Click 13] sparse_started)).1.
Proof.
  destruct (guess_correct_iff_one_hidden_group (solutions sparse_started)
              (Script.run [Click 0; Click 2; Click 10; Click 13] sparse_started))
    as (cards & Hm & _ & Hiff & _ & _ & Hagree & _).
  - apply in_play_script_run, started_in_play.
  - vm_compute. reflexivity.
  - apply unlocked_selection_check. vm_compute. reflexivity.
  - split; [|exact Hagree].
    apply Hiff. exists 0, ["bulbasaur"; "ivysaur"; "venusaur"; "bulbasaur"].
    split; [vm_compute; reflexivity|].
    vm_compute in Hm. injection Hm as <-. repeat constructor.
Defined.

(** On the board of a start with the silent catalog: the four legendary
    entries are claimed, and the same submission is judged correct
    again. *)
Lemma second_submission_judged_correct_witness :
  ∃ st'',
    Script.lockSelection
      (Script.lockSelection
         (Script.run [Click 0; Click 6; Click 7; Click 14] silent_started)).2 =
      (Correct (-1)%Z, st'') ∧
    status st'' = MSG_CORRECT.
Proof.
  destruct (second_submission_judged_correct (solutions silent_started)
              (Script.run [Click 0; Click 6; Click 7; Click 14] silent_started)
              (Script.lockSelection
                 (Script.run [Click 0; Click 6; Click 7; Click 14]
                             silent_started)).2 0%Z)
    as (_ & _ & _ & st'' & Hagain & Hst & _).
  - apply in_play_script_run, started_in_play.
  - apply unlocked_selection_check. vm_compute. reflexivity.
  - vm_compute. reflexivity.
  - exists st''. split; [exact Hagain|exact Hst].
Defined.
